(** * Membership engines of the automata repository

    A shallow embedding of the three engines of the repository:
    [tm.py] (deterministic Turing machine), [npda.py] (nondeterministic
    pushdown automaton) and [cfg.py] (context-free grammar with a
    leftmost-derivation search), together with the properties that the
    specification states about them.

    Conventions of the embedding.
    - In [tm.py] a Python [str] is a [string]: states, symbols and tape
      cells are only compared as wholes.  In [npda.py] and [cfg.py],
      whose strings are walked character by character (an input, a
      stack, a sentential form, a line of a description file), a [str]
      is a [list ascii] and a one-character symbol is an [ascii].
    - A Python [set] that the code iterates over is a [list]: the order
      of the list is the (unspecified) iteration order, and every theorem
      is stated for all lists, hence for every iteration order.  A set
      that is only tested for membership and grown is a [gset].
    - A failing [assert] is an explicit error result.
    - Recursion that the code does not bound is given a [fuel] argument;
      running out of fuel is a result of its own, distinct from every
      result of the program.  The limits of the interpreter (recursion
      depth, memory) are not modelled. *)

From Stdlib Require Import Ascii String ZArith List Lia Bool Sorted.
From stdpp Require Import gmap strings list.

Open Scope string_scope.
Open Scope list_scope.
Open Scope nat_scope.

(** ** Python slices and list primitives shared by the engines *)

(** [s[:-1]]: every element but the last; the empty list stays empty. *)
Definition drop_last {A} (l : list A) : list A := take (length l - 1) l.

(** [l.index(x)]: position of the first [x], [None] for Python's ValueError. *)
Fixpoint index_of {A} `{EqDecision A} (x : A) (l : list A) : option nat :=
  match l with
  | [] => None
  | y :: l' => if decide (y = x) then Some 0 else S <$> index_of x l'
  end.

(** [l.count(x)]. *)
Definition count_occ_of {A} `{EqDecision A} (x : A) (l : list A) : nat :=
  length (filter (λ y, y = x) l).

(** ** Strings walked character by character *)

Abbreviation str := (list ascii).

(** The character reserved for epsilon in grammars and automata. *)
Definition epsilon : ascii := "e"%char.

Definition count_char (a : ascii) (s : str) : nat := count_occ_of a s.

(** [s.split(sep)] for a one-character separator. *)
Fixpoint split_on (sep : ascii) (s : str) : list str :=
  match s with
  | [] => [[]]
  | a :: s' =>
      if decide (a = sep) then [] :: split_on sep s'
      else match split_on sep s' with
           | p :: ps => (a :: p) :: ps
           | [] => [[a]]
           end
  end.

(** [s.rindex(a)]. *)
Definition rindex_of (a : ascii) (s : str) : option nat :=
  (λ i, length s - 1 - i) <$> index_of a (reverse s).

(** Characters for which [str.isspace] holds, among the first 256. *)
Definition is_space (a : ascii) : bool :=
  bool_decide (nat_of_ascii a ∈ [9; 10; 11; 12; 13; 28; 29; 30; 31; 32; 133; 160]).

Fixpoint lstrip (s : str) : str :=
  match s with
  | [] => []
  | a :: s' => if is_space a then lstrip s' else s
  end.

(** [s.strip()]. *)
Definition strip (s : str) : str := reverse (lstrip (reverse (lstrip s))).

Definition starts_with (a : ascii) (s : str) : bool :=
  match s with
  | [] => false
  | b :: _ => bool_decide (b = a)
  end.

(** The list comprehension at the top of the readers: blank lines and
    comment lines are dropped, then every space is removed. *)
Definition clean_lines (lines : list str) : list str :=
  map (filter (λ a, a ≠ " "%char))
    (filter (λ line, starts_with "#" (strip line) = false ∧ strip line ≠ [])
       lines).

(** [set.add] on a set kept as a list. *)
Definition set_add {A} `{EqDecision A} (x : A) (l : list A) : list A :=
  if decide (x ∈ l) then l else l ++ [x].

(** ** Results of fallible and fuelled code *)

(** The exceptions the engines can raise. *)
Inductive exn : Type :=
  | AssertionError
  | IndexError
  | ValueError.

(** A call returns a value, raises, or (in the embedding only) runs out
    of fuel. *)
Inductive outcome (A : Type) : Type :=
  | Ret (a : A)
  | Raise (e : exn)
  | Out_of_fuel.
Arguments Ret {A} a.
Arguments Raise {A} e.
Arguments Out_of_fuel {A}.

(** ** The self-test of tm.py and npda.py

    [perform_tests] is the same method in the two files, up to the text
    of the lines it prints: an assertion that the two lists share no
    string, a loop over the strings said to be in the language, a loop
    over the strings said not to be, and a last line when neither loop
    found an error.  It is modelled once, over the [accepts] of the
    class; what is printed is kept as a list of lines. *)

(** The lines [perform_tests] can print. *)
Inductive verdict (A : Type) : Type :=
  | Wrongly_rejected (string : A)
  | Wrongly_accepted (string : A)
  | All_passed.
Arguments Wrongly_rejected {A} string.
Arguments Wrongly_accepted {A} string.
Arguments All_passed {A}.

Section SelfTest.
Context {A : Type} `{Countable A}.
Variable accepts : A → outcome bool.

(** The first loop: what it prints, and how it ends, with the value of
    [error_found] when it returns. *)
Fixpoint check_in_language (strings : list A) (error_found : bool)
    : list (verdict A) * outcome bool :=
  match strings with
  | [] => ([], Ret error_found)
  | string :: rest =>
      match accepts string with
      | Ret false =>
          let '(printed, result) := check_in_language rest true in
          (Wrongly_rejected string :: printed, result)
      | Ret true => check_in_language rest error_found
      | Raise e => ([], Raise e)
      | Out_of_fuel => ([], Out_of_fuel)
      end
  end.

(** The second loop. *)
Fixpoint check_not_in_language (strings : list A) (error_found : bool)
    : list (verdict A) * outcome bool :=
  match strings with
  | [] => ([], Ret error_found)
  | string :: rest =>
      match accepts string with
      | Ret true =>
          let '(printed, result) := check_not_in_language rest true in
          (Wrongly_accepted string :: printed, result)
      | Ret false => check_not_in_language rest error_found
      | Raise e => ([], Raise e)
      | Out_of_fuel => ([], Out_of_fuel)
      end
  end.

Definition run_tests
    (some_strings_in_language some_strings_not_in_language : list A)
    : list (verdict A) * outcome unit :=
  if negb (bool_decide
             (size ((list_to_set some_strings_in_language : gset A)
                    ∩ list_to_set some_strings_not_in_language) = 0))
  then ([], Raise AssertionError)
  else
    match check_in_language some_strings_in_language false with
    | (printed, Ret error_found) =>
        match check_not_in_language some_strings_not_in_language
                error_found with
        | (printed', Ret error_found) =>
            (printed ++ printed'
               ++ (if error_found then [] else [All_passed]),
             Ret tt)
        | (printed', Raise e) => (printed ++ printed', Raise e)
        | (printed', Out_of_fuel) => (printed ++ printed', Out_of_fuel)
        end
    | (printed, Raise e) => (printed, Raise e)
    | (printed, Out_of_fuel) => (printed, Out_of_fuel)
    end.

End SelfTest.

(* ================================================================== *)
(** * tm.py *)
(* ================================================================== *)

Module Tm.

(** A transition is the 5-tuple (src, read, write, direction, dest). *)
Definition transition : Type := string * string * string * string * string.

Definition t_src (t : transition) : string := t.1.1.1.1.
Definition t_read (t : transition) : string := t.1.1.1.2.

(** The assertions of [TM.__init__], each with the message it carries. *)
Inductive init_error : Type :=
  | No_blank_symbol
  | Unknown_source (source : string)
  | Unknown_destination (destination : string)
  | Unknown_read_symbol (read_symbol : string)
  | Unknown_write_symbol (write_symbol : string)
  | Bad_direction (direction : string)
  | Not_deterministic (source read_symbol : string)
  | Unknown_start_state
  | No_accept_state.

Definition message (e : init_error) : string :=
  match e with
  | No_blank_symbol => "The tape alphabet must contain the blank symbol '.'"
  | Unknown_source s =>
      "The source state '" +:+ s +:+ "' must be one of the states"
  | Unknown_destination s =>
      "The destination state '" +:+ s +:+ "' must be one of the states"
  | Unknown_read_symbol s =>
      "The read symbol '" +:+ s +:+ "' must be one of the tape alphabet symbols"
  | Unknown_write_symbol s =>
      "The write symbol '" +:+ s +:+ "' must be one of the tape alphabet symbols"
  | Bad_direction s => "The direction '" +:+ s +:+ "' must be 'l' or 'r'"
  | Not_deterministic s r =>
      "This is a deterministic TM. However, there are multiple transitions with the same source state '"
        +:+ s +:+ "' and read symbol '" +:+ r +:+ "'"
  | Unknown_start_state => "The start state must be one of the states"
  | No_accept_state => "The accept state 'accept' must be one of the states"
  end.

Record TM : Type := mkTM {
  states_except_reject_state : gset string;
  tape_alphabet : gset string;
  transitions : list transition;
  start_state : string
}.

(** The loop of [__init__] over the transitions; [seen] is
    [source_and_read_symbols]. *)
Fixpoint check_transitions (states alphabet : gset string)
    (seen : gset (string * string)) (ts : list transition)
    : init_error + gset (string * string) :=
  match ts with
  | [] => inr seen
  | (source, read_symbol, write_symbol, direction, destination) :: ts' =>
      if negb (bool_decide (source ∈ states)) then inl (Unknown_source source)
      else if negb (bool_decide (destination ∈ states))
      then inl (Unknown_destination destination)
      else if negb (bool_decide (read_symbol ∈ alphabet))
      then inl (Unknown_read_symbol read_symbol)
      else if negb (bool_decide (write_symbol ∈ alphabet))
      then inl (Unknown_write_symbol write_symbol)
      else if negb (bool_decide (direction = "l" ∨ direction = "r"))
      then inl (Bad_direction direction)
      else if bool_decide ((source, read_symbol) ∈ seen)
      then inl (Not_deterministic source read_symbol)
      else check_transitions states alphabet
             ({[ (source, read_symbol) ]} ∪ seen) ts'
  end.

(** [TM.__init__]. *)
Definition init (states alphabet : gset string) (ts : list transition)
    (start : string) : init_error + TM :=
  if negb (bool_decide ("." ∈ alphabet)) then inl No_blank_symbol
  else match check_transitions states alphabet ∅ ts with
       | inl e => inl e
       | inr _ =>
           if negb (bool_decide (start ∈ states)) then inl Unknown_start_state
           else if negb (bool_decide ("accept" ∈ states))
           then inl No_accept_state
           else inr (mkTM states alphabet ts start)
       end.

(** [TM.from_transitions]: states and alphabet projected from the
    transitions. *)
Definition from_transitions (start : string) (ts : list transition)
    : init_error + TM :=
  let states :=
    foldr (λ '(s, _, _, _, d) acc, {[ s ]} ∪ ({[ d ]} ∪ acc)) ∅ ts in
  let alphabet :=
    foldr (λ '(_, r, w, _, _) acc, {[ r ]} ∪ ({[ w ]} ∪ acc)) ∅ ts in
  init states alphabet ts start.

(** *** The tape *)

(** [_read_tape]: [head] is a Python [int], so a [Z]. *)
Definition read_tape (tape : list string) (head : Z) : exn + string :=
  if (head <? 0)%Z then inl AssertionError
  else if (Z.of_nat (length tape) <=? head)%Z then inr "."
  else match tape !! Z.to_nat head with
       | Some c => inr c
       | None => inl IndexError
       end.

(** [_write_tape].  The tape is first extended with blanks when [head]
    is at or beyond its length; [tape[head] = symbol] then follows
    Python's indexing, where a negative index counts from the end. *)
Definition write_tape (tape : list string) (head : Z) (symbol : string)
    : exn + list string :=
  let tape :=
    if (Z.of_nat (length tape) <=? head)%Z
    then tape ++ replicate (Z.to_nat (head - Z.of_nat (length tape) + 1)) "."
    else tape in
  if (0 <=? head)%Z then
    if (head <? Z.of_nat (length tape))%Z
    then inr (<[Z.to_nat head := symbol]> tape)
    else inl IndexError
  else if (- Z.of_nat (length tape) <=? head)%Z
  then inr (<[Z.to_nat (Z.of_nat (length tape) + head) := symbol]> tape)
  else inl IndexError.

(** A configuration of the simulation: the arguments of [_simulate]. *)
Record config : Type := mkConfig {
  c_tape : list string;
  c_state : string;
  c_head : Z
}.

(** What one call of [_simulate] does before it recurses. *)
Inductive step_result : Type :=
  | Accept
  | Reject
  | Continue (c : config)
  | Failure (e : exn).

(** The move of the head in [_simulate]: right on "r", otherwise left,
    and back to 0 when that gives a negative index. *)
Definition move_head (direction : string) (head : Z) : Z :=
  if bool_decide (direction = "r") then (head + 1)%Z
  else let head := (head - 1)%Z in
       if (head <? 0)%Z then 0%Z else head.

(** The [for ... else] loop of [_simulate]: the first transition whose
    source is the current state and whose read symbol is under the head
    fires.  [and] is short-circuit: the tape is read only for a
    transition whose source matches. *)
Fixpoint first_applicable (ts : list transition) (c : config) : step_result :=
  match ts with
  | [] => Reject
  | (src, read, write, direction, dest) :: ts' =>
      if bool_decide (src = c_state c) then
        match read_tape (c_tape c) (c_head c) with
        | inr sym =>
            if bool_decide (sym = read) then
              match write_tape (c_tape c) (c_head c) write with
              | inr tape' =>
                  Continue (mkConfig tape' dest (move_head direction (c_head c)))
              | inl e => Failure e
              end
            else first_applicable ts' c
        | inl e => Failure e
        end
      else first_applicable ts' c
  end.

Definition step (M : TM) (c : config) : step_result :=
  if bool_decide (c_state c = "accept") then Accept
  else first_applicable (transitions M) c.

(** [_simulate], with fuel for the unbounded tail recursion. *)
Fixpoint simulate (fuel : nat) (M : TM) (c : config) : outcome bool :=
  match fuel with
  | O => Out_of_fuel
  | S fuel' =>
      match step M c with
      | Accept => Ret true
      | Reject => Ret false
      | Continue c' => simulate fuel' M c'
      | Failure e => Raise e
      end
  end.

(** [list(string)]: one cell per character. *)
Fixpoint cells (s : string) : list string :=
  match s with
  | EmptyString => []
  | String a s' => String a EmptyString :: cells s'
  end.

(** [accepts]. *)
Definition accepts (fuel : nat) (M : TM) (s : string) : outcome bool :=
  simulate fuel M (mkConfig (cells s) (start_state M) 0).

(** The configurations a simulation goes through. *)
Inductive reaches (M : TM) (c : config) : config → Prop :=
  | reaches_refl : reaches M c c
  | reaches_step c' c'' :
      reaches M c c' → step M c' = Continue c'' → reaches M c c''.

(** A transition is applicable to a (state, symbol) pair. *)
Definition applicable (state symbol : string) (t : transition) : Prop :=
  t_src t = state ∧ t_read t = symbol.

Global Instance applicable_dec state symbol t :
  Decision (applicable state symbol t).
Proof. unfold applicable. apply _. Defined.

(** *** Description files *)

(** The reader works on lines, the engine on names: the same Python
    [str], seen character by character or as a whole. *)
Definition name (s : str) : string := string_of_list_ascii s.

(** The loop of [read_machine] over the cleaned lines. *)
Fixpoint read_machine_lines (lines : list str) (start_state : option str)
    (transitions : list transition)
    : exn + (option str * list transition) :=
  match lines with
  | [] => inr (start_state, transitions)
  | line :: lines' =>
      if negb (bool_decide (count_char ":" line = 2)) then inl AssertionError
      else if negb (bool_decide (count_char ">" line = 1))
      then inl AssertionError
      else
        match index_of ":"%char line, index_of ">"%char line,
              rindex_of ":" line with
        | Some i, Some j, Some k =>
            if negb (bool_decide (i < j ∧ j < k)) then inl AssertionError
            else
              match split_on ":" line with
              | [source_state; read_write; destination] =>
                  let start_state :=
                    match start_state with
                    | None => Some source_state
                    | Some _ => start_state
                    end in
                  if negb (bool_decide (3 ≤ length read_write))
                  then inl AssertionError
                  else
                    match split_on ">" read_write with
                    | [lhs; rhs] =>
                        let read_symbols :=
                          if bool_decide (","%char ∈ lhs)
                          then split_on "," lhs else [lhs] in
                        match
                          (if bool_decide (","%char ∈ rhs)
                           then match split_on "," rhs with
                                | [write_symbol; direction] =>
                                    inr (replicate (length read_symbols)
                                           write_symbol, direction)
                                | _ => inl ValueError
                                end
                           else inr (read_symbols, rhs))
                        with
                        | inl e => inl e
                        | inr (write_symbols, direction) =>
                            if negb (bool_decide
                                       (direction = list_ascii_of_string "l"
                                        ∨ direction = list_ascii_of_string "r"))
                            then inl AssertionError
                            else
                              read_machine_lines lines' start_state
                                (foldl
                                   (λ acc '(read_symbol, write_symbol),
                                      set_add
                                        (name source_state, name read_symbol,
                                         name write_symbol, name direction,
                                         name destination) acc)
                                   transitions
                                   (zip read_symbols write_symbols))
                        end
                    | _ => inl ValueError
                    end
              | _ => inl ValueError
              end
        | _, _, _ => inl ValueError
        end
  end.

(** [read_machine], from the lines of the file on. *)
Definition read_machine (file_lines : list str)
    : exn + (string * list transition) :=
  match read_machine_lines (clean_lines file_lines) None [] with
  | inl e => inl e
  | inr (None, _) => inl AssertionError
  | inr (Some start_state, transitions) => inr (name start_state, transitions)
  end.

(** The states and the symbols that [from_transitions] collects. *)
Definition endpoints (ts : list transition) : gset string :=
  foldr (λ '(s, _, _, _, d) acc, {[ s ]} ∪ ({[ d ]} ∪ acc)) ∅ ts.
Definition symbols (ts : list transition) : gset string :=
  foldr (λ '(_, r, w, _, _) acc, {[ r ]} ∪ ({[ w ]} ∪ acc)) ∅ ts.

Definition t_write (t : transition) : string := t.1.1.2.
Definition t_direction (t : transition) : string := t.1.2.
Definition t_dest (t : transition) : string := t.2.

(** [perform_tests], and the text of its lines. *)
Definition perform_tests (fuel : nat) (M : TM)
    (some_strings_in_language some_strings_not_in_language : list string)
    : list (verdict string) * outcome unit :=
  run_tests (accepts fuel M)
    some_strings_in_language some_strings_not_in_language.

Definition report_text (r : verdict string) : string :=
  match r with
  | Wrongly_rejected string =>
      "Error: '" +:+ string +:+ "' is in the language but rejected."
  | Wrongly_accepted string =>
      "Error: '" +:+ string +:+ "' is not in the language but accepted."
  | All_passed => "All tests passed successfully."
  end.

(** *** The runs of a machine, as the specification defines them *)

(** The symbol under the head: the cell there, or the blank beyond the
    populated tape. *)
Definition under_head (c : config) : string :=
  default "." (c_tape c !! Z.to_nat (c_head c)).

(** The tape after [symbol] is written under the head: the cell there
    is replaced, or a new cell is appended when the head is just after
    the populated tape. *)
Definition written (c : config) (symbol : string) : list string :=
  if bool_decide (Z.to_nat (c_head c) < length (c_tape c))
  then <[Z.to_nat (c_head c) := symbol]> (c_tape c)
  else c_tape c ++ [symbol].

(** One move: outside the state "accept", a transition for the current
    state and the symbol under the head writes its symbol, moves the
    head right, or left but not below 0, and enters its destination. *)
Inductive move (M : TM) : config → config → Prop :=
  | move_transition c t :
      c_state c ≠ "accept" →
      t ∈ transitions M →
      t_src t = c_state c →
      t_read t = under_head c →
      move M c (mkConfig (written c (t_write t)) (t_dest t)
                  (if bool_decide (t_direction t = "r")
                   then (c_head c + 1)%Z
                   else Z.max 0 (c_head c - 1))).

Inductive moves (M : TM) (c : config) : config → Prop :=
  | moves_refl : moves M c c
  | moves_step c' c'' : moves M c c' → move M c' c'' → moves M c c''.

(** The machine has stopped in [c] without accepting. *)
Definition rejecting (M : TM) (c : config) : Prop :=
  c_state c ≠ "accept" ∧ ∀ c', ¬ move M c c'.

(** What the loop of the constructor asks of one transition, apart from
    determinism. *)
Definition tm_transition_ok (states alphabet : gset string) (t : transition)
    : Prop :=
  t_src t ∈ states ∧ t_dest t ∈ states
  ∧ t_read t ∈ alphabet ∧ t_write t ∈ alphabet
  ∧ (t_direction t = "l" ∨ t_direction t = "r").

(** A configuration of a simulation: the head is on the populated tape
    or just after it. *)
Definition tm_config_ok (c : config) : Prop :=
  (0 ≤ c_head c ≤ Z.of_nat (length (c_tape c)))%Z.


End Tm.

(* ================================================================== *)
(** * npda.py *)
(* ================================================================== *)

Module Npda.

(** A transition is the 5-tuple
    (source, input_symbol, stack_pop, stack_push, destination).  The
    three symbols are single characters, as [read_automaton] takes them
    from a label ([label[0]], [label[2]], [label[4]]) and as [_simulate]
    compares them with one character of the input or of the stack. *)
Definition transition : Type := str * ascii * ascii * ascii * str.

Record NPDA : Type := mkNPDA {
  states : gset str;
  input_alphabet : gset ascii;
  stack_alphabet : gset ascii;
  transitions : list transition;
  start_state : str;
  accept_states : gset str
}.

(** [NPDA.__init__]. *)
Definition init (states : gset str) (input_alphabet stack_alphabet : gset ascii)
    (transitions : list transition) (start_state : str)
    (accept_states : gset str) : exn + NPDA :=
  if negb (bool_decide (start_state ∈ states)) then inl AssertionError
  else if negb (bool_decide (size (accept_states ∖ states) = 0))
  then inl AssertionError
  else inr (mkNPDA states input_alphabet stack_alphabet transitions
              start_state accept_states).

(** A configuration: the arguments of [_simulate].  The top of the stack
    is the last character of [cf_stack]. *)
Record config : Type := mkConfig {
  cf_state : str;
  cf_input : str;
  cf_stack : str
}.

(** The body of the loop of [_simulate] for one transition: [None] when
    the transition is skipped by a [continue], otherwise the
    configuration passed to the recursive call. *)
Definition fire (t : transition) (c : config) : option config :=
  let '(source, input_symbol, stack_pop, stack_push, destination) := t in
  if negb (bool_decide (source = cf_state c)) then None
  else if negb (bool_decide (input_symbol = epsilon))
          && match cf_input c with
             | [] => true
             | a :: _ => negb (bool_decide (a = input_symbol))
             end
  then None
  else if negb (bool_decide (stack_pop = epsilon))
          && match last (cf_stack c) with
             | None => true
             | Some a => negb (bool_decide (a = stack_pop))
             end
  then None
  else
    let new_stack :=
      if negb (bool_decide (stack_pop = epsilon))
      then drop_last (cf_stack c) else cf_stack c in
    let new_stack :=
      if negb (bool_decide (stack_push = epsilon))
      then new_stack ++ [stack_push] else new_stack in
    let new_input :=
      if negb (bool_decide (input_symbol = epsilon))
      then drop 1 (cf_input c) else cf_input c in
    Some (mkConfig destination new_input new_stack).

(** The [for] loop of [_simulate], given the recursive call. *)
Fixpoint explore (rec : config → outcome bool) (ts : list transition)
    (c : config) : outcome bool :=
  match ts with
  | [] => Ret false
  | t :: ts' =>
      match fire t c with
      | None => explore rec ts' c
      | Some c' =>
          match rec c' with
          | Ret true => Ret true
          | Ret false => explore rec ts' c
          | Raise e => Raise e
          | Out_of_fuel => Out_of_fuel
          end
      end
  end.

(** [_simulate]. *)
Fixpoint simulate (fuel : nat) (M : NPDA) (c : config) : outcome bool :=
  match fuel with
  | O => Out_of_fuel
  | S fuel' =>
      if bool_decide (cf_state c ∈ accept_states M)
         && bool_decide (cf_input c = [])
      then Ret true
      else explore (simulate fuel' M) (transitions M) c
  end.

(** [accepts]. *)
Definition accepts (fuel : nat) (M : NPDA) (s : str) : outcome bool :=
  simulate fuel M (mkConfig (start_state M) s []).

(** *** The acceptance relation of the specification *)

(** What a symbol-or-epsilon stands for: nothing, or one symbol. *)
Definition symbol (a : ascii) : str := if decide (a = epsilon) then [] else [a].
Arguments symbol : simpl never.

(** One move: a transition of the automaton leaves the current state,
    consumes [symbol input_symbol] from the front of the input, pops
    [symbol stack_pop] from the top of the stack and pushes
    [symbol stack_push]. *)
Inductive move (M : NPDA) : config → config → Prop :=
  | move_transition source input_symbol stack_pop stack_push destination
      rest base :
      (source, input_symbol, stack_pop, stack_push, destination)
        ∈ transitions M →
      move M (mkConfig source (symbol input_symbol ++ rest)
                (base ++ symbol stack_pop))
             (mkConfig destination rest (base ++ symbol stack_push)).

Inductive moves (M : NPDA) : config → config → Prop :=
  | moves_refl c : moves M c c
  | moves_step c c' c'' : move M c c' → moves M c' c'' → moves M c c''.

(** Acceptance by final state: an accept state with no input left. *)
Definition accepting (M : NPDA) (c : config) : Prop :=
  cf_state c ∈ accept_states M ∧ cf_input c = [].

Definition language (M : NPDA) (s : str) : Prop :=
  ∃ c, moves M (mkConfig (start_state M) s []) c ∧ accepting M c.

(** The quantity of the step bound: remaining input plus stack. *)
Definition weight (c : config) : Z :=
  Z.of_nat (length (cf_input c)) + Z.of_nat (length (cf_stack c)).

(** *** Description files *)

(** The loop of [read_automaton] over [lines[:-1]]. *)
Fixpoint read_transitions (lines : list str) (start_state : option str)
    (transitions : list transition)
    : exn + (option str * list transition) :=
  match lines with
  | [] => inr (start_state, transitions)
  | line :: lines' =>
      if negb (bool_decide (count_char ":" line = 2)) then inl AssertionError
      else if negb (bool_decide (count_char ">" line = 1))
      then inl AssertionError
      else
        match index_of ":"%char line, index_of ">"%char line,
              rindex_of ":" line with
        | Some i, Some j, Some k =>
            if negb (bool_decide (i < j ∧ j < k)) then inl AssertionError
            else
              match split_on ":" line with
              | [source_state; label; destination_state] =>
                  let start_state :=
                    match start_state with
                    | None => Some source_state
                    | Some _ => start_state
                    end in
                  match label with
                  | [input_symbol; comma; stack_pop; arrow; stack_push] =>
                      if negb (bool_decide (comma = ","%char))
                      then inl AssertionError
                      else if negb (bool_decide (arrow = ">"%char))
                      then inl AssertionError
                      else read_transitions lines' start_state
                             (set_add (source_state, input_symbol, stack_pop,
                                       stack_push, destination_state)
                                transitions)
                  | _ => inl AssertionError
                  end
              | _ => inl ValueError
              end
        | _, _, _ => inl ValueError
        end
  end.

(** [read_automaton], from the lines of the file on. *)
Definition read_automaton (file_lines : list str)
    : exn + (option str * list transition * list str) :=
  let lines := clean_lines file_lines in
  if negb (bool_decide (1 ≤ length lines)%nat) then inl AssertionError
  else
    match read_transitions (drop_last lines) None [] with
    | inl e => inl e
    | inr (start_state, transitions) =>
        let accept_states :=
          foldl (λ acc s, set_add s acc) []
            (split_on "," (default [] (last lines))) in
        inr (start_state, transitions, accept_states)
    end.

(** [from_transitions_and_accept_states]: the states and the two
    alphabets are read off the transitions. *)
Definition from_transitions_and_accept_states (start_state : str)
    (transitions : list transition) (accept_states : gset str)
    : exn + NPDA :=
  let states : gset str :=
    foldr (λ '(source, _, _, _, destination) acc,
             {[ source ]} ∪ ({[ destination ]} ∪ acc)) ∅ transitions in
  let input_alphabet : gset ascii :=
    foldr (λ '(_, input_symbol, _, _, _) acc,
             if bool_decide (input_symbol ≠ epsilon)
             then {[ input_symbol ]} ∪ acc else acc) ∅ transitions in
  let stack_alphabet : gset ascii :=
    foldr (λ '(_, _, stack_pop, stack_push, _) acc,
             let acc := if bool_decide (stack_push ≠ epsilon)
                        then {[ stack_push ]} ∪ acc else acc in
             if bool_decide (stack_pop ≠ epsilon)
             then {[ stack_pop ]} ∪ acc else acc) ∅ transitions in
  init states input_alphabet stack_alphabet transitions start_state
    accept_states.

(** [perform_tests], and the text of its lines. *)
Definition perform_tests (fuel : nat) (M : NPDA)
    (some_strings_in_language some_strings_not_in_language : list str)
    : list (verdict str) * outcome unit :=
  run_tests (accepts fuel M)
    some_strings_in_language some_strings_not_in_language.

Definition report_text (r : verdict str) : string :=
  match r with
  | Wrongly_rejected string =>
      "It looks like the NPDA is incorrect: '"
        +:+ string_of_list_ascii string
        +:+ "' is said to be in the language but the NPDA rejects it. But are you sure the string is in the language?"
  | Wrongly_accepted string =>
      "It looks like the NPDA is incorrect: '"
        +:+ string_of_list_ascii string
        +:+ "' is said to be *not* in the language but the NPDA accepts it. Are you sure it is in the language?"
  | All_passed => "The NPDA has passed all the tests."
  end.

(** The states that occur in a list of transitions. *)
Definition npda_endpoints (ts : list transition) : gset str :=
  foldr (λ '(source, _, _, _, destination) acc,
           {[ source ]} ∪ ({[ destination ]} ∪ acc)) ∅ ts.

End Npda.

(* ================================================================== *)
(** * cfg.py *)
(* ================================================================== *)

Module Cfg.

(** The character classes of the code: ["A" <= s <= "Z"] and the like
    on one-character strings compare code points. *)
Definition is_upper (s : ascii) : bool :=
  Ascii.leb "A" s && Ascii.leb s "Z".
Definition is_lower (s : ascii) : bool :=
  Ascii.leb "a" s && Ascii.leb s "z".
Definition is_digit (s : ascii) : bool :=
  Ascii.leb "0" s && Ascii.leb s "9".

(** The test of [_count_terminals]: a digit, or a lowercase letter
    other than "e". *)
Definition is_terminal (s : ascii) : bool :=
  is_digit s || (is_lower s && negb (bool_decide (s = epsilon))).

(** A rule is the pair (lhs, rhs); the left-hand side is a single
    character ([line[0]] in [read_grammar]). *)
Definition rule : Type := ascii * str.

Record CFG : Type := mkCFG {
  variables : gset ascii;
  terminals : gset ascii;
  rules : list rule;
  start_variable : ascii
}.

(** [_count_terminals]. *)
Fixpoint count_terminals (string : str) : nat :=
  match string with
  | [] => 0
  | s :: string' =>
      (if is_terminal s then 1 else 0) + count_terminals string'
  end.

(** [_count_variables]. *)
Fixpoint count_variables (string : str) : nat :=
  match string with
  | [] => 0
  | s :: string' => (if is_upper s then 1 else 0) + count_variables string'
  end.

(** [_find_leftmost_variable]; [None] is the final [assert False]. *)
Fixpoint find_leftmost_variable (string : str) : option ascii :=
  match string with
  | [] => None
  | s :: string' => if is_upper s then Some s else find_leftmost_variable string'
  end.

(** [string.replace(old, new, 1)] for a one-character [old]. *)
Fixpoint replace_first (old : ascii) (new : str) (string : str) : str :=
  match string with
  | [] => []
  | s :: string' =>
      if decide (s = old) then new ++ string'
      else s :: replace_first old new string'
  end.

(** [_apply_rule]. *)
Definition apply_rule (current_string : str) (r : rule) : exn + str :=
  let '(lhs, rhs) := r in
  if negb (bool_decide (lhs ∈ current_string)) then inl AssertionError
  else inr (replace_first lhs rhs current_string).

(** [string.replace("e", "")]. *)
Definition remove_epsilons (string : str) : str :=
  filter (λ s, s ≠ epsilon) string.

(** The checks of [CFG.__init__] on the symbols of a right-hand side. *)
Definition rhs_ok (variables terminals : gset ascii) (rhs : str) : bool :=
  forallb (λ symbol,
    bool_decide (symbol ∈ ({[ epsilon ]} : gset ascii) ∪ (variables ∪ terminals)))
    rhs.

(** [CFG.__init__]. *)
Definition init (variables terminals : gset ascii) (rules : list rule)
    (start_variable : ascii) : exn + CFG :=
  if negb (bool_decide (start_variable ∈ variables)) then inl AssertionError
  else if negb (bool_decide (size (variables ∩ terminals) = 0))
  then inl AssertionError
  else if bool_decide (epsilon ∈ terminals) then inl AssertionError
  else if negb (forallb is_upper (elements variables)) then inl AssertionError
  else if negb (forallb (λ s, is_lower s || is_digit s) (elements terminals))
  then inl AssertionError
  else if negb (forallb (λ '(lhs, rhs),
                   bool_decide (lhs ∈ variables)
                   && rhs_ok variables terminals rhs) rules)
  then inl AssertionError
  else if negb (forallb (λ variable,
                   existsb (λ '(lhs, _), bool_decide (variable = lhs)) rules)
                  (elements variables))
  then inl AssertionError
  else inr (mkCFG variables terminals rules start_variable).

(** The inner loop of [from_rules] over the symbols of one rhs. *)
Fixpoint collect_terminals (rhs : str) (terminals : gset ascii)
    : exn + gset ascii :=
  match rhs with
  | [] => inr terminals
  | symbol :: rhs' =>
      if bool_decide (symbol = epsilon) || is_upper symbol
      then collect_terminals rhs' terminals
      else if is_lower symbol || is_digit symbol
      then collect_terminals rhs' ({[ symbol ]} ∪ terminals)
      else inl AssertionError
  end.

(** The outer loop of [from_rules]. *)
Fixpoint collect_symbols (rs : list rule) (variables terminals : gset ascii)
    : exn + (gset ascii * gset ascii) :=
  match rs with
  | [] => inr (variables, terminals)
  | (lhs, rhs) :: rs' =>
      match collect_terminals rhs terminals with
      | inl e => inl e
      | inr terminals' =>
          collect_symbols rs' ({[ lhs ]} ∪ variables) terminals'
      end
  end.

(** [from_rules]. *)
Definition from_rules (start_variable : ascii) (rules : list rule)
    : exn + CFG :=
  match collect_symbols rules ∅ ∅ with
  | inl e => inl e
  | inr (variables, terminals) => init variables terminals rules start_variable
  end.

(** [_find_rules].  The cache only saves recomputation.  The set it
    returns is iterated in an order of its own; since the rules of a
    grammar can be listed variable by variable in any such orders, a
    statement for all lists of rules covers them. *)
Definition find_rules (G : CFG) (variable : ascii) : exn + list rule :=
  if negb (bool_decide (variable ∈ variables G)) then inl AssertionError
  else inr (filter (λ r : rule, r.1 = variable) (rules G)).

(** The state the search threads through every call: the set [pool],
    one object shared by the whole recursion. *)
Abbreviation pool_t := (gset str).

(** The [for] loop of [leftmost_derive] over the appropriate rules,
    given the recursive call on a new current string and the pool. *)
Fixpoint try_rules (rec : str → pool_t → outcome (list str * pool_t))
    (current_string : str) (appropriate_rules : list rule) (pool : pool_t)
    : outcome (list str * pool_t) :=
  match appropriate_rules with
  | [] => Ret ([], pool)
  | appropriate_rule :: rest =>
      match apply_rule current_string appropriate_rule with
      | inl e => Raise e
      | inr next_string =>
          match rec next_string pool with
          | Ret ([], pool') => try_rules rec current_string rest pool'
          | Ret (derivation, pool') => Ret (derivation, pool')
          | Raise e => Raise e
          | Out_of_fuel => Out_of_fuel
          end
      end
  end.

(** [leftmost_derive].  The result carries the returned list and the
    pool as the call leaves it. *)
Fixpoint leftmost_derive (fuel : nat) (G : CFG) (current_string string : str)
    (max_variable_count_in_intermediate_strings : Z) (pool : pool_t)
    (current_derivation : list str) : outcome (list str * pool_t) :=
  match fuel with
  | O => Out_of_fuel
  | S fuel' =>
      if bool_decide (current_string ∈ pool) then Ret ([], pool)
      else
        let pool := {[ current_string ]} ∪ pool in
        if (max_variable_count_in_intermediate_strings
              <? Z.of_nat (count_variables current_string))%Z
        then Ret ([], pool)
        else
          let current_string := remove_epsilons current_string in
          let string := remove_epsilons string in
          if negb (bool_decide (length string = count_terminals string))
          then Raise AssertionError
          else
            let terminal_count := count_terminals current_string in
            if bool_decide (length string < terminal_count)%nat
            then Ret ([], pool)
            else if bool_decide (terminal_count = length current_string)
            then
              if bool_decide (current_string = string)
              then Ret (current_derivation ++ [current_string], pool)
              else Ret ([], pool)
            else
              match find_leftmost_variable current_string with
              | None => Raise AssertionError
              | Some leftmost_variable =>
                  match find_rules G leftmost_variable with
                  | inl e => Raise e
                  | inr appropriate_rules =>
                      try_rules
                        (λ next_string pool,
                           leftmost_derive fuel' G next_string string
                             max_variable_count_in_intermediate_strings pool
                             (current_derivation ++ [current_string]))
                        current_string appropriate_rules pool
                  end
              end
  end.

(** [derive]: four assertions, then the search with a fresh pool and an
    empty derivation. *)
Definition derive (fuel : nat) (G : CFG) (current_string string : str)
    (max_variable_count_in_intermediate_strings : Z) : outcome (list str) :=
  if negb (forallb (λ s, is_upper s || is_lower s || is_digit s) string)
  then Raise AssertionError
  else if negb (forallb (λ s, negb (bool_decide (s = epsilon))) current_string)
  then Raise AssertionError
  else if negb (forallb (λ s, is_lower s || is_digit s) string)
  then Raise AssertionError
  else if negb (forallb (λ s, negb (bool_decide (s = epsilon))) string)
  then Raise AssertionError
  else
    match leftmost_derive fuel G current_string string
            max_variable_count_in_intermediate_strings ∅ [] with
    | Ret (derivation, _) => Ret derivation
    | Raise e => Raise e
    | Out_of_fuel => Out_of_fuel
    end.

(** [generate]. *)
Definition generate (fuel : nat) (G : CFG) (string : str)
    (max_variable_count_in_intermediate_strings : Z) : outcome (list str) :=
  if negb (forallb (λ s, is_lower s || is_digit s) string)
  then Raise AssertionError
  else if negb (forallb (λ s, negb (bool_decide (s = epsilon))) string)
  then Raise AssertionError
  else derive fuel G [start_variable G] string
         max_variable_count_in_intermediate_strings.

(** *** Derivation compression *)

(** The body of the loop of [pretty_print_derivation] for one [string]:
    when it occurs more than once, the list is cut from its first
    occurrence up to (not including) its last one.  [index] cannot raise
    here, since the string occurs. *)
Definition collapse (string : str) (potentially_shorter_derivation : list str)
    : list str :=
  if bool_decide (1 < count_occ_of string potentially_shorter_derivation)%nat
  then
    match index_of string potentially_shorter_derivation,
          index_of string (reverse potentially_shorter_derivation) with
    | Some first_idx, Some from_end =>
        let last_idx :=
          (length potentially_shorter_derivation - from_end - 1)%nat in
        take first_idx potentially_shorter_derivation
          ++ drop last_idx potentially_shorter_derivation
    | _, _ => potentially_shorter_derivation
    end
  else potentially_shorter_derivation.

(** The minimization pass: [for string in reversed(derivation)]. *)
Definition minimize (derivation : list str) : list str :=
  foldl (λ shorter string, collapse string shorter) derivation
    (reverse derivation).

(** [" -> ".join(derivation)]. *)
Fixpoint join_arrows (derivation : list str) : str :=
  match derivation with
  | [] => []
  | [x] => x
  | x :: rest => x ++ list_ascii_of_string " -> " ++ join_arrows rest
  end.

(** [pretty_print_derivation]: the line it prints. *)
Definition pretty_print_derivation (derivation : list str) (minimize_it : bool)
    : str :=
  match derivation with
  | [] => list_ascii_of_string "There is no derivation."
  | _ => join_arrows (if minimize_it then minimize derivation else derivation)
  end.

(** *** Description files *)

(** The loop of [read_grammar] over the cleaned lines. *)
Fixpoint read_rules (lines : list str) (start_variable : option ascii)
    (rules : list rule) : exn + (option ascii * list rule) :=
  match lines with
  | [] => inr (start_variable, rules)
  | line :: lines' =>
      if negb (bool_decide (count_char ">" line = 1)) then inl AssertionError
      else if negb (bool_decide (index_of ">"%char line = Some 1%nat))
      then inl AssertionError
      else
        match line with
        | [] => inl IndexError
        | lhs :: _ =>
            if negb (is_upper lhs) then inl AssertionError
            else
              let start_variable :=
                match start_variable with
                | None => Some lhs
                | Some _ => start_variable
                end in
              let rhs := drop 2 line in
              let alternatives := split_on "|" rhs in
              if negb (forallb (λ s, bool_decide (s = "|"%char) || is_upper s
                                     || is_lower s || is_digit s) rhs)
              then inl AssertionError
              else read_rules lines' start_variable
                     (foldl (λ acc alternative, set_add (lhs, alternative) acc)
                        rules alternatives)
        end
  end.

(** [read_grammar], from the lines of the file on. *)
Definition read_grammar (file_lines : list str)
    : exn + (option ascii * list rule) :=
  read_rules (clean_lines file_lines) None [].

(** *** Leftmost derivations, as the specification defines them *)

(** Epsilon denotes nothing: a right-hand side stands for its symbols
    other than epsilon. *)
Definition denotation (rhs : str) : str := remove_epsilons rhs.

(** One leftmost step: the leftmost variable occurrence of [x], and it
    only, is rewritten by the right-hand side of a rule for that
    variable. *)
Inductive leftmost_step (G : CFG) : str → str → Prop :=
  | leftmost_step_rule prefix variable suffix rhs :
      count_variables prefix = 0%nat →
      is_upper variable = true →
      (variable, rhs) ∈ rules G →
      leftmost_step G (prefix ++ variable :: suffix)
        (prefix ++ denotation rhs ++ suffix).

(** Every consecutive pair of a sequence is related. *)
Fixpoint chain {A} (R : A → A → Prop) (l : list A) : Prop :=
  match l with
  | x :: (y :: _) as l' => R x y ∧ chain R l'
  | _ => True
  end.

(** [d] is a leftmost derivation of [target] from [origin] in which no
    string has more than [bound] variable occurrences. *)
Definition bounded_leftmost_derivation (G : CFG) (bound : Z)
    (origin target : str) (d : list str) : Prop :=
  head d = Some origin ∧ last d = Some target ∧ chain (leftmost_step G) d
  ∧ Forall (λ x, (Z.of_nat (count_variables x) ≤ bound)%Z) d.

(** A target the query operations admit: lowercase letters and digits,
    no epsilon. *)
Definition target_ok (string : str) : Prop :=
  Forall (λ s, is_terminal s = true) string.

(** A current string a search can start from: variables of the grammar
    and terminals. *)
Definition sentential (G : CFG) (x : str) : Prop :=
  Forall (λ s, s ∈ variables G ∨ is_terminal s = true) x.

(** *** The search seen as a graph traversal *)

(** What [CFG.__init__] has checked of a grammar it returned. *)
Record well_formed (G : CFG) : Prop := {
  wf_start : start_variable G ∈ variables G;
  wf_variables : ∀ s, s ∈ variables G → is_upper s = true;
  wf_lhs : ∀ lhs rhs, (lhs, rhs) ∈ rules G → lhs ∈ variables G;
  wf_rhs : ∀ lhs rhs s, (lhs, rhs) ∈ rules G → s ∈ rhs →
           s = epsilon ∨ s ∈ variables G ∨ is_terminal s = true
}.

(** The strings the recursion passes around: symbols of the grammar,
    terminals and epsilons. *)
Definition raw (G : CFG) (x : str) : Prop :=
  Forall (λ s, s ∈ variables G ∨ is_terminal s = true ∨ s = epsilon) x.

(** A current string that passes the two prunes on counts. *)
Definition admitted (target : str) (bound : Z) (x : str) : Prop :=
  (Z.of_nat (count_variables x) ≤ bound)%Z
  ∧ count_terminals (remove_epsilons x) ≤ length (remove_epsilons target).

(** A current string on which the search succeeds at once. *)
Definition final (target : str) (bound : Z) (x : str) : Prop :=
  admitted target bound x
  ∧ count_terminals (remove_epsilons x) = length (remove_epsilons x)
  ∧ remove_epsilons x = remove_epsilons target.

(** [y] is one of the strings the loop of the search passes to the
    recursive call when the current string is [x]. *)
Definition expands (G : CFG) (target : str) (bound : Z) (x y : str) : Prop :=
  admitted target bound x
  ∧ count_terminals (remove_epsilons x) ≠ length (remove_epsilons x)
  ∧ ∃ variable appropriate_rules r,
      find_leftmost_variable (remove_epsilons x) = Some variable
      ∧ find_rules G variable = inr appropriate_rules
      ∧ r ∈ appropriate_rules
      ∧ apply_rule (remove_epsilons x) r = inr y.

(** The strings recorded along a successful branch that starts at the
    current string [x]. *)
Inductive trail (G : CFG) (target : str) (bound : Z) : str → list str → Prop :=
  | trail_final x :
      final target bound x → trail G target bound x [remove_epsilons x]
  | trail_expand x y path :
      expands G target bound x y → trail G target bound y path →
      trail G target bound x (remove_epsilons x :: path).

(** A visited string is closed in a pool when the search did not succeed
    on it and every string it expands to is in the pool. *)
Definition closed (G : CFG) (target : str) (bound : Z) (pool : pool_t)
    (x : str) : Prop :=
  ¬ final target bound x ∧ ∀ y, expands G target bound x y → y ∈ pool.

(** What a call that returned promises: the pool only grows; a
    non-empty result extends the derivation so far by a trail; after an
    empty result the current string is in the pool and every string the
    call added is closed. *)
Definition search_post (G : CFG) (target : str) (bound : Z)
    (x : str) (pool : pool_t) (current_derivation : list str)
    (result : list str * pool_t) : Prop :=
  pool ⊆ result.2
  ∧ match result.1 with
    | [] => x ∈ result.2
            ∧ ∀ y, y ∈ result.2 → y ∉ pool → closed G target bound result.2 y
    | _ => ∃ path, result.1 = current_derivation ++ path
                   ∧ trail G target bound x path
    end.

(** Every character, and every string up to a given length: the finite
    universe in which the pool lives. *)
Definition all_ascii : list ascii := ascii_of_nat <$> seq 0 256.

Fixpoint words (n : nat) : list str :=
  match n with
  | O => [[]]
  | S n' => [] :: (w ← words n'; (λ a, a :: w) <$> all_ascii)
  end.

Definition universe (n : nat) : pool_t := list_to_set (words n).

(** The longest right-hand side of a list of rules. *)
Definition longest_rhs (rs : list rule) : nat :=
  foldr (λ r acc, Nat.max (length r.2) acc) 0 rs.

(** A length no string of a search from [origin] exceeds. *)
Definition length_bound (G : CFG) (target : str) (bound : Z) (origin : str)
    : nat :=
  Nat.max (length origin)
    (Z.to_nat bound + length (remove_epsilons target) + longest_rhs (rules G)).

(** *** The self-test *)

(** The lines [perform_tests] can print. *)
Inductive report : Type :=
  | Cannot_generate (string : str)
  | Can_generate (string : str)
  | Passed.

Definition report_text (r : report) : string :=
  match r with
  | Cannot_generate string =>
      "It looks like the grammar is incorrect: '"
        +:+ string_of_list_ascii string
        +:+ "' is said to be in the language but the grammar *cannot* generate it. You can try this grammar again with a larger max_variable_count_in_intermediate_strings. But are you sure the string is in the language?"
  | Can_generate string =>
      "It looks like the grammar is incorrect: '"
        +:+ string_of_list_ascii string
        +:+ "' is said to be *not* in the language but the grammar can generate it. Are you sure it is in the language?"
  | Passed => "The grammar has passed all the tests."
  end.

(** The first loop of [perform_tests]: what it prints, and how it ends,
    with the value of [error_found] when it returns. *)
Fixpoint test_in_language (fuel : nat) (G : CFG) (bound : Z)
    (strings : list str) (error_found : bool) : list report * outcome bool :=
  match strings with
  | [] => ([], Ret error_found)
  | string :: rest =>
      match generate fuel G string bound with
      | Ret [] =>
          let '(printed, result) := test_in_language fuel G bound rest true in
          (Cannot_generate string :: printed, result)
      | Ret _ => test_in_language fuel G bound rest error_found
      | Raise e => ([], Raise e)
      | Out_of_fuel => ([], Out_of_fuel)
      end
  end.

(** The second loop. *)
Fixpoint test_not_in_language (fuel : nat) (G : CFG) (bound : Z)
    (strings : list str) (error_found : bool) : list report * outcome bool :=
  match strings with
  | [] => ([], Ret error_found)
  | string :: rest =>
      match generate fuel G string bound with
      | Ret [] => test_not_in_language fuel G bound rest error_found
      | Ret _ =>
          let '(printed, result) :=
            test_not_in_language fuel G bound rest true in
          (Can_generate string :: printed, result)
      | Raise e => ([], Raise e)
      | Out_of_fuel => ([], Out_of_fuel)
      end
  end.

(** [perform_tests]: the lines printed, and how the call ends. *)
Definition perform_tests (fuel : nat) (G : CFG)
    (some_strings_in_language some_strings_not_in_language : list str)
    (bound : Z) : list report * outcome unit :=
  if negb (bool_decide
             (size ((list_to_set some_strings_in_language : gset str)
                    ∩ list_to_set some_strings_not_in_language) = 0))
  then ([], Raise AssertionError)
  else
    match test_in_language fuel G bound some_strings_in_language false with
    | (printed, Ret error_found) =>
        match test_not_in_language fuel G bound
                some_strings_not_in_language error_found with
        | (printed', Ret error_found) =>
            (printed ++ printed' ++ (if error_found then [] else [Passed]),
             Ret tt)
        | (printed', Raise e) => (printed ++ printed', Raise e)
        | (printed', Out_of_fuel) => (printed ++ printed', Out_of_fuel)
        end
    | (printed, Raise e) => (printed, Raise e)
    | (printed, Out_of_fuel) => (printed, Out_of_fuel)
    end.

(** The default of [max_variable_count_in_intermediate_strings]. *)
Definition default_max : Z := 64.

(** The grammars [CFG.__init__] accepts. *)
Definition grammar_ok (variables terminals : gset ascii) (rules : list rule)
    (start_variable : ascii) : Prop :=
  start_variable ∈ variables
  ∧ (∀ s, s ∈ variables → s ∉ terminals)
  ∧ (epsilon ∉ terminals)
  ∧ (∀ s, s ∈ variables → is_upper s = true)
  ∧ (∀ s, s ∈ terminals → is_lower s || is_digit s = true)
  ∧ (∀ lhs rhs, (lhs, rhs) ∈ rules →
       lhs ∈ variables
       ∧ ∀ s, s ∈ rhs → s = epsilon ∨ s ∈ variables ∨ s ∈ terminals)
  ∧ (∀ v, v ∈ variables → ∃ rhs, (v, rhs) ∈ rules).

(** The characters [from_rules] lets through. *)
Definition letter_or_digit (s : ascii) : bool :=
  is_upper s || is_lower s || is_digit s.

End Cfg.

(* ================================================================== *)
(** * Concrete instances *)
(* ================================================================== *)

(** A grammar with an epsilon loop: A -> eA | a. *)
Definition loop_grammar : Cfg.CFG :=
  Cfg.mkCFG {[ "A"%char ]} {[ "a"%char ]}
    [("A"%char, list_ascii_of_string "eA");
     ("A"%char, list_ascii_of_string "a")]
    "A"%char.

(** An automaton for the well-nested strings over 0 and 1. *)
Definition nested_automaton : Npda.NPDA :=
  Npda.mkNPDA
    {[ list_ascii_of_string "q0"; list_ascii_of_string "q1";
       list_ascii_of_string "q2" ]}
    {[ "0"%char; "1"%char ]} {[ "0"%char; "$"%char ]}
    [(list_ascii_of_string "q0", "e", "e", "$", list_ascii_of_string "q1");
     (list_ascii_of_string "q1", "0", "e", "0", list_ascii_of_string "q1");
     (list_ascii_of_string "q1", "1", "0", "e", list_ascii_of_string "q1");
     (list_ascii_of_string "q1", "e", "$", "e", list_ascii_of_string "q2")]%char
    (list_ascii_of_string "q0")
    {[ list_ascii_of_string "q2" ]}.

(** Two transitions of a Turing machine for the same state and symbol. *)
Definition clashing_transitions : list Tm.transition :=
  [("q", "0", "1", "r", "accept"); ("q", "0", "0", "l", "q")].

(** A machine that accepts the strings that begin with 1, after a move
    to the left at position 0. *)
Definition left_then_accept : Tm.TM :=
  Tm.mkTM {[ "q"; "p"; "accept" ]} {[ "."; "1" ]}
    [("q", "1", "1", "l", "p"); ("p", "1", ".", "r", "accept")] "q".

(** The transitions of [nested_automaton] in another order. *)
Definition nested_automaton_reordered : Npda.NPDA :=
  Npda.mkNPDA (Npda.states nested_automaton)
    (Npda.input_alphabet nested_automaton)
    (Npda.stack_alphabet nested_automaton)
    (reverse (Npda.transitions nested_automaton))
    (Npda.start_state nested_automaton)
    (Npda.accept_states nested_automaton).

(** An automaton without epsilon as input symbol: an even number of 1. *)
Definition parity_automaton : Npda.NPDA :=
  Npda.mkNPDA
    {[ list_ascii_of_string "q0"; list_ascii_of_string "q1" ]}
    {[ "1"%char ]} ∅
    [(list_ascii_of_string "q0", "1", "e", "e", list_ascii_of_string "q1");
     (list_ascii_of_string "q1", "1", "e", "e", list_ascii_of_string "q0")]%char
    (list_ascii_of_string "q0")
    {[ list_ascii_of_string "q0" ]}.

(** An automaton that pushes forever without reading. *)
Definition looping_automaton : Npda.NPDA :=
  Npda.mkNPDA
    {[ list_ascii_of_string "q0"; list_ascii_of_string "q1" ]}
    {[ "1"%char ]} {[ "x"%char ]}
    [(list_ascii_of_string "q0", "e", "e", "x", list_ascii_of_string "q0");
     (list_ascii_of_string "q0", "1", "e", "e", list_ascii_of_string "q1")]%char
    (list_ascii_of_string "q0")
    {[ list_ascii_of_string "q1" ]}.

(** Description files, as the lines read from them. *)
Definition machine_file : list str :=
  map list_ascii_of_string
    ["# starts with 1"; "q : 1 > l : p"; ""; "p: 1 > ., r : accept"].

Definition grammar_file : list str :=
  map list_ascii_of_string ["# well nested"; "S > 0S1 | e"].

Definition automaton_file : list str :=
  map list_ascii_of_string
    ["q0 : e,e>$ : q1"; "# push and pop"; "q1 : 0,e>0 : q1";
     "q1 : 1,0>e : q1"; "q1 : e,$>e : q2"; "q2"].

(* ================================================================== *)
(** * Proof automation *)
(* ================================================================== *)

(** Boolean comparisons on [Z] turned into propositions for [lia]. *)
Ltac zbool :=
  repeat match goal with
  | H : (_ <? _)%Z = true |- _ => apply Z.ltb_lt in H
  | H : (_ <? _)%Z = false |- _ => apply Z.ltb_ge in H
  | H : (_ <=? _)%Z = true |- _ => apply Z.leb_le in H
  | H : (_ <=? _)%Z = false |- _ => apply Z.leb_gt in H
  end.

(* ================================================================== *)
(** * Properties of tm.py *)
(* ================================================================== *)

Section TmProperties.
Import Tm.

(** The key the constructor records for a transition. *)
Let key (t : transition) : string * string := (t_src t, t_read t).

Lemma check_transitions_keys states alphabet seen ts seen' :
  check_transitions states alphabet seen ts = inr seen' →
  NoDup (key <$> ts) ∧ ∀ t, t ∈ ts → key t ∉ seen.
Proof.
  revert seen. induction ts as [|t ts IH]; intros seen Hck.
  - split; [constructor | intros t Ht; inversion Ht].
  - destruct t as [[[[source read_symbol] write_symbol] direction] destination].
    simpl in Hck.
    repeat (case_bool_decide; simpl in Hck; try discriminate).
    apply IH in Hck as [Hnd Hfresh].
    split.
    + rewrite fmap_cons. constructor; [|exact Hnd].
      intros Hin. apply list_elem_of_fmap in Hin as (t' & Hk & Ht').
      apply Hfresh in Ht'. apply Ht'. rewrite <- Hk.
      unfold key, t_src, t_read. simpl.
      apply elem_of_union_l, elem_of_singleton. reflexivity.
    + intros t' Ht'. apply elem_of_cons in Ht' as [->|Ht'].
      * unfold key, t_src, t_read. simpl. assumption.
      * apply Hfresh in Ht'. intros Hin. apply Ht'.
        apply elem_of_union_r. exact Hin.
Qed.

Lemma init_inr states alphabet ts start M :
  init states alphabet ts start = inr M →
  transitions M = ts ∧ NoDup (key <$> ts).
Proof.
  unfold init. intros H.
  destruct (negb (bool_decide ("." ∈ alphabet))); [discriminate|].
  destruct (check_transitions states alphabet ∅ ts) as [e|seen'] eqn:Hck;
    [discriminate|].
  apply check_transitions_keys in Hck as [Hnd _].
  destruct (negb (bool_decide (start ∈ states))); [discriminate|].
  destruct (negb (bool_decide ("accept" ∈ states))); [discriminate|].
  inversion H; subst. split; [reflexivity | exact Hnd].
Qed.

Lemma NoDup_fmap_inj {A B} (f : A → B) (l : list A) x y :
  NoDup (f <$> l) → x ∈ l → y ∈ l → f x = f y → x = y.
Proof.
  induction l as [|a l IH]; intros Hnd Hx Hy Hf; [inversion Hx|].
  rewrite fmap_cons in Hnd. apply NoDup_cons in Hnd as [Ha Hnd].
  apply elem_of_cons in Hx as [Hx|Hx]; apply elem_of_cons in Hy as [Hy|Hy];
    subst; try reflexivity.
  - exfalso. apply Ha. rewrite Hf. apply list_elem_of_fmap. eauto.
  - exfalso. apply Ha. rewrite <- Hf. apply list_elem_of_fmap. eauto.
  - auto.
Qed.

Lemma NoDup_fmap_filter_length {A B} `{EqDecision B} (f : A → B)
    (l : list A) (k : B) :
  NoDup (f <$> l) → length (filter (λ t, f t = k) l) ≤ 1.
Proof.
  induction l as [|a l IH]; intros Hnd; [simpl; lia|].
  rewrite fmap_cons in Hnd. apply NoDup_cons in Hnd as [Ha Hnd].
  rewrite filter_cons. destruct (decide (f a = k)) as [Hk|Hk]; [|auto].
  simpl. destruct (filter (λ t, f t = k) l) as [|t rest] eqn:E; [simpl; lia|].
  exfalso. assert (t ∈ filter (λ t, f t = k) l) as Ht by (rewrite E; left).
  apply list_elem_of_filter in Ht as [Hft Ht].
  apply Ha. apply list_elem_of_fmap. exists t. split; congruence.
Qed.

Lemma message_not_empty e : message e ≠ "".
Proof. destruct e; discriminate. Qed.

(** C4.  The constructor of a Turing machine fails, with one of its
    messages, whenever the transitions hold two distinct transitions with
    the same source state and read symbol; hence in every machine it
    builds, at most one transition is applicable to any pair of a state
    and a symbol under the head. *)
Theorem tm_constructor_enforces_determinism
    (states alphabet : gset string) (ts : list transition) (start : string) :
  ((∃ t1 t2, t1 ∈ ts ∧ t2 ∈ ts ∧ t1 ≠ t2
             ∧ t_src t1 = t_src t2 ∧ t_read t1 = t_read t2) →
   ∃ e, init states alphabet ts start = inl e ∧ message e ≠ "")
  ∧ (∀ M, init states alphabet ts start = inr M →
     ∀ state symbol,
       length (filter (applicable state symbol) (transitions M)) ≤ 1).
Proof.
  split.
  - intros (t1 & t2 & H1 & H2 & Hne & Hs & Hr).
    destruct (init states alphabet ts start) as [e|M] eqn:Hinit.
    + exists e. split; [reflexivity | apply message_not_empty].
    + exfalso. apply init_inr in Hinit as [_ Hnd]. apply Hne.
      apply (NoDup_fmap_inj key ts); auto. unfold key. congruence.
  - intros M Hinit state symbol.
    apply init_inr in Hinit as [-> Hnd].
    pose proof (NoDup_fmap_filter_length key ts (state, symbol) Hnd) as Hlen.
    erewrite list_filter_iff; [exact Hlen|].
    intros t. unfold applicable, key. simpl. split.
    + intros [-> ->]. reflexivity.
    + intros [= -> ->]. split; reflexivity.
Qed.

(** *** The head never leaves the tape on the left *)

Lemma read_tape_inr tape head :
  (0 ≤ head)%Z → ∃ sym, read_tape tape head = inr sym.
Proof.
  intros Hh. unfold read_tape.
  destruct (head <? 0)%Z eqn:E; [zbool; lia|].
  destruct (Z.of_nat (length tape) <=? head)%Z eqn:E'; [eauto|].
  destruct (tape !! Z.to_nat head) eqn:El; [eauto|].
  apply lookup_ge_None in El. zbool; lia.
Qed.

Lemma write_tape_inr tape head symbol :
  (0 ≤ head)%Z → ∃ tape', write_tape tape head symbol = inr tape'.
Proof.
  intros Hh. unfold write_tape.
  destruct (Z.of_nat (length tape) <=? head)%Z eqn:E.
  - destruct (0 <=? head)%Z eqn:E0; [|zbool; lia].
    rewrite length_app, length_replicate.
    destruct (head <? _)%Z eqn:E1; [eauto|]. exfalso; zbool; lia.
  - destruct (0 <=? head)%Z eqn:E0; [|zbool; lia].
    destruct (head <? _)%Z eqn:E1; [eauto|]. exfalso; zbool; lia.
Qed.

Lemma move_head_cases direction head :
  (direction = "r" ∧ move_head direction head = (head + 1)%Z)
  ∨ (direction ≠ "r" ∧ move_head direction head = Z.max 0 (head - 1)).
Proof.
  unfold move_head. case_bool_decide; [left; auto|right].
  split; [assumption|]. destruct (head - 1 <? 0)%Z eqn:E; zbool; lia.
Qed.

Lemma first_applicable_head ts c :
  (0 ≤ c_head c)%Z →
  match first_applicable ts c with
  | Continue c' =>
      ∃ t, t ∈ ts ∧ c_head c' = move_head t.1.2 (c_head c)
  | Failure _ => False
  | _ => True
  end.
Proof.
  intros Hh. induction ts as [|t ts IH]; [exact I|].
  assert (match first_applicable ts c with
          | Continue c' =>
              ∃ t', t' ∈ t :: ts ∧ c_head c' = move_head t'.1.2 (c_head c)
          | Failure _ => False
          | _ => True
          end) as IH'.
  { destruct (first_applicable ts c); try exact IH.
    destruct IH as (t' & Ht' & Heq). exists t'. split; [right|]; assumption. }
  destruct t as [[[[src read] write] direction] dest]. simpl.
  case_bool_decide; [|exact IH'].
  destruct (read_tape_inr (c_tape c) (c_head c) Hh) as [sym ->].
  case_bool_decide; [|exact IH'].
  destruct (write_tape_inr (c_tape c) (c_head c) write Hh) as [tape' ->].
  simpl. exists (src, read, write, direction, dest). split; [left|reflexivity].
Qed.

Lemma step_head M c :
  (0 ≤ c_head c)%Z →
  match step M c with
  | Continue c' =>
      ∃ t, t ∈ transitions M ∧ c_head c' = move_head t.1.2 (c_head c)
  | Failure _ => False
  | _ => True
  end.
Proof.
  intros Hh. unfold step. case_bool_decide; [exact I|].
  apply first_applicable_head, Hh.
Qed.

Lemma move_head_nonneg direction head :
  (0 ≤ head)%Z → (0 ≤ move_head direction head)%Z.
Proof. intros Hh. destruct (move_head_cases direction head) as [[_ ->]|[_ ->]]; lia. Qed.

Lemma simulate_never_raises fuel M c e :
  (0 ≤ c_head c)%Z → simulate fuel M c ≠ Raise e.
Proof.
  revert c. induction fuel as [|fuel IH]; intros c Hh; [discriminate|].
  simpl. pose proof (step_head M c Hh) as Hs.
  destruct (step M c) as [| |c'|e']; try discriminate; [|contradiction].
  apply IH. destruct Hs as (t & _ & ->). apply move_head_nonneg, Hh.
Qed.

(** C5.  In every simulation started by [accepts] the head index stays
    at least 0: a step moves it by the direction of a transition, to the
    right by one, or to the left by one and back to 0 when that is
    negative, so that a left move from position 0 leaves it at 0.
    Reading at or beyond the populated length gives the blank; writing
    at or beyond it first fills the tape with blanks up to that
    position; and the assertion of the tape-read operation never fails:
    the simulation raises nothing. *)
Theorem tm_head_stays_on_tape (M : TM) (s : string) :
  (∀ c, reaches M (mkConfig (cells s) (start_state M) 0) c →
        (0 ≤ c_head c)%Z
        ∧ ∀ c', step M c = Continue c' →
                ∃ t, t ∈ transitions M
                     ∧ c_head c' = move_head t.1.2 (c_head c))
  ∧ (∀ direction head,
       (direction = "r" ∧ move_head direction head = (head + 1)%Z)
       ∨ (direction ≠ "r" ∧ move_head direction head = Z.max 0 (head - 1)))
  ∧ move_head "l" 0 = 0%Z
  ∧ (∀ tape head,
       (Z.of_nat (length tape) ≤ head)%Z → read_tape tape head = inr ".")
  ∧ (∀ tape head symbol,
       (Z.of_nat (length tape) ≤ head)%Z →
       write_tape tape head symbol
       = inr (tape ++ replicate (Z.to_nat head - length tape) "." ++ [symbol]))
  ∧ (∀ fuel e, accepts fuel M s ≠ Raise e).
Proof.
  split; [|split; [|split; [|split; [|split]]]].
  - intros c Hr.
    assert (0 ≤ c_head c)%Z as Hh.
    { induction Hr as [|c' c'' Hr IH Hstep]; [simpl; lia|].
      pose proof (step_head M c' IH) as Hs. rewrite Hstep in Hs.
      destruct Hs as (t & _ & ->). apply move_head_nonneg, IH. }
    split; [exact Hh|].
    intros c' Hstep. pose proof (step_head M c Hh) as Hs.
    rewrite Hstep in Hs. exact Hs.
  - apply move_head_cases.
  - reflexivity.
  - intros tape head Hlen. unfold read_tape.
    destruct (head <? 0)%Z eqn:E; [zbool; lia|].
    destruct (Z.of_nat (length tape) <=? head)%Z eqn:E';
      [reflexivity|zbool; lia].
  - intros tape head symbol Hlen. unfold write_tape.
    destruct (Z.of_nat (length tape) <=? head)%Z eqn:E; [|zbool; lia].
    destruct (0 <=? head)%Z eqn:E0; [|zbool; lia].
    rewrite length_app, length_replicate.
    destruct (head <? _)%Z eqn:E1; [|zbool; lia].
    zbool. f_equal.
    replace (Z.to_nat (head - Z.of_nat (length tape) + 1))
      with (S (Z.to_nat head - length tape)) by lia.
    rewrite replicate_S_end, app_assoc.
    rewrite insert_app_r_alt by (rewrite length_app, length_replicate; lia).
    rewrite length_app, length_replicate.
    replace (Z.to_nat head - (length tape + (Z.to_nat head - length tape)))
      with 0 by lia.
    simpl. rewrite <- app_assoc. reflexivity.
  - intros fuel e. apply simulate_never_raises. simpl. lia.
Qed.

End TmProperties.

(* ================================================================== *)
(** * Properties of npda.py *)
(* ================================================================== *)

Section NpdaProperties.
Import Npda.

Lemma drop_last_snoc {A} (l : list A) (x : A) : drop_last (l ++ [x]) = l.
Proof.
  unfold drop_last. rewrite length_app. simpl.
  replace (length l + 1 - 1) with (length l) by lia.
  apply take_app_length.
Qed.

Lemma drop_last_length {A} (l : list A) :
  length (drop_last l) = length l - 1.
Proof. unfold drop_last. rewrite length_take. lia. Qed.

Lemma symbol_epsilon : symbol epsilon = [].
Proof. unfold symbol. destruct (decide (epsilon = epsilon)); congruence. Qed.

Lemma symbol_other a : a ≠ epsilon → symbol a = [a].
Proof. intros H. unfold symbol. destruct (decide (a = epsilon)); congruence. Qed.

(** The loop body computes exactly the moves of the specification. *)
Lemma fire_move M t c c' :
  t ∈ transitions M → fire t c = Some c' → move M c c'.
Proof.
  destruct t as [[[[source input_symbol] stack_pop] stack_push] destination].
  destruct c as [state input stack]. intros Ht Hf.
  unfold fire in Hf. simpl in Hf.
  destruct (decide (source = state)) as [->|Hsrc];
    [rewrite bool_decide_eq_true_2 in Hf by reflexivity
    |rewrite bool_decide_eq_false_2 in Hf by assumption; discriminate].
  simpl in Hf.
  assert (∃ rest, input = symbol input_symbol ++ rest
          ∧ (if negb (bool_decide (input_symbol = epsilon))
             then drop 1 input else input) = rest
          ∧ (negb (bool_decide (input_symbol = epsilon))
             && match input with
                | [] => true
                | a :: _ => negb (bool_decide (a = input_symbol))
                end) = false) as (rest & Hin & Hrest & Hgi).
  { destruct (decide (input_symbol = epsilon)) as [Hi|Hi].
    - exists input. rewrite Hi, symbol_epsilon.
      rewrite bool_decide_eq_true_2 by reflexivity. auto.
    - rewrite bool_decide_eq_false_2 in Hf |- * by assumption. simpl in *.
      destruct input as [|a input]; [discriminate|].
      destruct (decide (a = input_symbol)) as [->|Ha];
        [|rewrite bool_decide_eq_false_2 in Hf by assumption; discriminate].
      exists input. rewrite symbol_other by assumption.
      rewrite bool_decide_eq_true_2 by reflexivity. simpl.
      rewrite drop_0. auto. }
  rewrite Hgi, Hrest in Hf.
  assert (∃ base, stack = base ++ symbol stack_pop
          ∧ (if negb (bool_decide (stack_pop = epsilon))
             then drop_last stack else stack) = base
          ∧ (negb (bool_decide (stack_pop = epsilon))
             && match last stack with
                | None => true
                | Some a => negb (bool_decide (a = stack_pop))
                end) = false) as (base & Hst & Hbase & Hgs).
  { destruct (decide (stack_pop = epsilon)) as [Hp|Hp].
    - exists stack. rewrite Hp, symbol_epsilon, app_nil_r.
      rewrite bool_decide_eq_true_2 by reflexivity. auto.
    - rewrite bool_decide_eq_false_2 in Hf |- * by assumption. simpl in *.
      destruct (last stack) as [a|] eqn:Hl; [|discriminate].
      destruct (decide (a = stack_pop)) as [->|Ha];
        [|rewrite bool_decide_eq_false_2 in Hf by assumption; discriminate].
      apply last_Some in Hl as [base ->].
      exists base. rewrite symbol_other by assumption.
      rewrite bool_decide_eq_true_2 by reflexivity.
      rewrite drop_last_snoc. auto. }
  rewrite Hgs, Hbase in Hf.
  assert (c' = mkConfig destination rest (base ++ symbol stack_push)) as ->.
  { inversion Hf; subst c'. f_equal.
    destruct (decide (stack_push = epsilon)) as [Hq|Hq].
    - rewrite Hq, symbol_epsilon, app_nil_r.
      rewrite bool_decide_eq_true_2 by reflexivity. reflexivity.
    - rewrite bool_decide_eq_false_2 by assumption.
      rewrite symbol_other by assumption. reflexivity. }
  rewrite Hin, Hst. constructor. exact Ht.
Qed.

Lemma move_fire M c c' :
  move M c c' → ∃ t, t ∈ transitions M ∧ fire t c = Some c'.
Proof.
  intros Hm.
  destruct Hm as [source input_symbol stack_pop stack_push destination
                    rest base Ht].
  exists (source, input_symbol, stack_pop, stack_push, destination).
  split; [exact Ht|].
  unfold fire. simpl.
  rewrite bool_decide_eq_true_2 by reflexivity. simpl.
  assert ((negb (bool_decide (input_symbol = epsilon))
           && match symbol input_symbol ++ rest with
              | [] => true
              | a :: _ => negb (bool_decide (a = input_symbol))
              end) = false) as ->.
  { case_bool_decide as Hi; [reflexivity|]. simpl.
    rewrite symbol_other by assumption. simpl.
    rewrite bool_decide_eq_true_2 by reflexivity. reflexivity. }
  assert ((negb (bool_decide (stack_pop = epsilon))
           && match last (base ++ symbol stack_pop) with
              | None => true
              | Some a => negb (bool_decide (a = stack_pop))
              end) = false) as ->.
  { case_bool_decide as Hp; [reflexivity|]. simpl.
    rewrite symbol_other by assumption. rewrite last_snoc.
    rewrite bool_decide_eq_true_2 by reflexivity. reflexivity. }
  f_equal. f_equal.
  - case_bool_decide as Hi; simpl.
    + subst. rewrite symbol_epsilon. reflexivity.
    + rewrite symbol_other by assumption. simpl. apply drop_0.
  - assert ((if negb (bool_decide (stack_pop = epsilon))
             then drop_last (base ++ symbol stack_pop)
             else base ++ symbol stack_pop) = base) as ->.
    { case_bool_decide as Hp; simpl.
      - subst. rewrite symbol_epsilon. apply app_nil_r.
      - rewrite symbol_other by assumption. apply drop_last_snoc. }
    case_bool_decide as Hq; simpl.
    + subst. rewrite symbol_epsilon, app_nil_r. reflexivity.
    + rewrite symbol_other by assumption. reflexivity.
Qed.

(** What the loop returns, for any recursive call. *)
Lemma explore_true rec ts c :
  explore rec ts c = Ret true →
  ∃ t c', t ∈ ts ∧ fire t c = Some c' ∧ rec c' = Ret true.
Proof.
  induction ts as [|t ts IH]; simpl; [discriminate|].
  destruct (fire t c) as [c'|] eqn:Hf.
  - destruct (rec c') as [[]| |] eqn:Hr; try discriminate.
    + intros _. exists t, c'. split; [left|auto].
    + intros H. destruct (IH H) as (t' & c'' & ? & ? & ?).
      exists t', c''. split; [right|]; auto.
  - intros H. destruct (IH H) as (t' & c'' & ? & ? & ?).
    exists t', c''. split; [right|]; auto.
Qed.

Lemma explore_false rec ts c :
  explore rec ts c = Ret false →
  ∀ t c', t ∈ ts → fire t c = Some c' → rec c' = Ret false.
Proof.
  induction ts as [|t ts IH]; simpl; intros H t' c' Ht' Hf'.
  - inversion Ht'.
  - apply elem_of_cons in Ht' as [Heq|Ht'].
    + subst t'. rewrite Hf' in H.
      destruct (rec c') as [[]| |]; try discriminate. reflexivity.
    + destruct (fire t c) as [c1|]; [|eauto].
      destruct (rec c1) as [[]| |]; try discriminate. eauto.
Qed.

Lemma simulate_spec fuel M c b :
  simulate fuel M c = Ret b →
  (b = true ↔ ∃ c', moves M c c' ∧ accepting M c').
Proof.
  revert c b. induction fuel as [|fuel IH]; intros c b; [discriminate|].
  simpl.
  destruct (bool_decide (cf_state c ∈ accept_states M)
            && bool_decide (cf_input c = [])) eqn:Hacc.
  - intros [= <-]. split; [intros _|reflexivity].
    apply andb_true_iff in Hacc as [H1 H2].
    apply bool_decide_eq_true in H1, H2.
    exists c. split; [constructor | split; assumption].
  - intros He. destruct b.
    + split; [intros _|reflexivity].
      apply explore_true in He as (t & c1 & Ht & Hf & Hr).
      apply IH in Hr. destruct Hr as [Hr _].
      destruct (Hr eq_refl) as (c' & Hms & Hc').
      exists c'. split; [|exact Hc'].
      econstructor; [|exact Hms]. eapply fire_move; eauto.
    + split; [discriminate|]. intros (c' & Hms & Hc'). exfalso.
      inversion Hms as [|? c1 ? Hm Hms']; subst.
      * destruct Hc' as [H1 H2].
        apply andb_false_iff in Hacc as [Hacc|Hacc];
          apply bool_decide_eq_false in Hacc; contradiction.
      * apply move_fire in Hm as (t & Ht & Hf).
        pose proof (explore_false _ _ _ He t c1 Ht Hf) as Hr.
        apply IH in Hr. destruct Hr as [_ Hr].
        discriminate Hr. eauto.
Qed.

(** C2.  Whenever the search of [accepts] terminates on [s], it returns
    True exactly when some sequence of moves leads from the start state,
    with the whole of [s] to read and an empty stack, to a configuration
    in an accept state with no input left, whatever its stack holds. *)
Theorem npda_accepts_iff_accepting_run (M : NPDA) (s : str) (fuel : nat)
    (b : bool) :
  accepts fuel M s = Ret b → (b = true ↔ language M s).
Proof. intros H. apply (simulate_spec fuel M _ b H). Qed.

(** C7, as the code has it.  A transition pops at most one symbol,
    pushes at most one and consumes at most one input symbol; so the
    length of the remaining input plus the length of the stack grows by
    at most 1 and shrinks by at most 2 (one consumed and one popped,
    nothing pushed). *)
Theorem npda_step_weight_change (t : transition) (c c' : config) :
  fire t c = Some c' →
  (-2 ≤ weight c' - weight c ≤ 1)%Z
  ∧ length (cf_input c) - 1 ≤ length (cf_input c') ≤ length (cf_input c)
  ∧ length (cf_stack c) - 1 ≤ length (cf_stack c') ≤ length (cf_stack c) + 1.
Proof.
  destruct t as [[[[source input_symbol] stack_pop] stack_push] destination].
  destruct c as [state input stack]. unfold fire, weight. simpl.
  destruct (negb (bool_decide (source = state))); [discriminate|].
  destruct (_ && _); [discriminate|].
  destruct (_ && _); [discriminate|].
  intros [= <-]. simpl.
  destruct (negb (bool_decide (input_symbol = epsilon)));
    destruct (negb (bool_decide (stack_pop = epsilon)));
    destruct (negb (bool_decide (stack_push = epsilon)));
    rewrite ?length_app, ?length_drop, ?drop_last_length; simpl; lia.
Qed.

End NpdaProperties.

(* ================================================================== *)
(** * Properties of cfg.py: compression and description files *)
(* ================================================================== *)

Section CfgCompression.
Import Cfg.

Lemma count_occ_of_app {A} `{EqDecision A} (x : A) (l k : list A) :
  count_occ_of x (l ++ k) = count_occ_of x l + count_occ_of x k.
Proof. unfold count_occ_of. rewrite filter_app, length_app. reflexivity. Qed.

Lemma count_occ_of_cons {A} `{EqDecision A} (x y : A) (l : list A) :
  count_occ_of x (y :: l)
  = (if decide (y = x) then 1 else 0) + count_occ_of x l.
Proof.
  unfold count_occ_of. rewrite filter_cons.
  destruct (decide (y = x)); reflexivity.
Qed.

Lemma count_occ_of_absent {A} `{EqDecision A} (x : A) (l : list A) :
  x ∉ l → count_occ_of x l = 0.
Proof.
  induction l as [|y l IH]; intros Hx; [reflexivity|].
  rewrite count_occ_of_cons. apply not_elem_of_cons in Hx as [Hne Hx].
  destruct (decide (y = x)); [congruence|]. simpl. auto.
Qed.

Lemma count_occ_of_present {A} `{EqDecision A} (x : A) (l : list A) :
  x ∈ l → 1 ≤ count_occ_of x l.
Proof.
  induction l as [|y l IH]; intros Hx; [inversion Hx|].
  rewrite count_occ_of_cons. destruct (decide (y = x)); [lia|].
  apply elem_of_cons in Hx as [Hx|Hx]; [congruence|].
  specialize (IH Hx). lia.
Qed.

Lemma count_occ_of_NoDup {A} `{EqDecision A} (x : A) (l : list A) :
  NoDup l → count_occ_of x l ≤ 1.
Proof.
  induction 1 as [|y l Hy Hnd IH]; [unfold count_occ_of; simpl; lia|].
  rewrite count_occ_of_cons. destruct (decide (y = x)) as [->|]; [|lia].
  rewrite count_occ_of_absent by assumption. lia.
Qed.

Lemma index_of_app_first {A} `{EqDecision A} (x : A) (pre rest : list A) :
  x ∉ pre → index_of x (pre ++ x :: rest) = Some (length pre).
Proof.
  induction pre as [|y pre IH]; intros Hx; simpl.
  - destruct (decide (x = x)); congruence.
  - apply not_elem_of_cons in Hx as [Hne Hx].
    destruct (decide (y = x)); [congruence|]. rewrite IH by assumption.
    reflexivity.
Qed.

(** A string that occurs twice splits the list at its first and at its
    last occurrence. *)
Lemma twice_split {A} `{EqDecision A} (x : A) (l : list A) :
  1 < count_occ_of x l →
  ∃ pre mid post,
    l = pre ++ x :: (mid ++ x :: post) ∧ (x ∉ pre) ∧ (x ∉ post).
Proof.
  intros Hc.
  assert (x ∈ l) as Hin.
  { destruct (decide (x ∈ l)) as [|Hn]; [assumption|].
    rewrite count_occ_of_absent in Hc by assumption. lia. }
  apply list_elem_of_split_l in Hin as (pre & rest & -> & Hpre).
  rewrite count_occ_of_app, count_occ_of_cons in Hc.
  rewrite (count_occ_of_absent x pre) in Hc by assumption.
  destruct (decide (x = x)); [|congruence].
  assert (x ∈ rest) as Hin.
  { destruct (decide (x ∈ rest)) as [|Hn]; [assumption|].
    rewrite count_occ_of_absent in Hc by assumption. lia. }
  apply list_elem_of_split_r in Hin as (mid & post & -> & Hpost).
  exists pre, mid, post. auto.
Qed.

Lemma collapse_twice (x : str) (pre mid post : list str) :
  x ∉ pre → x ∉ post →
  collapse x (pre ++ x :: mid ++ x :: post) = pre ++ x :: post.
Proof.
  intros Hpre Hpost. unfold collapse.
  rewrite bool_decide_eq_true_2.
  2:{ rewrite count_occ_of_app, count_occ_of_cons, count_occ_of_app,
        count_occ_of_cons.
      destruct (decide (x = x)); [lia|congruence]. }
  rewrite index_of_app_first by assumption.
  assert (reverse (pre ++ x :: mid ++ x :: post)
          = reverse post ++ x :: reverse (pre ++ x :: mid)) as ->.
  { replace (pre ++ x :: mid ++ x :: post)
      with ((pre ++ x :: mid) ++ x :: post)
      by (rewrite <- app_assoc; reflexivity).
    rewrite reverse_app, reverse_cons, <- app_assoc. reflexivity. }
  rewrite index_of_app_first by (rewrite elem_of_reverse; assumption).
  rewrite length_reverse.
  rewrite take_app_length.
  replace (pre ++ x :: mid ++ x :: post)
    with ((pre ++ x :: mid) ++ x :: post)
    by (rewrite <- app_assoc; reflexivity).
  rewrite drop_app_length'; [reflexivity|].
  rewrite ?length_app; simpl; rewrite ?length_app; simpl.
  rewrite ?length_app; simpl. lia.
Qed.

Lemma collapse_once (x : str) (l : list str) :
  count_occ_of x l ≤ 1 → collapse x l = l.
Proof.
  intros Hc. unfold collapse. rewrite bool_decide_eq_false_2 by lia.
  reflexivity.
Qed.

(** The loop never adds an occurrence of any string, and leaves at most
    one of the string it has just treated. *)
Lemma collapse_counts (x : str) (l : list str) :
  count_occ_of x (collapse x l) ≤ 1
  ∧ ∀ y, count_occ_of y (collapse x l) ≤ count_occ_of y l.
Proof.
  destruct (decide (1 < count_occ_of x l)) as [Hc|Hc].
  - apply twice_split in Hc as (pre & mid & post & -> & Hpre & Hpost).
    rewrite collapse_twice by assumption. split.
    + rewrite count_occ_of_app, count_occ_of_cons.
      rewrite !count_occ_of_absent by assumption.
      destruct (decide (x = x)); lia.
    + intros y. rewrite !count_occ_of_app, !count_occ_of_cons,
        !count_occ_of_app, !count_occ_of_cons. lia.
  - rewrite collapse_once by lia. split; [lia|auto].
Qed.

Lemma minimize_counts (todo : list str) (l : list str) :
  (∀ y, count_occ_of y
          (foldl (λ shorter string, collapse string shorter) l todo)
        ≤ count_occ_of y l)
  ∧ ∀ x, x ∈ todo →
      count_occ_of x
        (foldl (λ shorter string, collapse string shorter) l todo) ≤ 1.
Proof.
  revert l. induction todo as [|x todo IH]; intros l; simpl.
  - split; [auto|]. intros x Hx. inversion Hx.
  - destruct (IH (collapse x l)) as [IH1 IH2].
    destruct (collapse_counts x l) as [Hc1 Hc2]. split.
    + intros y. etransitivity; [apply IH1 | apply Hc2].
    + intros y Hy. apply elem_of_cons in Hy as [->|Hy]; [|auto].
      etransitivity; [apply IH1 | exact Hc1].
Qed.

Lemma NoDup_count_occ_of {A} `{EqDecision A} (l : list A) :
  (∀ x, count_occ_of x l ≤ 1) → NoDup l.
Proof.
  induction l as [|y l IH]; intros Hc; constructor.
  - intros Hy. apply count_occ_of_present in Hy.
    specialize (Hc y). rewrite count_occ_of_cons in Hc.
    destruct (decide (y = y)); [lia|congruence].
  - apply IH. intros x. specialize (Hc x).
    rewrite count_occ_of_cons in Hc. lia.
Qed.

(** C8.  The minimization pass of [pretty_print_derivation] leaves a
    derivation in which no string occurs twice unchanged; when the
    string under treatment occurs more than once, the pass removes the
    part from its first occurrence up to its last one and keeps that
    last occurrence; and after the pass no string occurs twice. *)
Theorem minimize_idempotent_on_loop_free :
  (∀ derivation, NoDup derivation → minimize derivation = derivation)
  ∧ (∀ string before between after,
       string ∉ before → string ∉ after →
       collapse string (before ++ string :: between ++ string :: after)
       = before ++ string :: after)
  ∧ (∀ derivation, NoDup (minimize derivation)
                   ∧ minimize (minimize derivation) = minimize derivation).
Proof.
  assert (∀ derivation, NoDup derivation → minimize derivation = derivation)
    as Hfix.
  { intros derivation Hnd. unfold minimize.
    generalize (reverse derivation) as todo.
    induction todo as [|x todo IH]; simpl; [reflexivity|].
    rewrite collapse_once by (apply count_occ_of_NoDup, Hnd). exact IH. }
  assert (∀ derivation, NoDup (minimize derivation)) as Hnd.
  { intros derivation. apply NoDup_count_occ_of. intros x.
    destruct (minimize_counts (reverse derivation) derivation) as [H1 H2].
    destruct (decide (x ∈ derivation)) as [Hx|Hx].
    - apply H2. rewrite elem_of_reverse. exact Hx.
    - unfold minimize. etransitivity; [apply H1|].
      rewrite count_occ_of_absent by assumption. lia. }
  split; [exact Hfix|]. split; [intros; apply collapse_twice; assumption|].
  intros derivation. split; [apply Hnd | apply Hfix, Hnd].
Qed.

(** The start variable that [read_rules] returns is the one it was
    given, or else the first character of the first line. *)
Lemma read_rules_start lines start_variable rules result :
  read_rules lines start_variable rules = inr result →
  result.1 = match start_variable with
             | Some s => Some s
             | None => head lines ≫= head
             end.
Proof.
  revert start_variable rules.
  induction lines as [|line lines IH]; intros start_variable rules; simpl.
  - intros [= <-]. destruct start_variable; reflexivity.
  - destruct (negb (bool_decide (count_char ">" line = 1))); [discriminate|].
    destruct (negb (bool_decide (index_of ">"%char line = Some 1)));
      [discriminate|].
    destruct line as [|lhs line]; [discriminate|].
    destruct (negb (is_upper lhs)); [discriminate|].
    destruct (negb (forallb _ _)); [discriminate|].
    intros H. apply IH in H. rewrite H.
    destruct start_variable; reflexivity.
Qed.

Lemma read_transitions_start lines start_state transitions result :
  Npda.read_transitions lines start_state transitions = inr result →
  result.1 = match start_state with
             | Some s => Some s
             | None => head lines ≫= (λ line, head (split_on ":" line))
             end.
Proof.
  revert start_state transitions.
  induction lines as [|line lines IH]; intros start_state transitions; simpl.
  - intros [= <-]. destruct start_state; reflexivity.
  - destruct (negb (bool_decide (count_char ":" line = 2))); [discriminate|].
    destruct (negb (bool_decide (count_char ">" line = 1))); [discriminate|].
    destruct (index_of ":"%char line); [|discriminate].
    destruct (index_of ">"%char line); [|discriminate].
    destruct (rindex_of ":" line); [|discriminate].
    destruct (negb (bool_decide _)); [discriminate|].
    destruct (split_on ":" line) as [|source [|label [|destination [|]]]];
      try discriminate.
    destruct label as [|a [|b [|c [|d [|e [|]]]]]]; try discriminate.
    destruct (negb (bool_decide (b = ","%char))); [discriminate|].
    destruct (negb (bool_decide (d = ">"%char))); [discriminate|].
    intros H. apply IH in H. rewrite H.
    destruct start_state; reflexivity.
Qed.

(** C10.  A description file declares no start point: [read_grammar]
    returns as start variable the first character (the left-hand side)
    of the first line that is neither blank nor a comment, and
    [read_automaton] returns as start state what precedes the first
    colon (the source state) of the first such line that is a transition
    line, that is, not the last line of the file. *)
Theorem start_is_taken_from_first_line (file_lines : list str) :
  (∀ start_variable rules,
     read_grammar file_lines = inr (start_variable, rules) →
     start_variable = head (clean_lines file_lines) ≫= head)
  ∧ (∀ start_state transitions accept_states,
       Npda.read_automaton file_lines
       = inr (start_state, transitions, accept_states) →
       start_state
       = head (drop_last (clean_lines file_lines))
           ≫= (λ line, head (split_on ":" line))).
Proof.
  split.
  - intros start_variable rules H. unfold read_grammar in H.
    apply read_rules_start in H. exact H.
  - intros start_state transitions accept_states H.
    unfold Npda.read_automaton in H.
    destruct (negb (bool_decide (1 ≤ length (clean_lines file_lines))));
      [discriminate|].
    destruct (Npda.read_transitions (drop_last (clean_lines file_lines))
                None []) as [e|result] eqn:Hr; [discriminate|].
    apply read_transitions_start in Hr. simpl in Hr.
    destruct result as [st ts]. inversion H; subst. exact Hr.
Qed.

End CfgCompression.

(* ================================================================== *)
(** * Properties of cfg.py: sentential forms *)
(* ================================================================== *)

Section CfgStrings.
Import Cfg.

Lemma epsilon_not_upper : is_upper epsilon = false.
Proof. reflexivity. Qed.

Lemma epsilon_not_terminal : is_terminal epsilon = false.
Proof. reflexivity. Qed.

Lemma upper_not_terminal s : is_upper s = true → is_terminal s = false.
Proof.
  destruct s as [[] [] [] [] [] [] [] []]; vm_compute; intros H;
    first [reflexivity | discriminate H].
Qed.

Lemma remove_epsilons_app x y :
  remove_epsilons (x ++ y) = remove_epsilons x ++ remove_epsilons y.
Proof. apply filter_app. Qed.

Lemma remove_epsilons_plain x :
  epsilon ∉ x → remove_epsilons x = x.
Proof.
  induction x as [|s x IH]; intros H; [reflexivity|].
  apply not_elem_of_cons in H as [Hs Hx].
  unfold remove_epsilons. rewrite filter_cons_True by congruence.
  f_equal. apply IH, Hx.
Qed.

Lemma remove_epsilons_free x : epsilon ∉ remove_epsilons x.
Proof.
  unfold remove_epsilons. rewrite list_elem_of_filter. tauto.
Qed.

Lemma remove_epsilons_idemp x :
  remove_epsilons (remove_epsilons x) = remove_epsilons x.
Proof. apply remove_epsilons_plain, remove_epsilons_free. Qed.

Lemma count_variables_app x y :
  count_variables (x ++ y) = count_variables x + count_variables y.
Proof. induction x as [|s x IH]; simpl; [reflexivity|]. rewrite IH. lia. Qed.

Lemma count_terminals_app x y :
  count_terminals (x ++ y) = count_terminals x + count_terminals y.
Proof. induction x as [|s x IH]; simpl; [reflexivity|]. rewrite IH. lia. Qed.

Lemma count_variables_remove_epsilons x :
  count_variables (remove_epsilons x) = count_variables x.
Proof.
  induction x as [|s x IH]; [reflexivity|].
  unfold remove_epsilons. rewrite filter_cons.
  destruct (decide (s ≠ epsilon)) as [Hs|Hs]; simpl.
  - f_equal. exact IH.
  - apply dec_stable in Hs. subst s. rewrite epsilon_not_upper. exact IH.
Qed.

Lemma count_terminals_remove_epsilons x :
  count_terminals (remove_epsilons x) = count_terminals x.
Proof.
  induction x as [|s x IH]; [reflexivity|].
  unfold remove_epsilons. rewrite filter_cons.
  destruct (decide (s ≠ epsilon)) as [Hs|Hs]; simpl.
  - f_equal. exact IH.
  - apply dec_stable in Hs. subst s. rewrite epsilon_not_terminal. exact IH.
Qed.

(** A string of terminals is its own terminal count long, and has no
    variable and no epsilon. *)
Lemma target_ok_counts string :
  target_ok string →
  count_terminals string = length string
  ∧ count_variables string = 0
  ∧ remove_epsilons string = string.
Proof.
  induction 1 as [|s string Hs Hall (IH1 & IH2 & IH3)]; [auto|].
  simpl. rewrite Hs, IH1, IH2. split; [reflexivity|]. split.
  - destruct (is_upper s) eqn:Hu; [|reflexivity].
    apply upper_not_terminal in Hu. congruence.
  - unfold remove_epsilons in *. rewrite filter_cons_True; [congruence|].
    intros ->. rewrite epsilon_not_terminal in Hs. discriminate.
Qed.

Lemma terminals_bounded x :
  count_terminals x + count_variables x ≤ length x.
Proof.
  induction x as [|s x IH]; simpl; [lia|].
  destruct (is_upper s) eqn:Hu.
  - rewrite (upper_not_terminal s Hu). lia.
  - destruct (is_terminal s); lia.
Qed.

(** A string in which every character counts as a terminal has no
    variable. *)
Lemma all_terminals_no_variable x :
  count_terminals x = length x → count_variables x = 0.
Proof. pose proof (terminals_bounded x). lia. Qed.

Lemma find_leftmost_variable_split x v :
  find_leftmost_variable x = Some v →
  ∃ prefix suffix,
    x = prefix ++ v :: suffix ∧ count_variables prefix = 0
    ∧ is_upper v = true.
Proof.
  induction x as [|s x IH]; simpl; [discriminate|].
  destruct (is_upper s) eqn:Hu.
  - intros [= <-]. exists [], x. auto.
  - intros H. destruct (IH H) as (prefix & suffix & -> & Hp & Hv).
    exists (s :: prefix), suffix. simpl. rewrite Hu. auto.
Qed.

Lemma find_leftmost_variable_app prefix v suffix :
  count_variables prefix = 0 → is_upper v = true →
  find_leftmost_variable (prefix ++ v :: suffix) = Some v.
Proof.
  intros Hp Hv. induction prefix as [|s prefix IH]; simpl.
  - rewrite Hv. reflexivity.
  - simpl in Hp. destruct (is_upper s); [lia|]. apply IH. lia.
Qed.

Lemma no_variable_not_elem prefix v :
  count_variables prefix = 0 → is_upper v = true → v ∉ prefix.
Proof.
  intros Hp Hv. induction prefix as [|s prefix IH]; [apply not_elem_of_nil|].
  simpl in Hp. apply not_elem_of_cons. split.
  - intros ->. rewrite Hv in Hp. lia.
  - apply IH. destruct (is_upper s); lia.
Qed.

Lemma replace_first_app prefix v rhs suffix :
  v ∉ prefix →
  replace_first v rhs (prefix ++ v :: suffix) = prefix ++ rhs ++ suffix.
Proof.
  intros Hp. induction prefix as [|s prefix IH]; simpl.
  - destruct (decide (v = v)); congruence.
  - apply not_elem_of_cons in Hp as [Hne Hp].
    destruct (decide (s = v)); [congruence|]. f_equal. apply IH, Hp.
Qed.

Lemma replace_first_length v rhs x :
  length (replace_first v rhs x) ≤ length x + length rhs.
Proof.
  induction x as [|s x IH]; simpl; [lia|].
  destruct (decide (s = v)); [rewrite length_app|]; simpl; lia.
Qed.

Lemma find_rules_inr G v rs :
  find_rules G v = inr rs →
  v ∈ variables G ∧ ∀ r, r ∈ rs ↔ r.1 = v ∧ r ∈ rules G.
Proof.
  unfold find_rules. case_bool_decide; simpl; [|discriminate].
  intros [= <-]. split; [assumption|].
  intros r. rewrite list_elem_of_filter. reflexivity.
Qed.

(** Rewriting the leftmost variable by a right-hand side, as the code
    does it on an epsilon-free string, is a leftmost step of the
    grammar. *)
Lemma expands_leftmost_step G target bound x y :
  expands G target bound x y →
  leftmost_step G (remove_epsilons x) (remove_epsilons y).
Proof.
  intros (_ & _ & v & rs & r & Hv & Hrs & Hr & Hy).
  apply find_leftmost_variable_split in Hv as (prefix & suffix & Hx & Hp & Hu).
  apply find_rules_inr in Hrs as [_ Hrs]. apply Hrs in Hr as [Hlhs Hr].
  destruct r as [lhs rhs]. simpl in Hlhs. subst lhs.
  unfold apply_rule in Hy. case_bool_decide; simpl in Hy; [|discriminate].
  injection Hy as <-. rewrite Hx.
  rewrite replace_first_app by (apply no_variable_not_elem; assumption).
  pose proof (remove_epsilons_free x) as Hfree. rewrite Hx in Hfree.
  rewrite !remove_epsilons_app.
  rewrite (remove_epsilons_plain prefix)
    by (intros Hin; apply Hfree; apply elem_of_app; auto).
  rewrite (remove_epsilons_plain suffix)
    by (intros Hin; apply Hfree; apply elem_of_app; right; right; exact Hin).
  constructor; assumption.
Qed.

Lemma leftmost_step_terminals G x y :
  leftmost_step G x y → count_terminals x ≤ count_terminals y.
Proof.
  intros [prefix v suffix rhs Hp Hv Hr].
  rewrite !count_terminals_app. simpl.
  rewrite (upper_not_terminal v Hv). lia.
Qed.

End CfgStrings.

(* ================================================================== *)
(** * Properties of cfg.py: what a search that returns has done *)
(* ================================================================== *)

Section CfgSearch.
Import Cfg.

Variables (G : CFG) (target : str) (bound : Z).
Hypothesis target_plain : remove_epsilons target = target.

Lemma closed_mono pool pool' x :
  pool ⊆ pool' → closed G target bound pool x → closed G target bound pool' x.
Proof. intros Hsub [Hf Hc]. split; [exact Hf|]. intros y Hy. auto. Qed.

(** The loop over the rules, for a recursive call that keeps its
    promise. *)
Lemma try_rules_post rec current_string derivation_so_far :
  (∀ y pool result,
     rec y pool = Ret result →
     search_post G target bound y pool derivation_so_far result) →
  ∀ appropriate_rules pool result,
    try_rules rec current_string appropriate_rules pool = Ret result →
    pool ⊆ result.2
    ∧ match result.1 with
      | [] =>
          (∀ r, r ∈ appropriate_rules →
                ∃ y, apply_rule current_string r = inr y ∧ y ∈ result.2)
          ∧ ∀ y, y ∈ result.2 → y ∉ pool →
                 closed G target bound result.2 y
      | _ =>
          ∃ r y path,
            r ∈ appropriate_rules ∧ apply_rule current_string r = inr y
            ∧ result.1 = derivation_so_far ++ path
            ∧ trail G target bound y path
      end.
Proof.
  intros Hrec appropriate_rules.
  induction appropriate_rules as [|r rest IH]; intros pool result; simpl.
  - intros [= <-]. simpl. split; [reflexivity|]. split.
    + intros r Hr. inversion Hr.
    + intros y Hy Hn. contradiction.
  - destruct (apply_rule current_string r) as [e|y] eqn:Hy; [discriminate|].
    destruct (rec y pool) as [[d pool1]| |] eqn:Hcall; try discriminate.
    apply Hrec in Hcall. destruct Hcall as [Hsub Hcall]. simpl in Hsub, Hcall.
    destruct d as [|d0 d].
    + intros Htry. apply IH in Htry as [Hsub' Htry].
      destruct Hcall as [Hy1 Hnew]. split; [set_solver|].
      destruct (result.1) as [|e0 es].
      * destruct Htry as [Hall Hnew']. split.
        -- intros r' Hr'. apply elem_of_cons in Hr' as [->|Hr']; [|auto].
           exists y. split; [exact Hy | set_solver].
        -- intros z Hz Hnz. destruct (decide (z ∈ pool1)) as [Hz1|Hz1].
           ++ eapply closed_mono; [exact Hsub' | auto].
           ++ auto.
      * destruct Htry as (r' & y' & path & Hr' & Hy' & Hd & Ht).
        exists r', y', path. split; [right; exact Hr' | auto].
    + intros [= <-]. simpl. split; [exact Hsub|].
      destruct Hcall as (path & Hd & Ht).
      exists r, y, path. split; [left | auto].
Qed.

(** Every call of [leftmost_derive] that returns keeps the promise. *)
Lemma leftmost_derive_post fuel :
  ∀ x pool current_derivation result,
    leftmost_derive fuel G x target bound pool current_derivation = Ret result →
    search_post G target bound x pool current_derivation result.
Proof.
  induction fuel as [|fuel IH]; intros x pool current_derivation result;
    [discriminate|].
  simpl. rewrite target_plain.
  case_bool_decide as Hin.
  { intros [= <-]. split; simpl; [reflexivity|]. split; [exact Hin|].
    intros y Hy Hn. contradiction. }
  assert (∀ y, y ∈ ({[x]} ∪ pool : pool_t) → y ∉ pool → y = x) as Honly
    by set_solver.
  destruct (bound <? Z.of_nat (count_variables x))%Z eqn:Hvars.
  { intros [= <-]. split; simpl; [set_solver|]. split; [set_solver|].
    intros y Hy Hn. rewrite (Honly y Hy Hn). split.
    - intros [[Hb _] _]. zbool. lia.
    - intros z [[Hb _] _]. zbool. lia. }
  case_bool_decide as Hassert; simpl; [|discriminate].
  case_bool_decide as Hterms.
  { intros [= <-]. split; simpl; [set_solver|]. split; [set_solver|].
    intros y Hy Hn. rewrite (Honly y Hy Hn). split.
    - intros [[_ Hb] _]. rewrite target_plain in Hb. lia.
    - intros z [[_ Hb] _]. rewrite target_plain in Hb. lia. }
  assert (admitted target bound x) as Hadm.
  { split; [zbool; lia | rewrite target_plain; lia]. }
  case_bool_decide as Hnovar.
  { case_bool_decide as Heq.
    - intros [= <-]. split; simpl; [set_solver|].
      destruct (current_derivation ++ [remove_epsilons x]) as [|d0 d] eqn:Hd;
        [destruct current_derivation; discriminate|].
      rewrite <- Hd. exists [remove_epsilons x]. split; [reflexivity|].
      constructor. split; [exact Hadm|]. rewrite target_plain. auto.
    - intros [= <-]. split; simpl; [set_solver|]. split; [set_solver|].
      intros y Hy Hn. rewrite (Honly y Hy Hn). split.
      + intros (_ & _ & Hfin). rewrite target_plain in Hfin. contradiction.
      + intros z (_ & Hne & _). contradiction. }
  destruct (find_leftmost_variable (remove_epsilons x)) as [v|] eqn:Hv;
    [|discriminate].
  destruct (find_rules G v) as [e|rs] eqn:Hrs; [discriminate|].
  intros Htry.
  apply (try_rules_post _ _ (current_derivation ++ [remove_epsilons x]))
    in Htry; [|intros y p r Hr; apply IH in Hr; exact Hr].
  destruct Htry as [Hsub Htry]. split; [set_solver|].
  destruct (result.1) as [|d0 d] eqn:Hres.
  - destruct Htry as [Hall Hnew]. split; [set_solver|].
    intros y Hy Hn. destruct (decide (y = x)) as [->|Hne].
    + split.
      * intros (_ & Hfin & _). contradiction.
      * intros z (_ & _ & v' & rs' & r & Hv' & Hrs' & Hr & Hz).
        rewrite Hv in Hv'. injection Hv' as <-.
        rewrite Hrs in Hrs'. injection Hrs' as <-.
        destruct (Hall r Hr) as (z' & Hz' & Hin').
        rewrite Hz in Hz'. injection Hz' as <-. exact Hin'.
    + apply Hnew; [exact Hy | set_solver].
  - destruct Htry as (r & y & path & Hr & Hy & Hd & Ht).
    exists (remove_epsilons x :: path). split.
    + rewrite Hd, <- app_assoc. reflexivity.
    + econstructor; [|exact Ht].
      split; [exact Hadm|]. split; [exact Hnovar|].
      exists v, rs, r. auto.
Qed.

(** A trail is a leftmost derivation within the bound, from the
    epsilon-free form of its first string to the target. *)
Lemma trail_derivation x path :
  trail G target bound x path →
  bounded_leftmost_derivation G bound (remove_epsilons x) target path.
Proof.
  induction 1 as [x Hfin|x y path Hexp Ht IH].
  - destruct Hfin as ([Hb _] & _ & Heq). rewrite target_plain in Heq.
    split; [reflexivity|]. split; [simpl; congruence|].
    split; [exact I|]. constructor; [|constructor].
    rewrite count_variables_remove_epsilons. exact Hb.
  - destruct IH as (Hhd & Hlast & Hchain & Hall).
    split; [reflexivity|]. split.
    + destruct path as [|p path]; [discriminate|]. exact Hlast.
    + split.
      * destruct path as [|p path]; [discriminate|].
        simpl in Hhd. injection Hhd as ->. split; [|exact Hchain].
        eapply expands_leftmost_step; exact Hexp.
      * constructor; [|exact Hall].
        rewrite count_variables_remove_epsilons.
        destruct Hexp as ([Hb _] & _). exact Hb.
Qed.

(** When every string of a pool is closed, no trail starts in it. *)
Lemma closed_pool_no_trail (pool : pool_t) x path :
  (∀ y, y ∈ pool → closed G target bound pool y) →
  x ∈ pool → trail G target bound x path → False.
Proof.
  intros Hclosed Hx Ht. induction Ht as [x Hfin|x y path Hexp Ht IH].
  - destruct (Hclosed x Hx) as [Hnf _]. contradiction.
  - destruct (Hclosed x Hx) as [_ Hsucc]. apply IH. apply Hsucc, Hexp.
Qed.

(** A search started with an empty pool: a non-empty result is a trail,
    and an empty result means that there is none. *)
Lemma fresh_search_result fuel x result :
  leftmost_derive fuel G x target bound ∅ [] = Ret result →
  match result.1 with
  | [] => ∀ path, ¬ trail G target bound x path
  | _ => trail G target bound x result.1
  end.
Proof.
  intros H. apply leftmost_derive_post in H as [_ H].
  destruct (result.1) as [|d0 d].
  - destruct H as [Hx Hnew]. intros path Ht.
    eapply closed_pool_no_trail; [|exact Hx|exact Ht].
    intros y Hy. apply Hnew; [exact Hy | set_solver].
  - destruct H as (path & -> & Ht). exact Ht.
Qed.

End CfgSearch.

(* ================================================================== *)
(** * Properties of cfg.py: the search terminates and is exact *)
(* ================================================================== *)

Section CfgTotal.
Import Cfg.

Lemma init_well_formed variables terminals rules start_variable G :
  init variables terminals rules start_variable = inr G → well_formed G.
Proof.
  unfold init.
  case_bool_decide as Hstart; simpl; [|discriminate].
  case_bool_decide as Hdisj; simpl; [|discriminate].
  case_bool_decide as Heps; simpl; [discriminate|].
  destruct (forallb is_upper (elements variables)) eqn:Hup; simpl;
    [|discriminate].
  destruct (forallb (λ s, is_lower s || is_digit s) (elements terminals))
    eqn:Hlow; simpl; [|discriminate].
  match goal with
  | |- context [forallb ?f rules] => destruct (forallb f rules) eqn:Hrules
  end; simpl; [|discriminate].
  match goal with
  | |- context [negb ?b] => destruct b eqn:Hcover
  end; simpl; [|discriminate].
  intros [= <-].
  rewrite forallb_forall in Hup, Hlow, Hrules.
  constructor; simpl.
  - exact Hstart.
  - intros s Hs. apply Hup. apply list_elem_of_In, elem_of_elements, Hs.
  - intros lhs rhs Hr. apply list_elem_of_In, Hrules in Hr.
    apply andb_true_iff in Hr as [Hl _]. apply bool_decide_eq_true in Hl.
    exact Hl.
  - intros lhs rhs s Hr Hs. apply list_elem_of_In, Hrules in Hr.
    apply andb_true_iff in Hr as [_ Hrhs]. unfold rhs_ok in Hrhs.
    rewrite forallb_forall in Hrhs. apply list_elem_of_In, Hrhs in Hs.
    apply bool_decide_eq_true in Hs.
    apply elem_of_union in Hs as [Hs|Hs];
      [left; apply elem_of_singleton in Hs; exact Hs|].
    apply elem_of_union in Hs as [Hs|Hs]; [right; left; exact Hs|].
    right. right. unfold is_terminal.
    assert (s ≠ epsilon) as Hne by (intros ->; contradiction).
    rewrite (bool_decide_eq_false_2 _ Hne). simpl.
    apply elem_of_elements, list_elem_of_In, Hlow in Hs.
    rewrite andb_true_r. rewrite orb_comm. exact Hs.
Qed.

Lemma all_ascii_complete a : a ∈ all_ascii.
Proof.
  unfold all_ascii. apply list_elem_of_fmap. exists (nat_of_ascii a).
  split; [symmetry; apply ascii_nat_embedding|].
  apply elem_of_seq. pose proof (nat_ascii_bounded a). lia.
Qed.

Lemma universe_complete n (x : str) : length x ≤ n → x ∈ universe n.
Proof.
  unfold universe. rewrite elem_of_list_to_set. revert x.
  induction n as [|n IH]; intros x Hx.
  - destruct x; [left | simpl in Hx; lia].
  - destruct x as [|a x]; [left|]. right. simpl in Hx.
    apply list_elem_of_bind. exists x. split; [|apply IH; lia].
    apply list_elem_of_fmap. exists a. split; [reflexivity|].
    apply all_ascii_complete.
Qed.

Lemma longest_rhs_bound (rs : list rule) r :
  r ∈ rs → length r.2 ≤ longest_rhs rs.
Proof.
  induction rs as [|r' rs IH]; intros Hr; [inversion Hr|].
  simpl. apply elem_of_cons in Hr as [->|Hr]; [lia|].
  specialize (IH Hr). lia.
Qed.

Variables (G : CFG) (target : str) (bound : Z).
Hypothesis G_ok : well_formed G.
Hypothesis target_terminals : target_ok target.

Let target_plain : remove_epsilons target = target.
Proof. apply target_ok_counts, target_terminals. Qed.

Lemma raw_remove_epsilons x : raw G x → raw G (remove_epsilons x).
Proof.
  unfold raw. rewrite !Forall_forall. intros H s Hs.
  apply list_elem_of_filter in Hs as [_ Hs]. auto.
Qed.

(** In an epsilon-free string of the search every character is counted,
    as a variable or as a terminal. *)
Lemma raw_length x :
  raw G x → epsilon ∉ x → length x = count_terminals x + count_variables x.
Proof.
  induction 1 as [|s x Hs Hx IH]; intros He; [reflexivity|].
  apply not_elem_of_cons in He as [Hne He]. simpl. rewrite (IH He).
  destruct Hs as [Hs|[Hs|Hs]].
  - apply (wf_variables G G_ok) in Hs. rewrite Hs.
    rewrite (upper_not_terminal s Hs). lia.
  - rewrite Hs. destruct (is_upper s) eqn:Hu; [|lia].
    apply upper_not_terminal in Hu. congruence.
  - congruence.
Qed.

Lemma raw_leftmost_variable x :
  raw G x → epsilon ∉ x → count_terminals x ≠ length x →
  ∃ v, find_leftmost_variable x = Some v ∧ v ∈ variables G.
Proof.
  induction 1 as [|s x Hs Hx IH]; intros He Hc; [simpl in Hc; lia|].
  apply not_elem_of_cons in He as [Hne He]. simpl in *.
  destruct (is_upper s) eqn:Hu.
  - exists s. split; [reflexivity|].
    destruct Hs as [Hs|[Hs|Hs]]; [exact Hs| |congruence].
    apply upper_not_terminal in Hu. congruence.
  - destruct Hs as [Hs|[Hs|Hs]]; [|rewrite Hs in Hc; apply IH; [exact He|lia]
                                   |congruence].
    apply (wf_variables G G_ok) in Hs. congruence.
Qed.

(** The strings the loop passes on are again strings of the search, and
    short. *)
Lemma expansion_raw x v rs r :
  raw G x → epsilon ∉ x →
  find_leftmost_variable x = Some v → find_rules G v = inr rs → r ∈ rs →
  ∃ y, apply_rule x r = inr y ∧ raw G y
       ∧ length y ≤ length x + longest_rhs (rules G).
Proof.
  intros Hraw He Hv Hrs Hr.
  apply find_rules_inr in Hrs as [_ Hrs]. apply Hrs in Hr as [Hlhs Hr].
  destruct r as [lhs rhs]. simpl in Hlhs. subst lhs.
  apply find_leftmost_variable_split in Hv as (prefix & suffix & -> & Hp & Hu).
  exists (prefix ++ rhs ++ suffix). split; [|split].
  - unfold apply_rule. rewrite bool_decide_eq_true_2 by set_solver. simpl.
    rewrite replace_first_app by (apply no_variable_not_elem; assumption).
    reflexivity.
  - unfold raw in *. rewrite !Forall_app in *. rewrite Forall_cons in Hraw.
    destruct Hraw as (Hpre & _ & Hsuf). split; [exact Hpre|].
    split; [|exact Hsuf]. apply Forall_forall. intros s Hs.
    destruct (wf_rhs G G_ok v rhs s Hr Hs) as [H|[H|H]]; auto.
  - pose proof (longest_rhs_bound (rules G) (v, rhs) Hr) as Hlen.
    simpl in Hlen. rewrite !length_app. simpl. lia.
Qed.

Variable N : nat.
Hypothesis N_large :
  Z.to_nat bound + length target + longest_rhs (rules G) ≤ N.

(** The loop over the rules returns when the recursive call does. *)
Lemma try_rules_total rec current_string fuel :
  (∀ y (pool : pool_t),
     raw G y → length y ≤ N → pool ⊆ universe N →
     size (universe N ∖ pool) < fuel →
     ∃ result, rec y pool = Ret result
               ∧ pool ⊆ result.2 ∧ result.2 ⊆ universe N) →
  ∀ appropriate_rules (pool : pool_t),
    (∀ r, r ∈ appropriate_rules →
          ∃ y, apply_rule current_string r = inr y ∧ raw G y ∧ length y ≤ N) →
    pool ⊆ universe N → size (universe N ∖ pool) < fuel →
    ∃ result, try_rules rec current_string appropriate_rules pool = Ret result
              ∧ pool ⊆ result.2 ∧ result.2 ⊆ universe N.
Proof.
  intros Hrec appropriate_rules.
  induction appropriate_rules as [|r rest IH]; intros pool Hall Hsub Hsize.
  - exists ([], pool). simpl. auto.
  - simpl. destruct (Hall r) as (y & Hy & Hraw & Hlen); [left|].
    rewrite Hy.
    destruct (Hrec y pool Hraw Hlen Hsub Hsize)
      as ([d pool1] & Hcall & Hsub1 & Hsub1').
    rewrite Hcall. simpl in *. destruct d as [|d0 d].
    + destruct (IH pool1) as (result & Htry & Hsub2 & Hsub2').
      * intros r' Hr'. apply Hall. right. exact Hr'.
      * exact Hsub1'.
      * eapply Nat.le_lt_trans; [|exact Hsize].
        apply subseteq_size. set_solver.
      * exists result. split; [exact Htry|]. split; [set_solver|exact Hsub2'].
    + exists (d0 :: d, pool1). simpl. auto.
Qed.

(** With more fuel than there are strings of the universe outside the
    pool, [leftmost_derive] returns: it neither raises nor runs out of
    fuel. *)
Lemma leftmost_derive_total fuel :
  ∀ x (pool : pool_t) current_derivation,
    raw G x → length x ≤ N → pool ⊆ universe N →
    size (universe N ∖ pool) < fuel →
    ∃ result,
      leftmost_derive fuel G x target bound pool current_derivation = Ret result
      ∧ pool ⊆ result.2 ∧ result.2 ⊆ universe N.
Proof.
  induction fuel as [|fuel IH]; intros x pool current_derivation Hraw Hlen
    Hsub Hsize; [lia|].
  simpl. rewrite target_plain.
  case_bool_decide as Hin; [exists ([], pool); auto|].
  assert (x ∈ universe N) as HxU by (apply universe_complete, Hlen).
  assert (({[x]} ∪ pool : pool_t) ⊆ universe N) as Hsub1 by set_solver.
  assert (size (universe N ∖ ({[x]} ∪ pool)) < fuel) as Hsize1.
  { assert (size (universe N ∖ ({[x]} ∪ pool)) < size (universe N ∖ pool));
      [|lia].
    apply subset_size. split; [set_solver|].
    intros Hc. assert (x ∈ universe N ∖ ({[x]} ∪ pool)) by set_solver.
    set_solver. }
  destruct (bound <? Z.of_nat (count_variables x))%Z eqn:Hvars.
  { exists ([], {[x]} ∪ pool). simpl. split; [reflexivity|].
    split; [set_solver|exact Hsub1]. }
  destruct (target_ok_counts target target_terminals) as (Htc & _ & _).
  rewrite (bool_decide_eq_true_2 _ (eq_sym Htc)). simpl.
  case_bool_decide as Hterms.
  { exists ([], {[x]} ∪ pool). simpl. split; [reflexivity|].
    split; [set_solver|exact Hsub1]. }
  case_bool_decide as Hnovar.
  { case_bool_decide as Heq; eexists; (split; [reflexivity|]); simpl;
      (split; [set_solver|exact Hsub1]). }
  pose proof (raw_remove_epsilons x Hraw) as Hraw'.
  pose proof (remove_epsilons_free x) as Hfree.
  destruct (raw_leftmost_variable _ Hraw' Hfree Hnovar) as (v & Hv & HvG).
  rewrite Hv.
  destruct (find_rules G v) as [e|rs] eqn:Hrs.
  { unfold find_rules in Hrs. rewrite bool_decide_eq_true_2 in Hrs by exact HvG.
    discriminate. }
  destruct (try_rules_total
              (λ next_string pool0,
                 leftmost_derive fuel G next_string target bound pool0
                   (current_derivation ++ [remove_epsilons x]))
              (remove_epsilons x) fuel) with (appropriate_rules := rs)
    (pool := ({[x]} ∪ pool : pool_t)) as (result & Htry & Hs1 & Hs2).
  - intros y p Hy Hly Hp Hsz. apply IH; assumption.
  - intros r Hr.
    destruct (expansion_raw _ v rs r Hraw' Hfree Hv Hrs Hr)
      as (y & Hy & Hrawy & Hleny).
    exists y. split; [exact Hy|]. split; [exact Hrawy|].
    pose proof (raw_length _ Hraw' Hfree) as Hl.
    rewrite count_variables_remove_epsilons in Hl.
    zbool. lia.
  - exact Hsub1.
  - exact Hsize1.
  - exists result. split; [exact Htry|]. split; [set_solver|exact Hs2].
Qed.

End CfgTotal.

Section CfgExact.
Import Cfg.

Lemma chain_terminals G d a t :
  chain (leftmost_step G) d → head d = Some a → last d = Some t →
  count_terminals a ≤ count_terminals t.
Proof.
  revert a. induction d as [|x d IH]; intros a Hc Hh Hl; [discriminate|].
  simpl in Hh. injection Hh as ->.
  destruct d as [|y d].
  - simpl in Hl. injection Hl as ->. lia.
  - destruct Hc as [Hstep Hc].
    apply leftmost_step_terminals in Hstep.
    specialize (IH y Hc eq_refl Hl). lia.
Qed.

Lemma leftmost_step_inv G a b :
  leftmost_step G a b →
  ∃ prefix v suffix rhs,
    a = prefix ++ v :: suffix ∧ b = prefix ++ denotation rhs ++ suffix
    ∧ count_variables prefix = 0 ∧ is_upper v = true ∧ (v, rhs) ∈ rules G.
Proof.
  intros [prefix v suffix rhs Hp Hv Hr]. exists prefix, v, suffix, rhs. auto.
Qed.

Lemma is_terminal_alt s :
  is_terminal s
  = (is_lower s || is_digit s) && negb (bool_decide (s = epsilon)).
Proof.
  unfold is_terminal. case_bool_decide as He.
  - subst s. reflexivity.
  - simpl. rewrite andb_true_r, andb_true_r. apply orb_comm.
Qed.

Lemma target_ok_checks string :
  target_ok string ↔
  forallb (λ s, is_lower s || is_digit s) string = true
  ∧ forallb (λ s, negb (bool_decide (s = epsilon))) string = true.
Proof.
  unfold target_ok. induction string as [|s string IH]; simpl.
  - split; [auto | constructor].
  - rewrite Forall_cons, IH, is_terminal_alt, !andb_true_iff. tauto.
Qed.

Lemma plain_checks (x : str) :
  forallb (λ s, negb (bool_decide (s = epsilon))) x = true ↔ epsilon ∉ x.
Proof.
  induction x as [|s x IH]; simpl.
  - split; [intros _; apply not_elem_of_nil | reflexivity].
  - rewrite andb_true_iff, IH, not_elem_of_cons, negb_true_iff.
    rewrite bool_decide_eq_false. split; intros [H1 H2]; split; auto.
Qed.

(** [derive] with a target that is not made of terminals raises at the
    assertions, whatever the rest. *)
Lemma derive_bad_target fuel G current_string string bound :
  ¬ target_ok string →
  derive fuel G current_string string bound = Raise AssertionError.
Proof.
  intros Hbad. unfold derive.
  destruct (forallb (λ s, is_upper s || is_lower s || is_digit s) string);
    [simpl|reflexivity].
  destruct (forallb (λ s, negb (bool_decide (s = epsilon))) current_string);
    [simpl|reflexivity].
  destruct (forallb (λ s, is_lower s || is_digit s) string) eqn:H3;
    [simpl|reflexivity].
  destruct (forallb (λ s, negb (bool_decide (s = epsilon))) string) eqn:H4;
    [simpl|reflexivity].
  exfalso. apply Hbad, target_ok_checks. auto.
Qed.

Lemma generate_bad_target fuel G string bound :
  ¬ target_ok string → generate fuel G string bound = Raise AssertionError.
Proof.
  intros Hbad. unfold generate.
  destruct (forallb (λ s, is_lower s || is_digit s) string) eqn:H3;
    [simpl|reflexivity].
  destruct (forallb (λ s, negb (bool_decide (s = epsilon))) string) eqn:H4;
    [simpl|reflexivity].
  exfalso. apply Hbad, target_ok_checks. auto.
Qed.

(** Past its assertions, [derive] is the search with a fresh pool. *)
Lemma derive_checked fuel G current_string string bound :
  target_ok string → epsilon ∉ current_string →
  derive fuel G current_string string bound
  = match leftmost_derive fuel G current_string string bound ∅ [] with
    | Ret (derivation, _) => Ret derivation
    | Raise e => Raise e
    | Out_of_fuel => Out_of_fuel
    end.
Proof.
  intros Hok Hplain. unfold derive.
  pose proof (proj1 (target_ok_checks string) Hok) as [H3 H4].
  rewrite H3, H4, (proj2 (plain_checks current_string) Hplain).
  assert (forallb (λ s, is_upper s || is_lower s || is_digit s) string = true)
    as ->; [|reflexivity].
  rewrite forallb_forall in H3 |- *. intros s Hs. apply H3 in Hs.
  rewrite <- orb_assoc, Hs. apply orb_true_r.
Qed.

(** When [derive] returns, its assertions held. *)
Lemma derive_ret_checks fuel G current_string string bound derivation :
  derive fuel G current_string string bound = Ret derivation →
  target_ok string ∧ epsilon ∉ current_string.
Proof.
  unfold derive.
  destruct (forallb (λ s, is_upper s || is_lower s || is_digit s) string);
    [simpl|discriminate].
  destruct (forallb (λ s, negb (bool_decide (s = epsilon))) current_string)
    eqn:H2; [simpl|discriminate].
  destruct (forallb (λ s, is_lower s || is_digit s) string) eqn:H3;
    [simpl|discriminate].
  destruct (forallb (λ s, negb (bool_decide (s = epsilon))) string) eqn:H4;
    [simpl|discriminate].
  intros _. split; [apply target_ok_checks; auto | apply plain_checks, H2].
Qed.

Lemma generate_derive fuel G string bound derivation :
  generate fuel G string bound = Ret derivation →
  derive fuel G [start_variable G] string bound = Ret derivation.
Proof.
  unfold generate.
  destruct (forallb (λ s, is_lower s || is_digit s) string);
    [simpl|discriminate].
  destruct (forallb (λ s, negb (bool_decide (s = epsilon))) string);
    [simpl|discriminate].
  auto.
Qed.

Lemma generate_checked fuel G string bound :
  target_ok string →
  generate fuel G string bound
  = derive fuel G [start_variable G] string bound.
Proof.
  intros Hok. unfold generate.
  pose proof (proj1 (target_ok_checks string) Hok) as [H3 H4].
  rewrite H3, H4. reflexivity.
Qed.

(** What [derive] returns is a leftmost derivation within the bound. *)
Lemma derive_sound fuel G current_string string bound derivation :
  derive fuel G current_string string bound = Ret derivation →
  derivation ≠ [] →
  bounded_leftmost_derivation G bound current_string string derivation.
Proof.
  intros Hd Hne.
  destruct (derive_ret_checks _ _ _ _ _ _ Hd) as [Hok Hplain].
  rewrite derive_checked in Hd by assumption.
  destruct (leftmost_derive fuel G current_string string bound ∅ [])
    as [[d pool']| |] eqn:Hs; try discriminate.
  injection Hd as ->.
  assert (remove_epsilons string = string) as Htp
    by apply target_ok_counts, Hok.
  apply (fresh_search_result G string bound Htp) in Hs. simpl in Hs.
  destruct derivation as [|d0 d]; [congruence|].
  apply (trail_derivation G string bound Htp) in Hs.
  rewrite (remove_epsilons_plain current_string Hplain) in Hs. exact Hs.
Qed.

Section Completeness.

Variables (G : CFG) (target : str) (bound : Z).
Hypothesis G_ok : well_formed G.
Hypothesis target_terminals : target_ok target.

(** A leftmost derivation within the bound is a trail of the search:
    neither prune cuts it. *)
Lemma derivation_trail d :
  ∀ x, bounded_leftmost_derivation G bound (remove_epsilons x) target d →
       trail G target bound x d.
Proof.
  destruct (target_ok_counts target target_terminals) as (Htc & Htv & Htp).
  induction d as [|a d IH]; intros x (Hhd & Hlast & Hchain & Hall);
    [discriminate|].
  simpl in Hhd. injection Hhd as ->.
  apply Forall_cons in Hall as [Hb Hall].
  rewrite count_variables_remove_epsilons in Hb.
  assert (admitted target bound x) as Hadm.
  { split; [exact Hb|]. rewrite Htp, <- Htc.
    eapply chain_terminals; [exact Hchain|reflexivity|exact Hlast]. }
  destruct d as [|b d].
  - simpl in Hlast. injection Hlast as Heq. constructor.
    split; [exact Hadm|]. rewrite Htp, Heq. auto.
  - destruct Hchain as [Hstep Hchain].
    apply leftmost_step_inv in Hstep
      as (prefix & v & suffix & rhs & Hx & Hy & Hp & Hv & Hr).
    symmetry in Hx, Hy.
    pose proof (remove_epsilons_free x) as Hfree. rewrite <- Hx in Hfree.
    assert (remove_epsilons (prefix ++ rhs ++ suffix) = b) as Hraw.
    { rewrite !remove_epsilons_app.
      rewrite (remove_epsilons_plain prefix)
        by (intros Hin; apply Hfree; apply elem_of_app; auto).
      rewrite (remove_epsilons_plain suffix)
        by (intros Hin; apply Hfree; apply elem_of_app; right; right;
            exact Hin).
      exact Hy. }
    apply (trail_expand G target bound x (prefix ++ rhs ++ suffix)).
    + split; [exact Hadm|]. split.
      * rewrite <- Hx. pose proof (terminals_bounded (prefix ++ v :: suffix)).
        rewrite count_variables_app in H. simpl in H. rewrite Hv in H. lia.
      * exists v, (filter (λ r : rule, r.1 = v) (rules G)), (v, rhs).
        rewrite <- Hx. split; [apply find_leftmost_variable_app; assumption|].
        split.
        -- unfold find_rules.
           rewrite bool_decide_eq_true_2
             by (eapply (wf_lhs G G_ok); exact Hr).
           reflexivity.
        -- split; [apply list_elem_of_filter; auto|].
           unfold apply_rule. rewrite bool_decide_eq_true_2 by set_solver.
           simpl. rewrite replace_first_app
             by (apply no_variable_not_elem; assumption).
           reflexivity.
    + apply IH. rewrite Hraw.
      split; [reflexivity|]. split; [exact Hlast|]. split; assumption.
Qed.

(** From a current string made of variables of the grammar and
    terminals, [derive] returns once it has enough fuel, and what it
    returns is non-empty exactly when a leftmost derivation within the
    bound exists. *)
Lemma derive_exact current_string :
  sentential G current_string →
  ∃ fuel0, ∀ fuel, fuel0 ≤ fuel →
    ∃ derivation,
      derive fuel G current_string target bound = Ret derivation
      ∧ (derivation ≠ [] ↔
         ∃ d, bounded_leftmost_derivation G bound current_string target d).
Proof.
  intros Hsent.
  destruct (target_ok_counts target target_terminals) as (Htc & Htv & Htp).
  assert (raw G current_string ∧ epsilon ∉ current_string) as [Hraw Hplain].
  { unfold sentential, raw in *. rewrite Forall_forall in Hsent.
    split.
    - apply Forall_forall. intros s Hs. destruct (Hsent s Hs); auto.
    - intros Hin. destruct (Hsent _ Hin) as [H|H].
      + apply (wf_variables G G_ok) in H. discriminate H.
      + discriminate H. }
  set (N := length_bound G target bound current_string).
  exists (S (size (universe N))). intros fuel Hfuel.
  destruct (leftmost_derive_total G target bound G_ok target_terminals N)
    with (fuel := fuel) (x := current_string) (pool := (∅ : pool_t))
         (current_derivation := @nil str)
    as ([d pool'] & Hs & _ & _).
  - unfold N, length_bound. rewrite Htp. lia.
  - exact Hraw.
  - unfold N, length_bound. lia.
  - set_solver.
  - eapply Nat.le_lt_trans; [apply subseteq_size|]; [|exact Hfuel].
    set_solver.
  - exists d. rewrite derive_checked, Hs by assumption.
    split; [reflexivity|].
    pose proof (fresh_search_result G target bound Htp _ _ _ Hs) as Hres.
    simpl in Hres. split.
    + intros Hne. exists d. destruct d as [|d0 d]; [congruence|].
      apply (trail_derivation G target bound Htp) in Hres.
      rewrite (remove_epsilons_plain _ Hplain) in Hres. exact Hres.
    + intros [d' Hd'] ->.
      apply (Hres d'). apply derivation_trail.
      rewrite (remove_epsilons_plain _ Hplain). exact Hd'.
Qed.

End Completeness.

End CfgExact.

(* ================================================================== *)
(** * The derivation engine: the statements of the specification *)
(* ================================================================== *)

Section CfgClaims.
Import Cfg.

(** C1.  For a grammar that the constructor accepted and a target made
    of terminals, [generate] returns once it has enough fuel, and it
    returns a non-empty derivation exactly when the target has a
    leftmost derivation from the start variable in which no string has
    more than the given number of variable occurrences: neither the
    shared visited set nor the prune on terminal counts loses such a
    derivation. *)
Theorem generate_exact_within_bound
    (variables terminals : gset ascii) (rules : list rule)
    (start_variable : ascii) (G : CFG) (string : str) (bound : Z) :
  init variables terminals rules start_variable = inr G →
  target_ok string →
  ∃ fuel0, ∀ fuel, fuel0 ≤ fuel →
    ∃ derivation,
      generate fuel G string bound = Ret derivation
      ∧ (derivation ≠ [] ↔
         ∃ d, bounded_leftmost_derivation G bound [Cfg.start_variable G]
                string d).
Proof.
  intros Hinit Hok. apply init_well_formed in Hinit as Hwf.
  destruct (derive_exact G string bound Hwf Hok [Cfg.start_variable G])
    as (fuel0 & Hfuel).
  { constructor; [|constructor]. left. apply (wf_start G Hwf). }
  exists fuel0. intros fuel Hle. rewrite generate_checked by exact Hok.
  apply Hfuel, Hle.
Qed.

(** C3.  A non-empty sequence returned by [derive] begins at the string
    the derivation was asked from, which is the start variable when the
    query goes through [generate]; it ends at the target; and each of
    its strings gives the next one by rewriting its leftmost variable
    occurrence, and only it, by the right-hand side of a rule for that
    variable. *)
Theorem derive_returns_leftmost_derivation
    (fuel : nat) (G : CFG) (current_string string : str) (bound : Z)
    (derivation : list str) :
  (derive fuel G current_string string bound = Ret derivation →
   derivation ≠ [] →
   head derivation = Some current_string
   ∧ last derivation = Some string
   ∧ chain (leftmost_step G) derivation)
  ∧ (generate fuel G string bound = Ret derivation →
     derivation ≠ [] →
     head derivation = Some [start_variable G]
     ∧ last derivation = Some string
     ∧ chain (leftmost_step G) derivation).
Proof.
  split.
  - intros Hd Hne. destruct (derive_sound _ _ _ _ _ _ Hd Hne) as (H & H' & H'' & _).
    auto.
  - intros Hg Hne. apply generate_derive in Hg.
    destruct (derive_sound _ _ _ _ _ _ Hg Hne) as (H & H' & H'' & _). auto.
Qed.

(** The current string of a call that returns is in the pool the call
    leaves, as it was passed. *)
Lemma leftmost_derive_records (fuel : nat) (G : CFG) (x string : str)
    (bound : Z) (pool : pool_t) (current_derivation : list str)
    (result : list str * pool_t) :
  leftmost_derive fuel G x string bound pool current_derivation = Ret result →
  x ∈ result.2.
Proof.
  destruct fuel as [|fuel]; [discriminate|]. simpl.
  case_bool_decide as Hin; [intros [= <-]; exact Hin|].
  destruct (_ <? _)%Z; [intros [= <-]; set_solver|].
  destruct (negb _); [discriminate|].
  case_bool_decide; [intros [= <-]; set_solver|].
  case_bool_decide.
  { case_bool_decide; intros [= <-]; set_solver. }
  destruct (find_leftmost_variable _); [|discriminate].
  destruct (find_rules G _) as [|rs]; [discriminate|].
  intros Htry.
  apply (try_rules_post G (remove_epsilons string) bound
           (remove_epsilons_idemp string) _ _
           (current_derivation ++ [remove_epsilons x])) in Htry.
  - destruct Htry as [Hsub _]. set_solver.
  - intros y p r Hr.
    apply (leftmost_derive_post G (remove_epsilons string) bound
             (remove_epsilons_idemp string)) in Hr.
    exact Hr.
Qed.

(** C6, as the code has it.  [leftmost_derive] tests the visited set
    with the current string as it was passed, epsilons included, and it
    is that string which it adds to the set; the variable occurrences
    are counted before the epsilons are stripped too, which gives the
    same number as after; the target is stripped before anything is
    compared with it, and the comparison that ends a search is made
    between the stripped current string and the stripped target. *)
Theorem visited_test_precedes_stripping :
  (∀ fuel G (x string : str) (bound : Z) (pool : pool_t)
     (current_derivation : list str),
     x ∈ pool →
     leftmost_derive (S fuel) G x string bound pool current_derivation
     = Ret ([], pool))
  ∧ (∀ fuel G (x string : str) (bound : Z) (pool : pool_t)
       (current_derivation : list str) (result : list str * pool_t),
       leftmost_derive fuel G x string bound pool current_derivation
       = Ret result →
       x ∈ result.2)
  ∧ (∀ x, count_variables (remove_epsilons x) = count_variables x)
  ∧ (∀ fuel G (x string : str) (bound : Z) (pool : pool_t)
       (current_derivation : list str),
       leftmost_derive fuel G x (remove_epsilons string) bound pool
         current_derivation
       = leftmost_derive fuel G x string bound pool current_derivation)
  ∧ (∀ fuel G (x string : str) (bound : Z) (pool : pool_t)
       (current_derivation : list str),
       x ∉ pool →
       (Z.of_nat (count_variables x) ≤ bound)%Z →
       target_ok (remove_epsilons string) →
       remove_epsilons x = remove_epsilons string →
       leftmost_derive (S fuel) G x string bound pool current_derivation
       = Ret (current_derivation ++ [remove_epsilons x], {[x]} ∪ pool)).
Proof.
  split; [|split; [|split; [|split]]].
  - intros fuel G x string bound pool current_derivation Hin. simpl.
    rewrite bool_decide_eq_true_2 by exact Hin. reflexivity.
  - intros. eapply leftmost_derive_records; eassumption.
  - apply count_variables_remove_epsilons.
  - intros fuel G x string bound pool current_derivation.
    destruct fuel as [|fuel]; [reflexivity|]. simpl.
    rewrite remove_epsilons_idemp. reflexivity.
  - intros fuel G x string bound pool current_derivation Hin Hb Hok Heq.
    destruct (target_ok_counts _ Hok) as (Htc & _ & _).
    simpl. rewrite bool_decide_eq_false_2 by exact Hin.
    destruct (bound <? Z.of_nat (count_variables x))%Z eqn:E; [zbool; lia|].
    rewrite (bool_decide_eq_true_2 _ (eq_sym Htc)). simpl.
    rewrite Heq, Htc.
    rewrite bool_decide_eq_false_2 by lia.
    rewrite bool_decide_eq_true_2 by reflexivity.
    rewrite bool_decide_eq_true_2 by reflexivity. reflexivity.
Qed.

(** C9.  [derive] and [generate] raise an assertion error whenever the
    target holds a character that is not a lowercase letter or a digit,
    or holds the epsilon character.  With a target made of terminals, a
    grammar the constructor accepted and, for [derive], a current string
    made of variables of the grammar and terminals, they return once
    they have enough fuel, and they return the empty list when the
    target has no leftmost derivation within the bound. *)
Theorem malformed_target_raises_no_derivation_returns_empty :
  (∀ fuel G current_string string bound,
     Exists (λ s, (is_lower s || is_digit s) = false ∨ s = epsilon) string →
     derive fuel G current_string string bound = Raise AssertionError
     ∧ generate fuel G string bound = Raise AssertionError)
  ∧ (∀ variables terminals rules start G current_string string bound,
       init variables terminals rules start = inr G →
       target_ok string →
       (sentential G current_string →
        ∃ fuel0, ∀ fuel, fuel0 ≤ fuel →
          ∃ derivation,
            derive fuel G current_string string bound = Ret derivation
            ∧ ((¬ ∃ d, bounded_leftmost_derivation G bound current_string
                         string d) →
               derivation = []))
       ∧ ∃ fuel0, ∀ fuel, fuel0 ≤ fuel →
           ∃ derivation,
             generate fuel G string bound = Ret derivation
             ∧ ((¬ ∃ d, bounded_leftmost_derivation G bound
                          [start_variable G] string d) →
                derivation = [])).
Proof.
  split.
  - intros fuel G current_string string bound Hbad.
    assert (¬ target_ok string) as Hnot.
    { intros Hok. apply Exists_exists in Hbad as (s & Hs & Hb).
      unfold target_ok in Hok. rewrite Forall_forall in Hok.
      specialize (Hok s Hs). rewrite is_terminal_alt in Hok.
      apply andb_true_iff in Hok as [H1 H2]. destruct Hb as [Hb| ->].
      - congruence.
      - discriminate H2. }
    split; [apply derive_bad_target | apply generate_bad_target]; exact Hnot.
  - intros variables terminals rules start G current_string string bound
      Hinit Hok.
    apply init_well_formed in Hinit as Hwf.
    assert (∀ c, sentential G c →
              ∃ fuel0, ∀ fuel, fuel0 ≤ fuel →
                ∃ derivation,
                  derive fuel G c string bound = Ret derivation
                  ∧ ((¬ ∃ d, bounded_leftmost_derivation G bound c string d) →
                     derivation = [])) as Hderive.
    { intros c Hc.
      destruct (derive_exact G string bound Hwf Hok c Hc) as (fuel0 & Hfuel).
      exists fuel0. intros fuel Hle.
      destruct (Hfuel fuel Hle) as (derivation & Hd & Hiff).
      exists derivation. split; [exact Hd|]. intros Hnone.
      destruct derivation as [|d0 d]; [reflexivity|].
      exfalso. apply Hnone, Hiff. discriminate. }
    split; [apply Hderive|].
    destruct (Hderive [start_variable G]) as (fuel0 & Hfuel).
    { constructor; [|constructor]. left. apply (wf_start G Hwf). }
    exists fuel0. intros fuel Hle. rewrite generate_checked by exact Hok.
    apply Hfuel, Hle.
Qed.

End CfgClaims.

(* ================================================================== *)
(** * The statements on concrete instances *)
(* ================================================================== *)

Section Instances.

Lemma tm_constructor_enforces_determinism_witness :
  ∃ e, Tm.init {[ "q"; "accept" ]} {[ "."; "0"; "1" ]} clashing_transitions "q"
       = inl e
       ∧ Tm.message e ≠ "".
Proof.
  apply (proj1 (tm_constructor_enforces_determinism
                  {[ "q"; "accept" ]} {[ "."; "0"; "1" ]}
                  clashing_transitions "q")).
  exists ("q", "0", "1", "r", "accept"), ("q", "0", "0", "l", "q").
  split; [left|]. split; [right; left|].
  split; [discriminate|]. split; reflexivity.
Defined.

Lemma tm_head_stays_on_tape_witness :
  Tm.accepts 5 left_then_accept "1" = Ret true
  ∧ ∀ fuel e, Tm.accepts fuel left_then_accept "1" ≠ Raise e.
Proof.
  split; [vm_compute; reflexivity|].
  apply (proj2 (proj2 (proj2 (proj2 (proj2
           (tm_head_stays_on_tape left_then_accept "1")))))).
Defined.

Lemma npda_accepts_iff_accepting_run_witness :
  (true = true ↔
   Npda.language nested_automaton (list_ascii_of_string "0011"))
  ∧ (false = true ↔
     Npda.language nested_automaton (list_ascii_of_string "10")).
Proof.
  split.
  - apply (npda_accepts_iff_accepting_run nested_automaton
             (list_ascii_of_string "0011") 10 true).
    vm_compute. reflexivity.
  - apply (npda_accepts_iff_accepting_run nested_automaton
             (list_ascii_of_string "10") 10 false).
    vm_compute. reflexivity.
Defined.

(** C7 as the specification states it fails: a transition that reads a
    symbol and pops one without pushing takes two off the sum of the
    lengths of the remaining input and of the stack. *)
Lemma npda_step_weight_counterexample :
  Npda.fire
    (list_ascii_of_string "q1", "1", "0", "e", list_ascii_of_string "q1")%char
    (Npda.mkConfig (list_ascii_of_string "q1") (list_ascii_of_string "1")
       (list_ascii_of_string "$0"))
  = Some (Npda.mkConfig (list_ascii_of_string "q1") []
            (list_ascii_of_string "$"))
  ∧ (Npda.weight (Npda.mkConfig (list_ascii_of_string "q1") []
                    (list_ascii_of_string "$"))
     - Npda.weight (Npda.mkConfig (list_ascii_of_string "q1")
                      (list_ascii_of_string "1") (list_ascii_of_string "$0"))
     = -2)%Z
  ∧ ¬ (∀ t c c', Npda.fire t c = Some c' →
                 (Z.abs (Npda.weight c' - Npda.weight c) ≤ 1)%Z).
Proof.
  split; [reflexivity|]. split; [reflexivity|].
  intros H.
  specialize (H (list_ascii_of_string "q1", "1", "0", "e",
                 list_ascii_of_string "q1")%char
                (Npda.mkConfig (list_ascii_of_string "q1")
                   (list_ascii_of_string "1") (list_ascii_of_string "$0"))
                _ eq_refl).
  vm_compute in H. apply H. reflexivity.
Qed.

Lemma npda_step_weight_change_witness :
  (-2 ≤ Npda.weight (Npda.mkConfig (list_ascii_of_string "q1") []
                       (list_ascii_of_string "$"))
        - Npda.weight (Npda.mkConfig (list_ascii_of_string "q1")
                         (list_ascii_of_string "1")
                         (list_ascii_of_string "$0")) ≤ 1)%Z.
Proof.
  apply (npda_step_weight_change
           (list_ascii_of_string "q1", "1", "0", "e",
            list_ascii_of_string "q1")%char
           (Npda.mkConfig (list_ascii_of_string "q1")
              (list_ascii_of_string "1") (list_ascii_of_string "$0"))
           (Npda.mkConfig (list_ascii_of_string "q1") []
              (list_ascii_of_string "$"))).
  reflexivity.
Defined.

Lemma generate_exact_within_bound_witness :
  ∃ fuel0, ∀ fuel, fuel0 ≤ fuel →
    ∃ derivation,
      Cfg.generate fuel loop_grammar (list_ascii_of_string "a") Cfg.default_max
      = Ret derivation
      ∧ (derivation ≠ [] ↔
         ∃ d, Cfg.bounded_leftmost_derivation loop_grammar Cfg.default_max
                [Cfg.start_variable loop_grammar]
                (list_ascii_of_string "a") d).
Proof.
  apply (generate_exact_within_bound {[ "A"%char ]} {[ "a"%char ]}
           (Cfg.rules loop_grammar) "A"%char loop_grammar
           (list_ascii_of_string "a") Cfg.default_max).
  - vm_compute. reflexivity.
  - repeat constructor.
Defined.

Lemma derive_returns_leftmost_derivation_witness :
  Cfg.generate 5 loop_grammar (list_ascii_of_string "a") Cfg.default_max
  = Ret (list_ascii_of_string <$> ["A"; "A"; "a"])
  ∧ Cfg.chain (Cfg.leftmost_step loop_grammar)
      (list_ascii_of_string <$> ["A"; "A"; "a"]).
Proof.
  assert (Cfg.generate 5 loop_grammar (list_ascii_of_string "a")
            Cfg.default_max
          = Ret (list_ascii_of_string <$> ["A"; "A"; "a"])) as Hg
    by (vm_compute; reflexivity).
  split; [exact Hg|].
  apply (proj2 (derive_returns_leftmost_derivation 5 loop_grammar []
                  (list_ascii_of_string "a") Cfg.default_max
                  (list_ascii_of_string <$> ["A"; "A"; "a"])) Hg).
  discriminate.
Defined.

(** C6 as the specification states it fails: with "A" already in the
    visited set, the search on "eA", which differs from it by an epsilon
    only, is not cut; and [generate] records the string "A" twice in the
    derivation it returns. *)
Lemma visited_test_counterexample :
  Cfg.remove_epsilons (list_ascii_of_string "eA")
  = Cfg.remove_epsilons (list_ascii_of_string "A")
  ∧ list_ascii_of_string "A"
    ∈ ({[ list_ascii_of_string "A" ]} : gset (list ascii))
  ∧ (∃ pool,
       Cfg.leftmost_derive 3 loop_grammar (list_ascii_of_string "eA")
         (list_ascii_of_string "a") Cfg.default_max
         {[ list_ascii_of_string "A" ]} [list_ascii_of_string "A"]
       = Ret (list_ascii_of_string <$> ["A"; "A"; "a"], pool))
  ∧ Cfg.generate 5 loop_grammar (list_ascii_of_string "a") Cfg.default_max
    = Ret (list_ascii_of_string <$> ["A"; "A"; "a"]).
Proof.
  split; [reflexivity|]. split; [apply elem_of_singleton; reflexivity|].
  split; [eexists; vm_compute; reflexivity | vm_compute; reflexivity].
Qed.

Lemma visited_test_precedes_stripping_witness :
  Cfg.leftmost_derive 1 loop_grammar (list_ascii_of_string "A")
    (list_ascii_of_string "a") Cfg.default_max
    {[ list_ascii_of_string "A" ]} []
  = Ret ([], {[ list_ascii_of_string "A" ]}).
Proof.
  apply (proj1 visited_test_precedes_stripping 0 loop_grammar
           (list_ascii_of_string "A") (list_ascii_of_string "a")
           Cfg.default_max {[ list_ascii_of_string "A" ]} []).
  apply elem_of_singleton. reflexivity.
Defined.

Lemma minimize_idempotent_on_loop_free_witness :
  Cfg.minimize (list_ascii_of_string <$> ["S"; "0S1"; "01"])
  = list_ascii_of_string <$> ["S"; "0S1"; "01"]
  ∧ Cfg.minimize (list_ascii_of_string <$> ["A"; "x"; "B"; "x"; "C"])
    = list_ascii_of_string <$> ["A"; "x"; "C"].
Proof.
  split; [|vm_compute; reflexivity].
  apply (proj1 minimize_idempotent_on_loop_free).
  repeat (constructor; [rewrite ?elem_of_cons, elem_of_nil;
                        intuition discriminate|]).
  constructor.
Defined.

Lemma malformed_target_raises_witness :
  Cfg.derive 0 loop_grammar (list_ascii_of_string "A")
    (list_ascii_of_string "ae") Cfg.default_max
  = Raise AssertionError
  ∧ Cfg.generate 0 loop_grammar (list_ascii_of_string "ae") Cfg.default_max
    = Raise AssertionError.
Proof.
  apply (proj1 malformed_target_raises_no_derivation_returns_empty).
  right. left. right. reflexivity.
Defined.

Lemma start_is_taken_from_first_line_witness :
  Cfg.read_grammar
    (list_ascii_of_string <$> ["# balanced"; ""; "S > 0S1 | SS | e"; "T > a"])
  = inr (Some "S"%char,
         [("S"%char, list_ascii_of_string "0S1");
          ("S"%char, list_ascii_of_string "SS");
          ("S"%char, list_ascii_of_string "e");
          ("T"%char, list_ascii_of_string "a")])
  ∧ Some "S"%char
    = head (clean_lines
              (list_ascii_of_string
                 <$> ["# balanced"; ""; "S > 0S1 | SS | e"; "T > a"]))
        ≫= head.
Proof.
  assert (Cfg.read_grammar
            (list_ascii_of_string
               <$> ["# balanced"; ""; "S > 0S1 | SS | e"; "T > a"])
          = inr (Some "S"%char,
                 [("S"%char, list_ascii_of_string "0S1");
                  ("S"%char, list_ascii_of_string "SS");
                  ("S"%char, list_ascii_of_string "e");
                  ("T"%char, list_ascii_of_string "a")])) as Hread
    by (vm_compute; reflexivity).
  split; [exact Hread|].
  apply (proj1 (start_is_taken_from_first_line _) _ _ Hread).
Defined.

End Instances.

(* ================================================================== *)
(** * Further properties of tm.py *)
(* ================================================================== *)

Section TmConstruction.
Import Tm.

Let key (t : transition) : string * string := (t_src t, t_read t).

Lemma check_transitions_inr_iff states alphabet seen ts :
  (∃ seen', check_transitions states alphabet seen ts = inr seen')
  ↔ (∀ t, t ∈ ts → tm_transition_ok states alphabet t)
    ∧ NoDup (key <$> ts)
    ∧ (∀ t, t ∈ ts → key t ∉ seen).
Proof.
  revert seen. induction ts as [|t ts IH]; intros seen.
  - simpl. split; [intros _|eauto].
    split; [intros t Ht; inversion Ht|].
    split; [constructor | intros t Ht; inversion Ht].
  - destruct t as [[[[source read_symbol] write_symbol] direction] destination].
    rewrite fmap_cons, NoDup_cons. simpl.
    destruct (decide (source ∈ states)) as [H1|H1];
      [rewrite (bool_decide_eq_true_2 _ H1)
      |rewrite (bool_decide_eq_false_2 _ H1); simpl;
       split; [intros [? [=]]|intros (Hall & _);
                 destruct (Hall _ (list_elem_of_here _ _)) as (? & _);
                 contradiction]].
    destruct (decide (destination ∈ states)) as [H2|H2];
      [rewrite (bool_decide_eq_true_2 _ H2)
      |rewrite (bool_decide_eq_false_2 _ H2); simpl;
       split; [intros [? [=]]|intros (Hall & _);
                 destruct (Hall _ (list_elem_of_here _ _)) as (_ & ? & _);
                 contradiction]].
    destruct (decide (read_symbol ∈ alphabet)) as [H3|H3];
      [rewrite (bool_decide_eq_true_2 _ H3)
      |rewrite (bool_decide_eq_false_2 _ H3); simpl;
       split; [intros [? [=]]|intros (Hall & _);
                 destruct (Hall _ (list_elem_of_here _ _)) as (_ & _ & ? & _);
                 contradiction]].
    destruct (decide (write_symbol ∈ alphabet)) as [H4|H4];
      [rewrite (bool_decide_eq_true_2 _ H4)
      |rewrite (bool_decide_eq_false_2 _ H4); simpl;
       split; [intros [? [=]]|intros (Hall & _);
                 destruct (Hall _ (list_elem_of_here _ _))
                   as (_ & _ & _ & ? & _);
                 contradiction]].
    destruct (decide (direction = "l" ∨ direction = "r")) as [H5|H5];
      [rewrite (bool_decide_eq_true_2 _ H5)
      |rewrite (bool_decide_eq_false_2 _ H5); simpl;
       split; [intros [? [=]]|intros (Hall & _);
                 destruct (Hall _ (list_elem_of_here _ _))
                   as (_ & _ & _ & _ & ?);
                 contradiction]].
    simpl.
    destruct (decide ((source, read_symbol) ∈ seen)) as [H6|H6];
      [rewrite (bool_decide_eq_true_2 _ H6)
      |rewrite (bool_decide_eq_false_2 _ H6)].
    { split; [intros [? [=]]|]. intros (_ & _ & Hfresh).
      exfalso. apply (Hfresh _ (list_elem_of_here _ _)). exact H6. }
    rewrite IH. split.
    + intros (Hall & Hnd & Hfresh). split; [|split].
      * intros t Ht. apply elem_of_cons in Ht as [->|Ht]; [|auto].
        repeat split; assumption.
      * split; [|exact Hnd]. intros Hin.
        apply list_elem_of_fmap in Hin as (t & Hk & Ht).
        apply (Hfresh t Ht). rewrite <- Hk.
        apply elem_of_union_l, elem_of_singleton. reflexivity.
      * intros t Ht. apply elem_of_cons in Ht as [->|Ht]; [exact H6|].
        intros Hin. apply (Hfresh t Ht). apply elem_of_union_r, Hin.
    + intros (Hall & [Hhd Hnd] & Hfresh). split; [|split].
      * intros t Ht. apply Hall. right. exact Ht.
      * exact Hnd.
      * intros t Ht Hin. apply elem_of_union in Hin as [Hin|Hin].
        -- apply elem_of_singleton in Hin. apply Hhd.
           apply list_elem_of_fmap. exists t. split; [symmetry|]; assumption.
        -- apply (Hfresh t); [right|]; assumption.
Qed.

Lemma init_accepts_iff
    (states alphabet : gset string) (ts : list transition) (start : string) :
  (∃ M, init states alphabet ts start = inr M)
  ↔ "." ∈ alphabet
    ∧ (∀ t, t ∈ ts → tm_transition_ok states alphabet t)
    ∧ NoDup (key <$> ts)
    ∧ start ∈ states ∧ "accept" ∈ states.
Proof.
  unfold init.
  destruct (decide ("." ∈ alphabet)) as [Hb|Hb];
    [rewrite (bool_decide_eq_true_2 _ Hb)
    |rewrite (bool_decide_eq_false_2 _ Hb); simpl;
     split; [intros [? [=]]|tauto]].
  simpl.
  pose proof (check_transitions_inr_iff states alphabet ∅ ts) as Hck.
  destruct (check_transitions states alphabet ∅ ts) as [e|seen'].
  { split; [intros [? [=]]|]. intros (_ & Hall & Hnd & _).
    destruct (proj2 Hck) as [? [=]].
    split; [exact Hall|]. split; [exact Hnd|].
    intros t _. apply not_elem_of_empty. }
  destruct (proj1 Hck (ex_intro _ seen' eq_refl)) as (Hall & Hnd & _).
  destruct (decide (start ∈ states)) as [Hs|Hs];
    [rewrite (bool_decide_eq_true_2 _ Hs)
    |rewrite (bool_decide_eq_false_2 _ Hs); simpl;
     split; [intros [? [=]]|tauto]].
  destruct (decide ("accept" ∈ states)) as [Ha|Ha];
    [rewrite (bool_decide_eq_true_2 _ Ha)
    |rewrite (bool_decide_eq_false_2 _ Ha); simpl;
     split; [intros [? [=]]|tauto]].
  simpl. split; [intros _|eauto]. auto.
Qed.

Lemma init_inr_record
    (states alphabet : gset string) (ts : list transition) (start : string) M :
  init states alphabet ts start = inr M → M = mkTM states alphabet ts start.
Proof.
  unfold init.
  destruct (negb (bool_decide ("." ∈ alphabet))); [discriminate|].
  destruct (check_transitions states alphabet ∅ ts); [discriminate|].
  destruct (negb (bool_decide (start ∈ states))); [discriminate|].
  destruct (negb (bool_decide ("accept" ∈ states))); [discriminate|].
  intros [= <-]. reflexivity.
Qed.

(** X1.  The constructor of a Turing machine accepts exactly the
    deterministic transition lists over the given states and alphabet
    with a blank in the alphabet and the start and accept states among
    the states, and the machine it returns holds its arguments
    unchanged. *)
Theorem tm_constructor_accepts_exactly
    (states alphabet : gset string) (ts : list transition) (start : string) :
  ((∃ M, init states alphabet ts start = inr M)
   ↔ "." ∈ alphabet
     ∧ (∀ t, t ∈ ts → tm_transition_ok states alphabet t)
     ∧ NoDup ((λ t, (t_src t, t_read t)) <$> ts)
     ∧ start ∈ states ∧ "accept" ∈ states)
  ∧ (∀ M, init states alphabet ts start = inr M →
          M = mkTM states alphabet ts start).
Proof.
  split; [apply init_accepts_iff | apply init_inr_record].
Qed.

Lemma elem_of_endpoints ts s :
  s ∈ endpoints ts ↔ ∃ t, t ∈ ts ∧ (t_src t = s ∨ t_dest t = s).
Proof.
  induction ts as [|t ts IH]; simpl.
  - split; [intros H; apply not_elem_of_empty in H; contradiction|].
    intros (t & Ht & _). inversion Ht.
  - destruct t as [[[[src rd] wr] dir] dst].
    rewrite !elem_of_union, !elem_of_singleton, IH. split.
    + intros [->|[->|(t & Ht & Hs)]].
      * eexists. split; [left|]. left. reflexivity.
      * eexists. split; [left|]. right. reflexivity.
      * exists t. split; [right|]; assumption.
    + intros (t & Ht & Hs). apply elem_of_cons in Ht as [->|Ht].
      * unfold t_src, t_dest in Hs. simpl in Hs. destruct Hs; auto.
      * right. right. eauto.
Qed.

Lemma elem_of_symbols ts s :
  s ∈ symbols ts ↔ ∃ t, t ∈ ts ∧ (t_read t = s ∨ t_write t = s).
Proof.
  induction ts as [|t ts IH]; simpl.
  - split; [intros H; apply not_elem_of_empty in H; contradiction|].
    intros (t & Ht & _). inversion Ht.
  - destruct t as [[[[src rd] wr] dir] dst].
    rewrite !elem_of_union, !elem_of_singleton, IH. split.
    + intros [->|[->|(t & Ht & Hs)]].
      * eexists. split; [left|]. left. reflexivity.
      * eexists. split; [left|]. right. reflexivity.
      * exists t. split; [right|]; assumption.
    + intros (t & Ht & Hs). apply elem_of_cons in Ht as [->|Ht].
      * unfold t_read, t_write in Hs. simpl in Hs. destruct Hs; auto.
      * right. right. eauto.
Qed.

(** X2.  [from_transitions] builds a machine exactly when some
    transition reads or writes the blank, every direction is "l" or "r",
    no two transitions share a source state and a read symbol, and the
    start state and the state "accept" each occur as the source or the
    destination of a transition; the states and the alphabet of the
    machine are the ones that occur in the transitions. *)
Theorem tm_from_transitions_accepts_exactly
    (start : string) (ts : list transition) :
  ((∃ M, from_transitions start ts = inr M)
   ↔ (∃ t, t ∈ ts ∧ (t_read t = "." ∨ t_write t = "."))
     ∧ (∀ t, t ∈ ts → t_direction t = "l" ∨ t_direction t = "r")
     ∧ NoDup ((λ t, (t_src t, t_read t)) <$> ts)
     ∧ (∃ t, t ∈ ts ∧ (t_src t = start ∨ t_dest t = start))
     ∧ (∃ t, t ∈ ts ∧ (t_src t = "accept" ∨ t_dest t = "accept")))
  ∧ (∀ M, from_transitions start ts = inr M →
          M = mkTM (endpoints ts) (symbols ts) ts start).
Proof.
  change (from_transitions start ts)
    with (init (endpoints ts) (symbols ts) ts start).
  pose proof (init_accepts_iff (endpoints ts) (symbols ts) ts start) as Hiff.
  split; [|apply init_inr_record].
  rewrite Hiff, !elem_of_endpoints, elem_of_symbols. split.
  - intros (Hb & Hall & Hnd & Hs & Ha).
    split; [exact Hb|]. split; [|auto].
    intros t Ht. apply (Hall t Ht).
  - intros (Hb & Hdir & Hnd & Hs & Ha).
    split; [exact Hb|]. split; [|auto].
    intros t Ht. split; [|split; [|split; [|split]]].
    + apply elem_of_endpoints. eauto.
    + apply elem_of_endpoints. eauto.
    + apply elem_of_symbols. eauto.
    + apply elem_of_symbols. eauto.
    + apply Hdir, Ht.
Qed.

End TmConstruction.

Section TmSimulation.
Import Tm.

Let key (t : transition) : string * string := (t_src t, t_read t).

Lemma first_applicable_cons_congr t l l' c :
  first_applicable l c = first_applicable l' c →
  first_applicable (t :: l) c = first_applicable (t :: l') c.
Proof.
  intros H. destruct t as [[[[src rd] wr] dir] dst]. simpl. rewrite H.
  reflexivity.
Qed.

Lemma first_applicable_swap x y l c :
  key x ≠ key y →
  first_applicable (x :: y :: l) c = first_applicable (y :: x :: l) c.
Proof.
  destruct x as [[[[src rd] wr] dir] dst].
  destruct y as [[[[src' rd'] wr'] dir'] dst'].
  unfold key, t_src, t_read. simpl. intros Hne.
  destruct (decide (src = c_state c)) as [Hs|Hs];
    [rewrite (bool_decide_eq_true_2 _ Hs)
    |rewrite (bool_decide_eq_false_2 _ Hs)];
  (destruct (decide (src' = c_state c)) as [Hs'|Hs'];
    [rewrite (bool_decide_eq_true_2 _ Hs')
    |rewrite (bool_decide_eq_false_2 _ Hs')]); try reflexivity.
  destruct (read_tape (c_tape c) (c_head c)) as [e|sym]; [reflexivity|].
  destruct (decide (sym = rd)) as [Hr|Hr];
    [rewrite (bool_decide_eq_true_2 _ Hr)
    |rewrite (bool_decide_eq_false_2 _ Hr)];
  (destruct (decide (sym = rd')) as [Hr'|Hr'];
    [rewrite (bool_decide_eq_true_2 _ Hr')
    |rewrite (bool_decide_eq_false_2 _ Hr')]); try reflexivity.
  exfalso. apply Hne. congruence.
Qed.

Lemma first_applicable_perm l l' c :
  l ≡ₚ l' → NoDup (key <$> l) →
  first_applicable l c = first_applicable l' c.
Proof.
  induction 1 as [|x l l' Hp IH|x y l|l l' l'' Hp IH Hp' IH']; intros Hnd.
  - reflexivity.
  - rewrite fmap_cons in Hnd. apply NoDup_cons in Hnd as [_ Hnd].
    apply first_applicable_cons_congr, IH, Hnd.
  - symmetry. apply first_applicable_swap.
    rewrite !fmap_cons in Hnd. apply NoDup_cons in Hnd as [Hy _].
    intros Heq. apply Hy. rewrite Heq. left.
  - rewrite IH by exact Hnd. apply IH'.
    rewrite <- Hp. exact Hnd.
Qed.

Lemma simulate_perm fuel M M' c :
  transitions M ≡ₚ transitions M' → NoDup (key <$> transitions M) →
  simulate fuel M' c = simulate fuel M c.
Proof.
  intros Hp Hnd. revert c. induction fuel as [|fuel IH]; intros c;
    [reflexivity|].
  simpl. unfold step.
  rewrite (first_applicable_perm _ _ c Hp Hnd).
  case_bool_decide; [reflexivity|].
  destruct (first_applicable (transitions M') c); auto.
Qed.

(** X3.  The order in which the transition set is iterated does not
    matter for a machine the constructor accepted: with the same
    transitions in any other order the constructor succeeds again, and
    the simulation gives the same result on every input with every
    fuel. *)
Theorem tm_iteration_order_irrelevant
    (states alphabet : gset string) (ts ts' : list transition)
    (start : string) (M : TM) :
  init states alphabet ts start = inr M → ts ≡ₚ ts' →
  ∃ M', init states alphabet ts' start = inr M'
        ∧ ∀ fuel s, accepts fuel M' s = accepts fuel M s.
Proof.
  intros Hinit Hp.
  pose proof (proj1 (init_accepts_iff states alphabet ts start)
                (ex_intro _ M Hinit)) as (Hb & Hall & Hnd & Hs & Ha).
  destruct (proj2 (init_accepts_iff states alphabet ts' start)) as [M' HM'].
  { split; [exact Hb|]. split; [|split; [|auto]].
    - intros t Ht. apply Hall. rewrite Hp. exact Ht.
    - rewrite <- Hp. exact Hnd. }
  exists M'. split; [exact HM'|].
  apply init_inr_record in Hinit, HM'. subst M M'.
  intros fuel s. unfold accepts. simpl. apply simulate_perm; simpl.
  - exact Hp.
  - exact Hnd.
Qed.




End TmSimulation.

Section TmReader.
Import Tm.

Lemma elem_of_set_add {A} `{EqDecision A} (x y : A) (l : list A) :
  x ∈ set_add y l ↔ x = y ∨ x ∈ l.
Proof.
  unfold set_add. destruct (decide (y ∈ l)) as [Hy|Hy].
  - split; [auto|]. intros [->|H]; assumption.
  - rewrite elem_of_app, list_elem_of_singleton. tauto.
Qed.

Lemma split_on_not_nil sep s : split_on sep s ≠ [].
Proof.
  induction s as [|a s IH]; simpl; [discriminate|].
  destruct (decide (a = sep)); [discriminate|].
  destruct (split_on sep s); [contradiction|discriminate].
Qed.

(** The transitions one line adds. *)
Lemma elem_of_line_transitions source direction destination
    (pairs : list (str * str)) ts t :
  t ∈ foldl (λ acc '(read_symbol, write_symbol),
               set_add (name source, name read_symbol, name write_symbol,
                        name direction, name destination) acc) ts pairs
  ↔ t ∈ ts ∨ ∃ r w, (r, w) ∈ pairs
                    ∧ t = (name source, name r, name w, name direction,
                           name destination).
Proof.
  revert ts. induction pairs as [|[r w] pairs IH]; intros ts; simpl.
  - split; [auto|]. intros [H|(r & w & H & _)]; [exact H|inversion H].
  - rewrite IH, elem_of_set_add. split.
    + intros [[->|H]|(r' & w' & H & ->)]; [right|left|right].
      * exists r, w. split; [left|reflexivity].
      * exact H.
      * exists r', w'. split; [right; exact H|reflexivity].
    + intros [H|(r' & w' & H & ->)]; [auto|].
      apply elem_of_cons in H as [[= -> ->]|H]; [auto|].
      right. eauto.
Qed.

Lemma read_machine_lines_spec lines start_state ts result :
  read_machine_lines lines start_state ts = inr result →
  result.1 = match start_state with
             | Some s => Some s
             | None => head lines ≫= (λ line, head (split_on ":" line))
             end
  ∧ (∀ t, t ∈ ts → t ∈ result.2)
  ∧ (∀ t, t ∈ result.2 →
          t ∈ ts ∨ t_direction t = "l" ∨ t_direction t = "r")
  ∧ (lines ≠ [] →
     ∃ t line source, t ∈ result.2 ∧ head lines = Some line
                      ∧ head (split_on ":" line) = Some source
                      ∧ t_src t = name source).
Proof.
  revert start_state ts.
  induction lines as [|line lines IH]; intros start_state ts; simpl.
  - intros [= <-]. simpl. split; [destruct start_state; reflexivity|].
    split; [auto|]. split; [auto|]. intros H. contradiction.
  - destruct (negb (bool_decide (count_char ":" line = 2))); [discriminate|].
    destruct (negb (bool_decide (count_char ">" line = 1))); [discriminate|].
    destruct (index_of ":"%char line); [|discriminate].
    destruct (index_of ">"%char line); [|discriminate].
    destruct (rindex_of ":" line); [|discriminate].
    destruct (negb (bool_decide _)); [discriminate|].
    destruct (split_on ":" line) as [|source [|read_write [|destination [|]]]]
      eqn:Hsplit; try discriminate.
    destruct (negb (bool_decide (3 ≤ length read_write))); [discriminate|].
    destruct (split_on ">" read_write) as [|lhs [|rhs [|]]]; try discriminate.
    set (read_symbols :=
           if bool_decide (","%char ∈ lhs) then split_on "," lhs else [lhs]).
    assert (read_symbols ≠ []) as Hne.
    { unfold read_symbols. case_bool_decide; [apply split_on_not_nil|].
      discriminate. }
    match goal with
    | |- context [match ?e with inl _ => _ | inr _ => _ end] =>
        destruct e as [e'|[write_symbols direction]] eqn:Hrhs
    end; [discriminate|].
    assert (length write_symbols = length read_symbols) as Hlen.
    { destruct (bool_decide (","%char ∈ rhs)).
      - destruct (split_on "," rhs) as [|w [|d [|]]]; try discriminate.
        injection Hrhs as <- <-. apply length_replicate.
      - injection Hrhs as <- <-. reflexivity. }
    destruct (decide (direction = list_ascii_of_string "l"
                      ∨ direction = list_ascii_of_string "r")) as [Hdir|Hdir];
      [rewrite (bool_decide_eq_true_2 _ Hdir)
      |rewrite (bool_decide_eq_false_2 _ Hdir)]; simpl; [|discriminate].
    intros H. apply IH in H as (Hstart & Hkeep & Hdirs & _).
    split; [rewrite Hstart; destruct start_state; reflexivity|].
    split; [|split].
    + intros t Ht. apply Hkeep, elem_of_line_transitions. left. exact Ht.
    + intros t Ht. destruct (Hdirs t Ht) as [Hin|Hd]; [|auto].
      apply elem_of_line_transitions in Hin as [Hin|(r & w & _ & ->)];
        [auto|].
      right. unfold t_direction. simpl.
      destruct Hdir as [->| ->]; auto.
    + intros _. destruct read_symbols as [|r rs]; [contradiction|].
      destruct write_symbols as [|w ws]; [discriminate|].
      exists (name source, name r, name w, name direction, name destination),
        line, source.
      split; [|auto].
      * apply Hkeep, elem_of_line_transitions. right.
        exists r, w. split; [left|reflexivity].
      * split; [reflexivity|]. split; [|reflexivity].
        rewrite Hsplit. reflexivity.
Qed.

Lemma check_transitions_inl_cases states alphabet seen ts e :
  check_transitions states alphabet seen ts = inl e →
  (∀ t, t ∈ ts → tm_transition_ok states alphabet t) →
  ∃ s r, e = Not_deterministic s r.
Proof.
  revert seen. induction ts as [|t ts IH]; intros seen; [discriminate|].
  destruct t as [[[[source read_symbol] write_symbol] direction] destination].
  intros H Hall.
  destruct (Hall _ (list_elem_of_here _ _)) as (H1 & H2 & H3 & H4 & H5).
  unfold t_src, t_dest, t_read, t_write, t_direction in *. simpl in *.
  rewrite (bool_decide_eq_true_2 _ H1), (bool_decide_eq_true_2 _ H2),
    (bool_decide_eq_true_2 _ H3), (bool_decide_eq_true_2 _ H4),
    (bool_decide_eq_true_2 _ H5) in H.
  simpl in H. case_bool_decide.
  - injection H as <-. eauto.
  - eapply IH; [exact H|]. intros t Ht. apply Hall. right. exact Ht.
Qed.

(** X5.  When [read_machine] succeeds, the start state is what precedes
    the first colon of the first line that is neither blank nor a
    comment, it is the source of one of the transitions read, and every
    transition read moves left or right; so building the machine with
    [from_transitions] can only fail for a missing blank symbol, for two
    transitions with the same source and read symbol, or for a missing
    state "accept". *)
Theorem read_machine_output (file_lines : list str) (start : string)
    (ts : list transition) :
  read_machine file_lines = inr (start, ts) →
  Some start
  = name <$> (head (clean_lines file_lines)
                ≫= (λ line, head (split_on ":" line)))
  ∧ (∃ t, t ∈ ts ∧ t_src t = start)
  ∧ (∀ t, t ∈ ts → t_direction t = "l" ∨ t_direction t = "r")
  ∧ (∀ e, from_transitions start ts = inl e →
          e = No_blank_symbol ∨ (∃ s r, e = Not_deterministic s r)
          ∨ e = No_accept_state).
Proof.
  unfold read_machine. intros H.
  destruct (read_machine_lines (clean_lines file_lines) None [])
    as [e|[[s|] ts']] eqn:Hr; try discriminate.
  injection H as <- <-.
  apply read_machine_lines_spec in Hr as (Hstart & _ & Hdirs & Hfirst).
  simpl in *.
  assert (∀ t, t ∈ ts' → t_direction t = "l" ∨ t_direction t = "r") as Hd.
  { intros t Ht. destruct (Hdirs t Ht) as [Hin|Hdir]; [inversion Hin|auto]. }
  assert (∃ t, t ∈ ts' ∧ t_src t = name s) as Hsrc.
  { destruct (clean_lines file_lines) as [|line lines]; [discriminate|].
    destruct Hfirst as (t & line' & source & Ht & Hl & Hs & Hts);
      [discriminate|].
    simpl in Hl. injection Hl as <-. simpl in Hstart.
    rewrite Hs in Hstart. injection Hstart as ->. eauto. }
  split; [rewrite <- Hstart; reflexivity|]. split; [exact Hsrc|].
  split; [exact Hd|].
  intros e.
  change (from_transitions (name s) ts')
    with (init (endpoints ts') (symbols ts') ts' (name s)).
  unfold init.
  destruct (negb (bool_decide ("." ∈ symbols ts'))); [intros [= <-]; auto|].
  destruct (check_transitions (endpoints ts') (symbols ts') ∅ ts')
    as [e'|seen] eqn:Hck.
  - intros [= <-]. right. left.
    eapply check_transitions_inl_cases; [exact Hck|].
    intros t Ht. split; [|split; [|split; [|split]]].
    + apply elem_of_endpoints. eauto.
    + apply elem_of_endpoints. eauto.
    + apply elem_of_symbols. eauto.
    + apply elem_of_symbols. eauto.
    + apply Hd, Ht.
  - rewrite bool_decide_eq_true_2.
    2:{ apply elem_of_endpoints. destruct Hsrc as (t & Ht & Hs). eauto. }
    simpl. destruct (negb (bool_decide ("accept" ∈ endpoints ts')));
      [intros [= <-]; auto | discriminate].
Qed.

End TmReader.

(* ================================================================== *)
(** * Further properties of npda.py *)
(* ================================================================== *)

Section NpdaMore.
Import Npda.

Lemma elem_of_npda_endpoints ts q :
  q ∈ npda_endpoints ts ↔ ∃ t, t ∈ ts ∧ (t.1.1.1.1 = q ∨ t.2 = q).
Proof.
  induction ts as [|t ts IH]; simpl.
  - split; [intros H; apply not_elem_of_empty in H; contradiction|].
    intros (t & Ht & _). inversion Ht.
  - destruct t as [[[[src a] pop] push] dst].
    rewrite !elem_of_union, !elem_of_singleton, IH. split.
    + intros [->|[->|(t & Ht & Hs)]].
      * eexists. split; [left|]. left. reflexivity.
      * eexists. split; [left|]. right. reflexivity.
      * exists t. split; [right|]; assumption.
    + intros (t & Ht & Hs). apply elem_of_cons in Ht as [->|Ht].
      * simpl in Hs. destruct Hs; auto.
      * right. right. eauto.
Qed.

Lemma npda_init_iff states input_alphabet stack_alphabet ts start accept :
  (∃ M, init states input_alphabet stack_alphabet ts start accept = inr M)
  ↔ start ∈ states ∧ accept ⊆ states.
Proof.
  unfold init.
  destruct (decide (start ∈ states)) as [Hs|Hs];
    [rewrite (bool_decide_eq_true_2 _ Hs)
    |rewrite (bool_decide_eq_false_2 _ Hs); simpl;
     split; [intros [? [=]]|tauto]].
  simpl.
  destruct (decide (size (accept ∖ states) = 0)) as [Ha|Ha];
    [rewrite (bool_decide_eq_true_2 _ Ha)
    |rewrite (bool_decide_eq_false_2 _ Ha)]; simpl.
  - split; [intros _|eauto]. split; [exact Hs|].
    apply size_empty_inv in Ha. intros q Hq.
    destruct (decide (q ∈ states)) as [|Hn]; [assumption|].
    exfalso. apply (not_elem_of_empty (C:=gset str) q). apply Ha.
    apply elem_of_difference. auto.
  - split; [intros [? [=]]|]. intros [_ Hsub]. exfalso. apply Ha.
    apply size_empty_iff. intros q. split.
    + intros Hq. apply elem_of_difference in Hq as [Hq Hn].
      exfalso. auto.
    + intros Hq. apply not_elem_of_empty in Hq. contradiction.
Qed.

(** X6.  [from_transitions_and_accept_states] builds an automaton
    exactly when the start state and every accept state occur as the
    source or the destination of a transition; the automaton then holds
    the transitions, the start state and the accept states it was given,
    and neither of its alphabets holds the epsilon character. *)
Theorem npda_from_transitions_accepts_exactly
    (start : str) (ts : list transition) (accept : gset str) :
  ((∃ M, from_transitions_and_accept_states start ts accept = inr M)
   ↔ (∃ t, t ∈ ts ∧ (t.1.1.1.1 = start ∨ t.2 = start))
     ∧ ∀ q, q ∈ accept → ∃ t, t ∈ ts ∧ (t.1.1.1.1 = q ∨ t.2 = q))
  ∧ (∀ M, from_transitions_and_accept_states start ts accept = inr M →
          transitions M = ts ∧ start_state M = start
          ∧ accept_states M = accept ∧ states M = npda_endpoints ts
          ∧ (epsilon ∉ input_alphabet M) ∧ (epsilon ∉ stack_alphabet M)).
Proof.
  unfold from_transitions_and_accept_states. split.
  - rewrite npda_init_iff.
    change (foldr _ ∅ ts) with (npda_endpoints ts).
    rewrite elem_of_npda_endpoints. split; intros [Hs Ha]; split;
      try exact Hs; intros q Hq; apply elem_of_npda_endpoints; auto.
  - intros M. unfold init.
    destruct (negb (bool_decide _)); [discriminate|].
    destruct (negb (bool_decide _)); [discriminate|].
    intros [= <-]. simpl. repeat split; try reflexivity.
    + induction ts as [|[[[[src a] pop] push] dst] ts IH]; simpl;
        [apply not_elem_of_empty|].
      case_bool_decide; [|exact IH].
      rewrite elem_of_union, elem_of_singleton.
      intros [Heq|Hin]; [congruence|auto].
    + induction ts as [|[[[[src a] pop] push] dst] ts IH]; simpl;
        [apply not_elem_of_empty|].
      repeat case_bool_decide;
        rewrite ?elem_of_union, ?elem_of_singleton; intuition congruence.
Qed.

Lemma moves_same_transitions M M' c c' :
  (∀ t, t ∈ transitions M → t ∈ transitions M') →
  moves M c c' → moves M' c c'.
Proof.
  intros Hsub. induction 1 as [|c c' c'' Hm Hms IH]; [constructor|].
  econstructor; [|exact IH].
  destruct Hm. constructor. auto.
Qed.

(** X7.  The answer of [accepts] does not depend on the order in which
    the transition set is iterated: two automata with the same
    transitions, start state and accept states give the same answer on
    every input on which both searches terminate. *)
Theorem npda_answer_independent_of_order (M M' : NPDA) (s : str)
    (fuel fuel' : nat) (b b' : bool) :
  (∀ t, t ∈ transitions M ↔ t ∈ transitions M') →
  start_state M = start_state M' → accept_states M = accept_states M' →
  accepts fuel M s = Ret b → accepts fuel' M' s = Ret b' → b = b'.
Proof.
  intros Hts Hstart Hacc Hb Hb'.
  apply simulate_spec in Hb, Hb'.
  assert ((∃ c, moves M (mkConfig (start_state M) s []) c ∧ accepting M c)
          ↔ ∃ c, moves M' (mkConfig (start_state M') s []) c
                 ∧ accepting M' c) as Hsame.
  { rewrite Hstart. unfold accepting. rewrite Hacc.
    split; intros (c & Hm & Hc); exists c; (split; [|exact Hc]);
      (eapply moves_same_transitions; [|exact Hm]); intros t; apply Hts. }
  destruct b, b'; try reflexivity.
  - symmetry. apply Hb', Hsame, Hb. reflexivity.
  - apply Hb, Hsame, Hb'. reflexivity.
Qed.

Lemma explore_returns rec ts c :
  (∀ t c', t ∈ ts → fire t c = Some c' → ∃ b, rec c' = Ret b) →
  ∃ b, explore rec ts c = Ret b.
Proof.
  induction ts as [|t ts IH]; intros Hrec; simpl; [eauto|].
  destruct (fire t c) as [c'|] eqn:Hf.
  - destruct (Hrec t c' (list_elem_of_here _ _) Hf) as [[] ->]; [eauto|].
    apply IH. intros t' c'' Ht'. apply Hrec. right. exact Ht'.
  - apply IH. intros t' c'' Ht'. apply Hrec. right. exact Ht'.
Qed.

Lemma fire_consumes t c c' :
  t.1.1.1.2 ≠ epsilon → fire t c = Some c' →
  S (length (cf_input c')) = length (cf_input c).
Proof.
  destruct t as [[[[src a] pop] push] dst]. simpl. intros Ha.
  unfold fire. destruct (negb (bool_decide (src = cf_state c)));
    [discriminate|].
  rewrite (bool_decide_eq_false_2 _ Ha). simpl.
  destruct (cf_input c) as [|a' input]; [discriminate|].
  destruct (negb (bool_decide (a' = a))); [discriminate|].
  destruct (_ && _); [discriminate|].
  intros [= <-]. simpl. rewrite drop_0. reflexivity.
Qed.

(** X8.  An automaton none of whose transitions has epsilon as input
    symbol cannot loop: on an input of length n the search returns with
    recursion depth n + 1, and its answer is True exactly when the input
    is in the language of the automaton. *)
Theorem npda_terminates_without_epsilon_input (M : NPDA) (s : str) :
  (∀ t, t ∈ transitions M → t.1.1.1.2 ≠ epsilon) →
  ∀ fuel, length s < fuel →
    ∃ b, accepts fuel M s = Ret b ∧ (b = true ↔ language M s).
Proof.
  intros Hno.
  assert (∀ fuel c, length (cf_input c) < fuel →
            ∃ b, simulate fuel M c = Ret b) as Hterm.
  { induction fuel as [|fuel IH]; intros c Hlen; [lia|].
    simpl. destruct (_ && _); [eauto|].
    apply explore_returns. intros t c' Ht Hf.
    apply IH. apply fire_consumes in Hf; [lia|]. apply Hno, Ht. }
  intros fuel Hlen. destruct (Hterm fuel (mkConfig (start_state M) s []))
    as [b Hb]; [exact Hlen|].
  exists b. split; [exact Hb|]. apply (simulate_spec _ _ _ _ Hb).
Qed.

Lemma simulate_no_raise fuel M c e : simulate fuel M c ≠ Raise e.
Proof.
  revert c e. induction fuel as [|fuel IH]; intros c e; [discriminate|].
  simpl. destruct (_ && _); [discriminate|].
  induction (transitions M) as [|t ts IHts]; simpl; [discriminate|].
  destruct (fire t c) as [c'|]; [|exact IHts].
  destruct (simulate fuel M c') as [[]|e'|] eqn:Hs; try discriminate.
  - exact IHts.
  - exfalso. apply (IH c' e'). exact Hs.
Qed.

Lemma fire_loop q push input stack :
  ∃ stack', fire (q, epsilon, epsilon, push, q) (mkConfig q input stack)
            = Some (mkConfig q input stack').
Proof.
  unfold fire. simpl.
  rewrite (bool_decide_eq_true_2 (q = q) eq_refl). simpl. eauto.
Qed.

(** X9.  A transition that leaves a state for the same state with
    epsilon as input symbol and as symbol to pop makes the search loop:
    from a configuration in that state the search never answers False;
    and on an input that is not in the language, with that state as
    start state, it does not return at all. *)
Theorem npda_epsilon_loop_never_rejects (M : NPDA) (q : str) (push : ascii) :
  (q, epsilon, epsilon, push, q) ∈ transitions M →
  (∀ fuel input stack, simulate fuel M (mkConfig q input stack) ≠ Ret false)
  ∧ (∀ s, start_state M = q → ¬ language M s →
          ∀ fuel, accepts fuel M s = Out_of_fuel).
Proof.
  intros Hloop.
  assert (∀ fuel input stack,
            simulate fuel M (mkConfig q input stack) ≠ Ret false) as Hnever.
  { induction fuel as [|fuel IH]; intros input stack; [discriminate|].
    simpl. destruct (_ && _); [discriminate|].
    intros He.
    destruct (fire_loop q push input stack) as [stack' Hfire].
    pose proof (explore_false _ _ _ He _ _ Hloop Hfire) as Hf.
    apply IH in Hf. exact Hf. }
  split; [exact Hnever|].
  intros s Hstart Hnot fuel. unfold accepts. rewrite Hstart.
  destruct (simulate fuel M (mkConfig q s [])) as [[]|e|] eqn:Hs.
  - exfalso. apply Hnot. rewrite <- Hstart in Hs.
    apply (simulate_spec _ _ _ _ Hs). reflexivity.
  - exfalso. apply (Hnever _ _ _ Hs).
  - exfalso. apply (simulate_no_raise _ _ _ _ Hs).
  - reflexivity.
Qed.

End NpdaMore.

(* ================================================================== *)
(** * Further properties of cfg.py *)
(* ================================================================== *)

Section CfgRewriting.
Import Cfg.

Lemma replace_first_split old new x :
  old ∈ x →
  ∃ prefix suffix, x = prefix ++ old :: suffix ∧ (old ∉ prefix)
                   ∧ replace_first old new x = prefix ++ new ++ suffix.
Proof.
  intros Hin. apply list_elem_of_split_l in Hin as (prefix & suffix & -> & Hp).
  exists prefix, suffix. split; [reflexivity|]. split; [exact Hp|].
  apply replace_first_app, Hp.
Qed.

Lemma replace_first_absent old new x :
  old ∉ x → replace_first old new x = x.
Proof.
  induction x as [|s x IH]; intros Hn; [reflexivity|].
  apply not_elem_of_cons in Hn as [Hne Hn]. simpl.
  destruct (decide (s = old)); [congruence|]. f_equal. apply IH, Hn.
Qed.

(** X10.  [_apply_rule] raises when the left-hand side does not occur in
    the current string; otherwise it rewrites its first occurrence only,
    and for a rule whose left-hand side is a variable the result has the
    terminals of the current string and of the right-hand side together,
    and one variable occurrence less than the two together: rewriting
    never removes a terminal. *)
Theorem apply_rule_accounts (current_string : str) (lhs : ascii) (rhs : str) :
  (lhs ∉ current_string →
   apply_rule current_string (lhs, rhs) = inl AssertionError)
  ∧ (lhs ∈ current_string →
     ∃ prefix suffix,
       current_string = prefix ++ lhs :: suffix ∧ (lhs ∉ prefix)
       ∧ apply_rule current_string (lhs, rhs) = inr (prefix ++ rhs ++ suffix))
  ∧ (is_upper lhs = true →
     ∀ y, apply_rule current_string (lhs, rhs) = inr y →
       count_terminals y = count_terminals current_string + count_terminals rhs
       ∧ S (count_variables y)
         = count_variables current_string + count_variables rhs).
Proof.
  split; [|split].
  - intros Hn. unfold apply_rule. rewrite (bool_decide_eq_false_2 _ Hn).
    reflexivity.
  - intros Hin. unfold apply_rule. rewrite (bool_decide_eq_true_2 _ Hin).
    simpl. destruct (replace_first_split lhs rhs _ Hin)
      as (prefix & suffix & Hx & Hp & Hr).
    exists prefix, suffix. rewrite Hr. auto.
  - intros Hu y. unfold apply_rule. case_bool_decide as Hin; [|discriminate].
    simpl. intros [= <-].
    destruct (replace_first_split lhs rhs _ Hin)
      as (prefix & suffix & -> & Hp & ->).
    rewrite !count_terminals_app, !count_variables_app. simpl.
    rewrite Hu, (upper_not_terminal lhs Hu). lia.
Qed.

Lemma chain_app_cons {A} (R : A → A → Prop) (l : list A) x k :
  chain R (l ++ x :: k) ↔ chain R (l ++ [x]) ∧ chain R (x :: k).
Proof.
  induction l as [|a l IH]; simpl.
  - tauto.
  - destruct l as [|b l]; simpl in *.
    + destruct k; tauto.
    + rewrite IH. tauto.
Qed.

Lemma collapse_chain (R : str → str → Prop) x l :
  chain R l → chain R (collapse x l).
Proof.
  intros Hc. destruct (decide (1 < count_occ_of x l)) as [Hn|Hn].
  - apply twice_split in Hn as (pre & mid & post & -> & Hpre & Hpost).
    rewrite collapse_twice by assumption.
    apply chain_app_cons in Hc as [Hc1 Hc2].
    apply chain_app_cons. split; [exact Hc1|].
    change (x :: mid ++ x :: post) with ((x :: mid) ++ x :: post) in Hc2.
    apply chain_app_cons in Hc2 as [_ Hc2]. exact Hc2.
  - rewrite collapse_once by lia. exact Hc.
Qed.

Lemma collapse_ends x l :
  head (collapse x l) = head l ∧ last (collapse x l) = last l.
Proof.
  destruct (decide (1 < count_occ_of x l)) as [Hn|Hn].
  - apply twice_split in Hn as (pre & mid & post & -> & Hpre & Hpost).
    rewrite collapse_twice by assumption. split.
    + destruct pre; reflexivity.
    + rewrite !last_app. simpl. rewrite !last_cons, last_app. simpl.
      rewrite last_cons. destruct (last post); reflexivity.
  - rewrite collapse_once by lia. auto.
Qed.

Lemma minimize_preserves (R : str → str → Prop) (todo l : list str) :
  chain R l →
  chain R (foldl (λ shorter string, collapse string shorter) l todo)
  ∧ head (foldl (λ shorter string, collapse string shorter) l todo) = head l
  ∧ last (foldl (λ shorter string, collapse string shorter) l todo) = last l.
Proof.
  revert l. induction todo as [|x todo IH]; intros l Hc; simpl; [auto|].
  destruct (IH (collapse x l)) as (H1 & H2 & H3).
  { apply collapse_chain, Hc. }
  destruct (collapse_ends x l) as [H4 H5].
  split; [exact H1|]. split; congruence.
Qed.

(** X11.  The minimization pass keeps a derivation a derivation: it
    keeps the first and the last string, and every consecutive pair of
    the result is related whenever every consecutive pair of the
    original was.  So from a non-empty derivation returned by [derive]
    it gives a leftmost derivation within the bound from the same
    string to the same target, in which no string occurs twice. *)
Theorem minimize_preserves_derivations :
  (∀ (R : str → str → Prop) derivation,
     chain R derivation →
     chain R (minimize derivation)
     ∧ head (minimize derivation) = head derivation
     ∧ last (minimize derivation) = last derivation)
  ∧ (∀ fuel G current_string string bound derivation,
       derive fuel G current_string string bound = Ret derivation →
       derivation ≠ [] →
       bounded_leftmost_derivation G bound current_string string
         (minimize derivation)
       ∧ NoDup (minimize derivation)).
Proof.
  split.
  - intros R derivation Hc. apply minimize_preserves, Hc.
  - intros fuel G current_string string bound derivation Hd Hne.
    destruct (derive_sound _ _ _ _ _ _ Hd Hne) as (Hh & Hl & Hc & Hb).
    destruct (minimize_preserves (leftmost_step G) (reverse derivation)
                derivation Hc) as (H1 & H2 & H3).
    split.
    + split; [unfold minimize; congruence|].
      split; [unfold minimize; congruence|]. split; [exact H1|].
      rewrite Forall_forall in Hb |- *. intros x Hx. apply Hb.
      destruct (minimize_counts (reverse derivation) derivation) as [Hle _].
      destruct (decide (x ∈ derivation)) as [|Hn]; [assumption|].
      exfalso. apply count_occ_of_present in Hx. specialize (Hle x).
      unfold minimize in Hx. rewrite (count_occ_of_absent x derivation Hn) in Hle.
      lia.
    + apply NoDup_count_occ_of. intros x.
      destruct (minimize_counts (reverse derivation) derivation) as [H4 H5].
      destruct (decide (x ∈ derivation)) as [Hx|Hx].
      * apply H5. rewrite elem_of_reverse. exact Hx.
      * unfold minimize. etransitivity; [apply H4|].
        rewrite count_occ_of_absent by assumption. lia.
Qed.

(** X12.  Edge cases of the search.  With a bound below 1, [generate]
    returns the empty list for every target, whatever the rules, since
    the start variable alone exceeds the bound.  A string of terminals
    derives itself in no step: [derive] from the target to the target
    returns the one-string derivation, for every bound from 0 on.  And
    a current string without variables that is not the target derives
    nothing. *)
Theorem search_edge_cases (fuel : nat) (G : CFG) (string : str) (bound : Z) :
  target_ok string →
  (is_upper (start_variable G) = true → (bound < 1)%Z →
   generate (S fuel) G string bound = Ret [])
  ∧ ((0 ≤ bound)%Z → derive (S fuel) G string string bound = Ret [string])
  ∧ (∀ other, target_ok other → other ≠ string →
       derive (S fuel) G other string bound = Ret []).
Proof.
  intros Hok.
  destruct (target_ok_counts string Hok) as (Htc & Htv & Htp).
  split; [|split].
  - intros Hu Hb. rewrite generate_checked by exact Hok.
    rewrite derive_checked; [|exact Hok|].
    2:{ intros Hin. apply list_elem_of_singleton in Hin.
        rewrite <- Hin in Hu. discriminate Hu. }
    simpl. rewrite (bool_decide_eq_false_2 _ (not_elem_of_empty _)).
    rewrite Hu. simpl.
    destruct (bound <? Z.of_nat 1)%Z eqn:E; [reflexivity|zbool; lia].
  - intros Hb. rewrite derive_checked; [|exact Hok|].
    2:{ rewrite <- Htp. apply remove_epsilons_free. }
    simpl. rewrite (bool_decide_eq_false_2 _ (not_elem_of_empty _)).
    rewrite Htv, Htp, Htc.
    rewrite ?(bool_decide_eq_true_2 (length string = length string) eq_refl).
    simpl. rewrite ?bool_decide_eq_false_2 by lia.
    rewrite ?(bool_decide_eq_true_2 (string = string) eq_refl).
    destruct (bound <? Z.of_nat 0)%Z eqn:E; [zbool; lia|reflexivity].
  - intros other Hother Hne.
    destruct (target_ok_counts other Hother) as (Hoc & Hov & Hop).
    rewrite derive_checked; [|exact Hok|].
    2:{ rewrite <- Hop. apply remove_epsilons_free. }
    simpl. rewrite (bool_decide_eq_false_2 _ (not_elem_of_empty _)).
    rewrite Hov, Htp, Hop, Htc, Hoc.
    rewrite ?(bool_decide_eq_true_2 (length string = length string) eq_refl).
    rewrite ?(bool_decide_eq_true_2 (length other = length other) eq_refl).
    rewrite ?(bool_decide_eq_false_2 _ Hne). simpl.
    destruct (bound <? Z.of_nat 0)%Z; [reflexivity|].
    case_bool_decide; reflexivity.
Qed.

End CfgRewriting.

Section CfgConstruction.
Import Cfg.

Lemma forallb_elements (f : ascii → bool) (X : gset ascii) :
  forallb f (elements X) = true ↔ ∀ x, x ∈ X → f x = true.
Proof.
  rewrite forallb_forall. split.
  - intros H x Hx. apply H, list_elem_of_In, elem_of_elements, Hx.
  - intros H x Hx. apply H, elem_of_elements, list_elem_of_In, Hx.
Qed.

Lemma rhs_ok_iff variables terminals rhs :
  rhs_ok variables terminals rhs = true
  ↔ ∀ s, s ∈ rhs → s = epsilon ∨ s ∈ variables ∨ s ∈ terminals.
Proof.
  unfold rhs_ok. rewrite forallb_forall. split.
  - intros H s Hs. apply list_elem_of_In, H, bool_decide_eq_true in Hs.
    rewrite !elem_of_union, elem_of_singleton in Hs. exact Hs.
  - intros H s Hs. apply bool_decide_eq_true.
    rewrite !elem_of_union, elem_of_singleton. apply H, list_elem_of_In, Hs.
Qed.

Lemma rules_check_iff (variables terminals : gset ascii) (rules : list rule) :
  forallb (λ '(lhs, rhs),
             bool_decide (lhs ∈ variables) && rhs_ok variables terminals rhs)
    rules = true
  ↔ ∀ lhs rhs, (lhs, rhs) ∈ rules →
      lhs ∈ variables
      ∧ ∀ s, s ∈ rhs → s = epsilon ∨ s ∈ variables ∨ s ∈ terminals.
Proof.
  rewrite forallb_forall. split.
  - intros H lhs rhs Hr. apply list_elem_of_In, H in Hr.
    apply andb_true_iff in Hr as [H1 H2].
    apply bool_decide_eq_true in H1.
    split; [exact H1 | exact (proj1 (rhs_ok_iff _ _ _) H2)].
  - intros H [lhs rhs] Hr. apply list_elem_of_In, H in Hr as [H1 H2].
    apply andb_true_iff. split; [apply bool_decide_eq_true, H1|].
    exact (proj2 (rhs_ok_iff _ _ _) H2).
Qed.

Lemma coverage_check_iff (variables : gset ascii) (rules : list rule) :
  forallb (λ variable,
             existsb (λ '(lhs, _), bool_decide (variable = lhs)) rules)
    (elements variables) = true
  ↔ ∀ v, v ∈ variables → ∃ rhs, (v, rhs) ∈ rules.
Proof.
  rewrite forallb_elements. split.
  - intros H v Hv. apply H, existsb_exists in Hv as ([lhs rhs] & Hr & Hl).
    apply bool_decide_eq_true in Hl. subst lhs.
    exists rhs. apply list_elem_of_In, Hr.
  - intros H v Hv. destruct (H v Hv) as [rhs Hr].
    apply existsb_exists. exists (v, rhs).
    split; [apply list_elem_of_In, Hr | apply bool_decide_eq_true; reflexivity].
Qed.

Lemma cfg_init_iff variables terminals rules start_variable :
  (∃ G, init variables terminals rules start_variable = inr G)
  ↔ grammar_ok variables terminals rules start_variable.
Proof.
  unfold init, grammar_ok.
  destruct (decide (start_variable ∈ variables)) as [H1|H1];
    [rewrite (bool_decide_eq_true_2 _ H1)
    |rewrite (bool_decide_eq_false_2 _ H1); simpl;
     split; [intros [? [=]]|tauto]].
  simpl.
  destruct (decide (size (variables ∩ terminals) = 0)) as [H2|H2];
    [rewrite (bool_decide_eq_true_2 _ H2)
    |rewrite (bool_decide_eq_false_2 _ H2); simpl].
  2:{ split; [intros [? [=]]|]. intros (_ & Hd & _). exfalso. apply H2.
      apply size_empty_iff. intros x. split.
      - intros Hx. apply elem_of_intersection in Hx as [Hv Ht].
        exfalso. apply (Hd x Hv Ht).
      - intros Hx. apply not_elem_of_empty in Hx. contradiction. }
  assert (∀ s, s ∈ variables → s ∉ terminals) as H2'.
  { apply size_empty_inv in H2. intros s Hv Ht.
    apply (not_elem_of_empty (C:=gset ascii) s). apply H2.
    apply elem_of_intersection. auto. }
  simpl.
  destruct (decide (epsilon ∈ terminals)) as [H3|H3];
    [rewrite (bool_decide_eq_true_2 _ H3); split; [intros [? [=]]|tauto]
    |rewrite (bool_decide_eq_false_2 _ H3)].
  pose proof (forallb_elements is_upper variables) as H4.
  destruct (forallb is_upper (elements variables)); simpl;
    [|split; [intros [? [=]]|]; intros (_ & _ & _ & H & _);
      apply H4 in H; discriminate].
  pose proof (forallb_elements (λ s, is_lower s || is_digit s) terminals)
    as H5.
  destruct (forallb (λ s, is_lower s || is_digit s) (elements terminals));
    simpl; [|split; [intros [? [=]]|]; intros (_ & _ & _ & _ & H & _);
             apply H5 in H; discriminate].
  pose proof (rules_check_iff variables terminals rules) as H6.
  match goal with
  | |- context [forallb ?f rules] => destruct (forallb f rules)
  end; simpl;
    [|split; [intros [? [=]]|]; intros (_ & _ & _ & _ & _ & H & _);
      apply H6 in H; discriminate].
  pose proof (coverage_check_iff variables rules) as H7.
  match goal with
  | |- context [negb ?b] => destruct b
  end; simpl;
    [|split; [intros [? [=]]|]; intros (_ & _ & _ & _ & _ & _ & H);
      apply H7 in H; discriminate].
  split; [intros _|eauto].
  split; [exact H1|]. split; [exact H2'|]. split; [exact H3|].
  split; [apply H4; reflexivity|]. split; [apply H5; reflexivity|].
  split; [apply H6; reflexivity | apply H7; reflexivity].
Qed.

Lemma cfg_init_record variables terminals rules start_variable G :
  init variables terminals rules start_variable = inr G →
  G = mkCFG variables terminals rules start_variable.
Proof.
  unfold init.
  repeat match goal with
         | |- context [if ?b then inl AssertionError else _] =>
             destruct b; [discriminate|]
         end.
  intros [= <-]. reflexivity.
Qed.

Lemma collect_terminals_spec rhs (terminals : gset ascii) :
  match collect_terminals rhs terminals with
  | inl _ => ∃ s, s ∈ rhs ∧ letter_or_digit s = false
  | inr terminals' =>
      (∀ s, s ∈ rhs → letter_or_digit s = true)
      ∧ ∀ s, s ∈ terminals' ↔ s ∈ terminals ∨ (s ∈ rhs ∧ is_terminal s = true)
  end.
Proof.
  revert terminals. induction rhs as [|a rhs IH]; intros terminals; simpl.
  - split; [intros s Hs; inversion Hs|].
    intros s. split; [auto|]. intros [H|[H _]]; [exact H|inversion H].
  - destruct (bool_decide (a = epsilon) || is_upper a) eqn:Hskip.
    + specialize (IH terminals).
      destruct (collect_terminals rhs terminals) as [e|terminals'].
      * destruct IH as (s & Hs & Hbad). exists s. split; [right|]; assumption.
      * destruct IH as [Hall Hmem]. split.
        -- intros s Hs. apply elem_of_cons in Hs as [->|Hs]; [|auto].
           apply orb_true_iff in Hskip as [He|Hu].
           ++ apply bool_decide_eq_true in He. subst a. reflexivity.
           ++ unfold letter_or_digit. rewrite Hu. reflexivity.
        -- intros s. rewrite Hmem, elem_of_cons. split; [tauto|].
           intros [H|[[->|H] Ht]]; [auto| |auto].
           exfalso. apply orb_true_iff in Hskip as [He|Hu].
           ++ apply bool_decide_eq_true in He. subst a. discriminate Ht.
           ++ apply upper_not_terminal in Hu. congruence.
    + apply orb_false_iff in Hskip as [He Hu].
      apply bool_decide_eq_false in He.
      destruct (is_lower a || is_digit a) eqn:Hld.
      * specialize (IH ({[a]} ∪ terminals)).
        destruct (collect_terminals rhs ({[a]} ∪ terminals)) as [e|terminals'].
        -- destruct IH as (s & Hs & Hbad). exists s.
           split; [right|]; assumption.
        -- destruct IH as [Hall Hmem]. split.
           ++ intros s Hs. apply elem_of_cons in Hs as [->|Hs]; [|auto].
              unfold letter_or_digit. rewrite <- orb_assoc, Hld.
              apply orb_true_r.
           ++ intros s. rewrite Hmem, elem_of_union, elem_of_singleton,
                elem_of_cons.
              assert (is_terminal a = true) as Hta.
              { rewrite is_terminal_alt, Hld.
                rewrite (bool_decide_eq_false_2 _ He). reflexivity. }
              split; [intros [[->|H]|[H Ht]]; auto|].
              intros [H|[[->|H] Ht]]; auto.
      * exists a. split; [left|]. unfold letter_or_digit.
        rewrite Hu. exact Hld.
Qed.

Lemma collect_symbols_spec rs (variables terminals : gset ascii) :
  match collect_symbols rs variables terminals with
  | inl _ => ∃ lhs rhs s, (lhs, rhs) ∈ rs ∧ s ∈ rhs ∧ letter_or_digit s = false
  | inr (variables', terminals') =>
      (∀ lhs rhs s, (lhs, rhs) ∈ rs → s ∈ rhs → letter_or_digit s = true)
      ∧ (∀ v, v ∈ variables' ↔ v ∈ variables ∨ ∃ rhs, (v, rhs) ∈ rs)
      ∧ (∀ s, s ∈ terminals' ↔
              s ∈ terminals
              ∨ ∃ lhs rhs, (lhs, rhs) ∈ rs ∧ s ∈ rhs ∧ is_terminal s = true)
  end.
Proof.
  revert variables terminals.
  induction rs as [|[lhs rhs] rs IH]; intros variables terminals; simpl.
  - split; [intros ? ? ? H; inversion H|]. split.
    + intros v. split; [auto|]. intros [H|[? H]]; [exact H|inversion H].
    + intros s. split; [auto|].
      intros [H|(? & ? & H & _)]; [exact H|inversion H].
  - pose proof (collect_terminals_spec rhs terminals) as Hct.
    destruct (collect_terminals rhs terminals) as [e|terminals1].
    { destruct Hct as (s & Hs & Hbad). exists lhs, rhs, s.
      split; [left|]; auto. }
    destruct Hct as [Hall1 Hmem1].
    specialize (IH ({[lhs]} ∪ variables) terminals1).
    destruct (collect_symbols rs ({[lhs]} ∪ variables) terminals1)
      as [e|[variables' terminals']].
    { destruct IH as (l & r & s & Hr & Hs & Hbad). exists l, r, s.
      split; [right|]; auto. }
    destruct IH as (Hall & Hv & Ht). split; [|split].
    + intros l r s Hr Hs. apply elem_of_cons in Hr as [[= -> ->]|Hr]; eauto.
    + intros v. rewrite Hv, elem_of_union, elem_of_singleton. split.
      * intros [[->|H]|[r H]]; [right|left|right].
        -- exists rhs. left.
        -- exact H.
        -- exists r. right. exact H.
      * intros [H|[r H]]; [auto|].
        apply elem_of_cons in H as [[= -> ->]|H]; [auto|]. right. eauto.
    + intros s. rewrite Ht, Hmem1. split.
      * intros [[H|[H H']]|(l & r & Hr & Hs & Hts)]; [left|right|right].
        -- exact H.
        -- exists lhs, rhs. split; [left|]; auto.
        -- exists l, r. split; [right|]; auto.
      * intros [H|(l & r & Hr & Hs & Hts)]; [auto|].
        apply elem_of_cons in Hr as [[= -> ->]|Hr]; [auto|].
        right. eauto.
Qed.

Lemma from_rules_iff (start_variable : ascii)
    (rules : list rule) :
  ((∃ G, from_rules start_variable rules = inr G)
   ↔ (∃ rhs, (start_variable, rhs) ∈ rules)
     ∧ ∀ lhs rhs, (lhs, rhs) ∈ rules →
         is_upper lhs = true
         ∧ ∀ s, s ∈ rhs →
             s = epsilon ∨ is_terminal s = true
             ∨ (is_upper s = true ∧ ∃ rhs', (s, rhs') ∈ rules))
  ∧ (∀ G, from_rules start_variable rules = inr G →
          Cfg.rules G = rules ∧ Cfg.start_variable G = start_variable
          ∧ (∀ v, v ∈ variables G ↔ ∃ rhs, (v, rhs) ∈ rules)
          ∧ (∀ s, s ∈ terminals G ↔
                  ∃ lhs rhs, (lhs, rhs) ∈ rules ∧ s ∈ rhs
                             ∧ is_terminal s = true)).
Proof.
  unfold from_rules.
  pose proof (collect_symbols_spec rules ∅ ∅) as Hcs.
  destruct (collect_symbols rules ∅ ∅) as [e|[variables terminals]].
  { split; [|intros G [=]]. split; [intros [? [=]]|].
    intros (_ & Hall). exfalso.
    destruct Hcs as (lhs & rhs & s & Hr & Hs & Hbad).
    destruct (Hall lhs rhs Hr) as [_ Hrhs].
    unfold letter_or_digit in Hbad.
    apply orb_false_iff in Hbad as [Hbad Hd].
    apply orb_false_iff in Hbad as [Hu Hl].
    destruct (Hrhs s Hs) as [->|[Ht|[Hu' _]]].
    - discriminate Hl.
    - rewrite is_terminal_alt, Hl, Hd in Ht. discriminate Ht.
    - congruence. }
  destruct Hcs as (Hletters & Hv & Ht).
  assert (∀ v, v ∈ variables ↔ ∃ rhs, (v, rhs) ∈ rules) as Hv'.
  { intros v. rewrite Hv. split; [|auto].
    intros [H|H]; [apply not_elem_of_empty in H; contradiction|exact H]. }
  assert (∀ s, s ∈ terminals ↔
               ∃ lhs rhs, (lhs, rhs) ∈ rules ∧ s ∈ rhs ∧ is_terminal s = true)
    as Ht'.
  { intros s. rewrite Ht. split; [|auto].
    intros [H|H]; [apply not_elem_of_empty in H; contradiction|exact H]. }
  split.
  - rewrite cfg_init_iff. unfold grammar_ok. split.
    + intros (H1 & H2 & H3 & H4 & H5 & H6 & H7).
      split; [apply Hv', H1|].
      intros lhs rhs Hr. destruct (H6 lhs rhs Hr) as [Hl Hrhs].
      split; [apply H4, Hl|]. intros s Hs.
      destruct (Hrhs s Hs) as [He|[Hvs|Hts]]; [auto| |].
      * right. right. split; [apply H4, Hvs | apply Hv', Hvs].
      * right. left. apply Ht' in Hts as (_ & _ & _ & _ & Hts). exact Hts.
    + intros (Hstart & Hall).
      split; [apply Hv', Hstart|].
      assert (∀ s, s ∈ variables → is_upper s = true) as Hup.
      { intros s Hs. apply Hv' in Hs as [rhs Hr].
        apply (Hall s rhs Hr). }
      assert (∀ s, s ∈ terminals → is_terminal s = true) as Hterm.
      { intros s Hs. apply Ht' in Hs as (_ & _ & _ & _ & Hs). exact Hs. }
      split; [|split; [|split; [exact Hup|split; [|split]]]].
      * intros s Hs Hs'. apply Hup, upper_not_terminal in Hs.
        apply Hterm in Hs'. congruence.
      * intros He. apply Hterm in He. discriminate He.
      * intros s Hs. apply Hterm in Hs. rewrite is_terminal_alt in Hs.
        apply andb_true_iff in Hs as [Hs _]. exact Hs.
      * intros lhs rhs Hr. split; [apply Hv'; eauto|].
        intros s Hs. destruct (Hall lhs rhs Hr) as [_ Hrhs].
        destruct (Hrhs s Hs) as [He|[Hts|[_ Hvs]]]; [auto| |].
        -- right. right. apply Ht'. eauto.
        -- right. left. apply Hv', Hvs.
      * intros v Hvs. apply Hv', Hvs.
  - intros G HG. apply cfg_init_record in HG. subst G. simpl. auto.
Qed.


End CfgConstruction.

Section CfgReader.
Import Cfg.

Lemma NoDup_set_add {A} `{EqDecision A} (x : A) (l : list A) :
  NoDup l → NoDup (set_add x l).
Proof.
  intros Hnd. unfold set_add. destruct (decide (x ∈ l)) as [|Hn]; [exact Hnd|].
  apply NoDup_app. split; [exact Hnd|]. split.
  - intros y Hy Hy'. apply list_elem_of_singleton in Hy'. subst y. auto.
  - apply NoDup_singleton.
Qed.

Lemma split_on_elements sep s part x :
  part ∈ split_on sep s → x ∈ part → x ∈ s ∧ x ≠ sep.
Proof.
  revert part. induction s as [|a s IH]; intros part; simpl.
  - intros Hp Hx. apply list_elem_of_singleton in Hp. subst part.
    inversion Hx.
  - destruct (decide (a = sep)) as [->|Hne].
    + intros Hp Hx. apply elem_of_cons in Hp as [->|Hp]; [inversion Hx|].
      destruct (IH part Hp Hx). split; [right|]; assumption.
    + destruct (split_on sep s) as [|p ps] eqn:Hs.
      * intros Hp Hx. apply list_elem_of_singleton in Hp. subst part.
        apply list_elem_of_singleton in Hx. subst x. split; [left|exact Hne].
      * intros Hp Hx. apply elem_of_cons in Hp as [->|Hp].
        -- apply elem_of_cons in Hx as [->|Hx]; [split; [left|exact Hne]|].
           destruct (IH p (list_elem_of_here _ _) Hx).
           split; [right|]; assumption.
        -- destruct (IH part (list_elem_of_further _ _ _ Hp) Hx).
           split; [right|]; assumption.
Qed.

(** The rules one line adds. *)
Lemma elem_of_line_rules lhs (alternatives : list str) (rules : list rule) r :
  r ∈ foldl (λ acc alternative, set_add (lhs, alternative) acc) rules
        alternatives
  ↔ r ∈ rules ∨ ∃ alternative, alternative ∈ alternatives
                                ∧ r = (lhs, alternative).
Proof.
  revert rules. induction alternatives as [|a alternatives IH]; intros rules;
    simpl.
  - split; [auto|]. intros [H|(a & H & _)]; [exact H|inversion H].
  - rewrite IH, elem_of_set_add. split.
    + intros [[->|H]|(a' & H & ->)]; [right|left|right].
      * exists a. split; [left|reflexivity].
      * exact H.
      * exists a'. split; [right; exact H|reflexivity].
    + intros [H|(a' & H & ->)]; [auto|].
      apply elem_of_cons in H as [->|H]; [auto|]. right. eauto.
Qed.

Lemma NoDup_line_rules lhs (alternatives : list str) (rules : list rule) :
  NoDup rules →
  NoDup (foldl (λ acc alternative, set_add (lhs, alternative) acc) rules
           alternatives).
Proof.
  revert rules. induction alternatives as [|a alternatives IH]; intros rules
    Hnd; simpl; [exact Hnd|].
  apply IH, NoDup_set_add, Hnd.
Qed.

Lemma read_rules_spec lines start_variable rules result :
  read_rules lines start_variable rules = inr result →
  (∀ r, r ∈ rules → r ∈ result.2)
  ∧ (∀ r, r ∈ result.2 →
          r ∈ rules
          ∨ (is_upper r.1 = true ∧ ∀ s, s ∈ r.2 → letter_or_digit s = true))
  ∧ (NoDup rules → NoDup result.2)
  ∧ (lines ≠ [] → ∃ lhs rhs, head lines ≫= head = Some lhs
                             ∧ (lhs, rhs) ∈ result.2).
Proof.
  revert start_variable rules.
  induction lines as [|line lines IH]; intros start_variable rules; simpl.
  - intros [= <-]. simpl. split; [auto|]. split; [auto|]. split; [auto|].
    intros H. contradiction.
  - destruct (negb (bool_decide (count_char ">" line = 1))); [discriminate|].
    destruct (negb (bool_decide (index_of ">"%char line = Some 1)));
      [discriminate|].
    destruct line as [|lhs line]; [discriminate|].
    destruct (is_upper lhs) eqn:Hu; simpl; [|discriminate].
    match goal with
    | |- context [forallb ?f ?l] => destruct (forallb f l) eqn:Hchars
    end; simpl; [|discriminate].
    intros H. apply IH in H as (Hkeep & Hshape & Hnd & _).
    split; [|split; [|split]].
    + intros r Hr. apply Hkeep, elem_of_line_rules. left. exact Hr.
    + intros r Hr. destruct (Hshape r Hr) as [Hin|Hok]; [|auto].
      apply elem_of_line_rules in Hin as [Hin|(alt & Halt & ->)]; [auto|].
      right. simpl. split; [exact Hu|]. intros s Hs.
      destruct (split_on_elements _ _ _ _ Halt Hs) as [Hin Hne].
      rewrite forallb_forall in Hchars.
      apply list_elem_of_In, Hchars in Hin.
      rewrite (bool_decide_eq_false_2 _ Hne) in Hin. exact Hin.
    + intros Hnd0. apply Hnd, NoDup_line_rules, Hnd0.
    + intros _.
      destruct (split_on "|" (drop 1 line)) as [|alt alts] eqn:Hs;
        [apply split_on_not_nil in Hs; contradiction|].
      exists lhs, alt. split; [reflexivity|].
      apply Hkeep, elem_of_line_rules. right. exists alt. split; [left|auto].
Qed.

(** X14.  What [read_grammar] returns when it succeeds: a list of rules
    without repetition, each with an uppercase letter as left-hand side
    and letters and digits as right-hand side; no start variable exactly
    when there is no rule, and otherwise a start variable that has a
    rule.  So [from_rules] accepts what was read exactly when every
    uppercase letter used in a right-hand side has a rule of its own. *)
Theorem read_grammar_output (file_lines : list str)
    (start_variable : option ascii) (rules : list rule) :
  read_grammar file_lines = inr (start_variable, rules) →
  NoDup rules
  ∧ (∀ lhs rhs, (lhs, rhs) ∈ rules →
       is_upper lhs = true ∧ ∀ s, s ∈ rhs → letter_or_digit s = true)
  ∧ (start_variable = None ↔ rules = [])
  ∧ (∀ start, start_variable = Some start →
       (∃ rhs, (start, rhs) ∈ rules)
       ∧ ((∃ G, from_rules start rules = inr G)
          ↔ ∀ lhs rhs s, (lhs, rhs) ∈ rules → s ∈ rhs → is_upper s = true →
                         ∃ rhs', (s, rhs') ∈ rules)).
Proof.
  unfold read_grammar. intros H.
  pose proof (read_rules_start _ _ _ _ H) as Hstart.
  assert (clean_lines file_lines = [] → rules = []) as Hempty.
  { intros Hc. rewrite Hc in H. simpl in H. congruence. }
  apply read_rules_spec in H as (_ & Hshape & Hnd & Hfirst).
  simpl in *.
  assert (∀ lhs rhs, (lhs, rhs) ∈ rules →
            is_upper lhs = true ∧ ∀ s, s ∈ rhs → letter_or_digit s = true)
    as Hshape'.
  { intros lhs rhs Hr. destruct (Hshape _ Hr) as [Hin|Hok];
      [inversion Hin | exact Hok]. }
  assert (∀ start, start_variable = Some start → ∃ rhs, (start, rhs) ∈ rules)
    as Hhas.
  { intros start Hs. destruct (clean_lines file_lines) as [|line lines];
      [rewrite Hstart in Hs; discriminate|].
    destruct Hfirst as (lhs & rhs & Hl & Hr); [discriminate|].
    rewrite Hstart, Hl in Hs. injection Hs as <-. eauto. }
  split; [apply Hnd; constructor|]. split; [exact Hshape'|]. split.
  - split.
    + intros Hnone. destruct (clean_lines file_lines) as [|line lines].
      * apply Hempty. reflexivity.
      * destruct Hfirst as (lhs & rhs & Hl & Hr); [discriminate|].
        rewrite Hstart, Hl in Hnone. discriminate.
    + intros ->. destruct start_variable as [s|]; [|reflexivity].
      destruct (Hhas s eq_refl) as [rhs Hr]. inversion Hr.
  - intros start Hs. split; [apply Hhas, Hs|].
    rewrite (proj1 (from_rules_iff start rules)). split.
    + intros [_ Hall] lhs rhs s Hr Hin Hu.
      destruct (Hall lhs rhs Hr) as [_ Hrhs].
      destruct (Hrhs s Hin) as [->|[Ht|[_ Hex]]]; [discriminate Hu| |exact Hex].
      apply upper_not_terminal in Hu. congruence.
    + intros Hvars. split; [apply Hhas, Hs|].
      intros lhs rhs Hr. destruct (Hshape' lhs rhs Hr) as [Hu Hrhs].
      split; [exact Hu|]. intros s Hin.
      specialize (Hrhs s Hin). unfold letter_or_digit in Hrhs.
      destruct (is_upper s) eqn:Hus.
      * right. right. split; [reflexivity|]. eapply Hvars; eauto.
      * simpl in Hrhs. destruct (decide (s = epsilon)) as [->|Hne]; [auto|].
        right. left. rewrite is_terminal_alt, Hrhs.
        rewrite (bool_decide_eq_false_2 _ Hne). reflexivity.
Qed.

End CfgReader.

Section CfgSelfTest.
Import Cfg.

Variables (G : CFG) (bound : Z).
Hypothesis G_ok : well_formed G.






End CfgSelfTest.

Section CfgSelfTestClaims.
Import Cfg.


End CfgSelfTestClaims.

(* ================================================================== *)
(** * The cleaning of description files *)
(* ================================================================== *)

Section CleanLines.

Lemma space_is_space : is_space " " = true.
Proof. reflexivity. Qed.

Lemma hash_not_space : is_space "#" = false.
Proof. reflexivity. Qed.

Lemma lstrip_cases s :
  lstrip s = [] ∨ ∃ a rest, lstrip s = a :: rest ∧ is_space a = false.
Proof.
  induction s as [|a s IH]; simpl; [auto|].
  destruct (is_space a) eqn:Ha; [exact IH|]. right. eauto.
Qed.

Lemma lstrip_snoc x a :
  is_space a = false → ∃ y, lstrip (x ++ [a]) = y ++ [a].
Proof.
  intros Ha. induction x as [|b x IH]; simpl.
  - rewrite Ha. exists []. reflexivity.
  - destruct (is_space b); [exact IH|]. exists (b :: x). reflexivity.
Qed.

Lemma head_strip s : head (strip s) = head (lstrip s).
Proof.
  unfold strip. destruct (lstrip_cases s) as [->|(a & rest & -> & Ha)];
    [reflexivity|].
  rewrite reverse_cons. destruct (lstrip_snoc (reverse rest) a Ha) as [y ->].
  rewrite reverse_app. reflexivity.
Qed.

Lemma head_lstrip_without_spaces s :
  head (lstrip (filter (λ a, a ≠ " "%char) s)) = head (lstrip s).
Proof.
  induction s as [|a s IH]; [reflexivity|].
  rewrite filter_cons. destruct (decide (a ≠ " "%char)) as [Hne|Heq].
  - simpl. destruct (is_space a); [exact IH|reflexivity].
  - apply dec_stable in Heq. subst a. simpl. exact IH.
Qed.

(** A line is kept when its first character that is not white space
    exists and is not the comment mark. *)
Lemma kept_iff line :
  starts_with "#" (strip line) = false ∧ strip line ≠ []
  ↔ ∃ a, head (lstrip line) = Some a ∧ a ≠ "#"%char.
Proof.
  rewrite <- head_strip. destruct (strip line) as [|a rest]; simpl.
  - split; [intros [_ H]; contradiction|]. intros (a & [=] & _).
  - split.
    + intros [H _]. exists a. split; [reflexivity|].
      apply bool_decide_eq_false in H. exact H.
    + intros (a' & [= <-] & Hne). split; [|discriminate].
      apply bool_decide_eq_false. exact Hne.
Qed.

Lemma without_spaces_idemp (s : str) :
  filter (λ a, a ≠ " "%char) (filter (λ a, a ≠ " "%char) s)
  = filter (λ a, a ≠ " "%char) s.
Proof.
  induction s as [|a s IH]; [reflexivity|].
  rewrite filter_cons. destruct (decide (a ≠ " "%char)) as [Hne|Heq];
    [|exact IH].
  rewrite filter_cons_True by exact Hne. f_equal. exact IH.
Qed.

Lemma clean_lines_idemp file_lines :
  clean_lines (clean_lines file_lines) = clean_lines file_lines.
Proof.
  unfold clean_lines. induction file_lines as [|line lines IH];
    [reflexivity|].
  rewrite filter_cons.
  destruct (decide (starts_with "#" (strip line) = false ∧ strip line ≠ []))
    as [Hk|Hk]; [|exact IH].
  rewrite fmap_cons. rewrite filter_cons_True.
  - rewrite fmap_cons, without_spaces_idemp. f_equal. exact IH.
  - apply kept_iff. apply kept_iff in Hk as (a & Ha & Hne).
    exists a. rewrite head_lstrip_without_spaces. auto.
Qed.

(** X16.  The cleaning that the three readers apply to the lines of a
    file leaves lines that are not empty, hold no space and do not
    begin with the comment mark; cleaning twice is cleaning once, so a
    reader gives on the cleaned lines what it gives on the file: blank
    lines, comment lines and spaces change nothing of what is read. *)
Theorem cleaning_is_idempotent (file_lines : list str) :
  (∀ line, line ∈ clean_lines file_lines →
     line ≠ [] ∧ (" "%char ∉ line) ∧ starts_with "#" line = false)
  ∧ clean_lines (clean_lines file_lines) = clean_lines file_lines
  ∧ Cfg.read_grammar (clean_lines file_lines) = Cfg.read_grammar file_lines
  ∧ Npda.read_automaton (clean_lines file_lines)
    = Npda.read_automaton file_lines
  ∧ Tm.read_machine (clean_lines file_lines) = Tm.read_machine file_lines.
Proof.
  split; [|split; [apply clean_lines_idemp|]].
  - intros line Hl. unfold clean_lines in Hl.
    apply list_elem_of_fmap in Hl as (raw & -> & Hraw).
    apply list_elem_of_filter in Hraw as [Hk _].
    apply kept_iff in Hk as (a & Ha & Hne).
    rewrite <- head_lstrip_without_spaces in Ha.
    split; [|split].
    + intros Hnil. rewrite Hnil in Ha. discriminate.
    + intros Hin. apply list_elem_of_filter in Hin as [Hin _]. congruence.
    + destruct (filter _ raw) as [|b rest]; [reflexivity|].
      simpl. apply bool_decide_eq_false. intros ->.
      simpl in Ha. injection Ha as <-. congruence.
  - unfold Cfg.read_grammar, Npda.read_automaton, Tm.read_machine.
    rewrite clean_lines_idemp. auto.
Qed.

End CleanLines.

(* ================================================================== *)
(** * The simulation of tm.py computes the runs of the machine *)
(* ================================================================== *)

Section TmRuns.
Import Tm.

Let key (t : transition) : string * string := (t_src t, t_read t).

Lemma read_tape_under_head c :
  tm_config_ok c → read_tape (c_tape c) (c_head c) = inr (under_head c).
Proof.
  intros [H0 H1]. unfold read_tape, under_head.
  destruct (c_head c <? 0)%Z eqn:E; zbool; [lia|].
  destruct (Z.of_nat (length (c_tape c)) <=? c_head c)%Z eqn:E'; zbool.
  - rewrite lookup_ge_None_2 by lia. reflexivity.
  - destruct (c_tape c !! Z.to_nat (c_head c)) eqn:El; [reflexivity|].
    apply lookup_ge_None in El. lia.
Qed.

Lemma write_tape_written c symbol :
  tm_config_ok c →
  write_tape (c_tape c) (c_head c) symbol = inr (written c symbol).
Proof.
  intros [H0 H1]. unfold write_tape, written.
  destruct (Z.of_nat (length (c_tape c)) <=? c_head c)%Z eqn:E; zbool.
  - assert (c_head c = Z.of_nat (length (c_tape c))) as Hh by lia.
    rewrite Hh.
    replace (Z.of_nat (length (c_tape c)) - Z.of_nat (length (c_tape c)) + 1)%Z
      with 1%Z by lia.
    simpl. rewrite length_app. simpl.
    destruct (0 <=? Z.of_nat (length (c_tape c)))%Z eqn:E0; zbool; [|lia].
    destruct (Z.of_nat (length (c_tape c))
              <? Z.of_nat (length (c_tape c) + 1))%Z eqn:E1; zbool; [|lia].
    rewrite Nat2Z.id. rewrite bool_decide_eq_false_2 by lia.
    rewrite insert_app_r_alt by lia. rewrite Nat.sub_diag. reflexivity.
  - destruct (0 <=? c_head c)%Z eqn:E0; zbool; [|lia].
    destruct (c_head c <? Z.of_nat (length (c_tape c)))%Z eqn:E1; zbool;
      [|lia].
    rewrite bool_decide_eq_true_2 by lia. reflexivity.
Qed.

Lemma move_head_spec direction head :
  move_head direction head
  = if bool_decide (direction = "r") then (head + 1)%Z
    else Z.max 0 (head - 1).
Proof.
  unfold move_head. case_bool_decide; [reflexivity|].
  destruct (head - 1 <? 0)%Z eqn:E; zbool; lia.
Qed.

(** The loop finds the transition for the current state and the symbol
    under the head, when there is one. *)
Lemma first_applicable_spec ts c :
  tm_config_ok c → NoDup (key <$> ts) →
  match first_applicable ts c with
  | Continue c' =>
      ∃ t, t ∈ ts ∧ t_src t = c_state c ∧ t_read t = under_head c
           ∧ c' = mkConfig (written c (t_write t)) (t_dest t)
                    (if bool_decide (t_direction t = "r")
                     then (c_head c + 1)%Z
                     else Z.max 0 (c_head c - 1))
  | Reject =>
      ∀ t, t ∈ ts → ¬ (t_src t = c_state c ∧ t_read t = under_head c)
  | _ => False
  end.
Proof.
  intros Hok _. induction ts as [|t ts IH]; simpl.
  - intros t Ht. inversion Ht.
  - destruct t as [[[[src rd] wr] dir] dst]. simpl.
    rewrite (read_tape_under_head c Hok).
    destruct (decide (src = c_state c)) as [Hs|Hs];
      [rewrite (bool_decide_eq_true_2 _ Hs)
      |rewrite (bool_decide_eq_false_2 _ Hs)].
    + destruct (decide (under_head c = rd)) as [Hr|Hr];
        [rewrite (bool_decide_eq_true_2 _ Hr)
        |rewrite (bool_decide_eq_false_2 _ Hr)].
      * rewrite (write_tape_written c wr Hok).
        exists (src, rd, wr, dir, dst). split; [left|].
        unfold t_src, t_read, t_write, t_dest, t_direction. simpl.
        rewrite move_head_spec. auto.
      * destruct (first_applicable ts c) as [| |c'|e]; try exact IH.
        -- intros t Ht. apply elem_of_cons in Ht as [->|Ht]; [|auto].
           unfold t_read. simpl. intros [_ H]. congruence.
        -- destruct IH as (t & Ht & Hrest). exists t.
           split; [right; exact Ht | exact Hrest].
    + destruct (first_applicable ts c) as [| |c'|e]; try exact IH.
      * intros t Ht. apply elem_of_cons in Ht as [->|Ht]; [|auto].
        unfold t_src. simpl. intros [H _]. congruence.
      * destruct IH as (t & Ht & Hrest). exists t.
        split; [right; exact Ht | exact Hrest].
Qed.

(** One call of the simulation and one move of the machine. *)
Lemma step_move M c :
  tm_config_ok c → NoDup (key <$> transitions M) →
  match step M c with
  | Accept => c_state c = "accept"
  | Reject => rejecting M c
  | Continue c' => move M c c' ∧ ∀ c'', move M c c'' → c'' = c'
  | Failure _ => False
  end.
Proof.
  intros Hok Hnd. unfold step.
  case_bool_decide as Hacc; [exact Hacc|].
  pose proof (first_applicable_spec (transitions M) c Hok Hnd) as Hfa.
  destruct (first_applicable (transitions M) c) as [| |c'|e];
    try contradiction.
  - split; [exact Hacc|]. intros c' Hm.
    destruct Hm as [c t _ Ht Hs Hr]. apply (Hfa t Ht). auto.
  - destruct Hfa as (t & Ht & Hs & Hr & ->). split.
    + constructor; assumption.
    + intros c'' Hm. destruct Hm as [c t' _ Ht' Hs' Hr'].
      assert (t' = t) as ->; [|reflexivity].
      apply (NoDup_fmap_inj key (transitions M)); auto.
      unfold key. congruence.
Qed.

Lemma move_config_ok M c c' : tm_config_ok c → move M c c' → tm_config_ok c'.
Proof.
  intros [H0 H1] Hm. destruct Hm as [c t _ _ _ _].
  unfold tm_config_ok, written. simpl.
  destruct (decide (Z.to_nat (c_head c) < length (c_tape c))) as [Hlt|Hlt];
    [rewrite (bool_decide_eq_true_2 _ Hlt)
    |rewrite (bool_decide_eq_false_2 _ Hlt)].
  - rewrite length_insert. case_bool_decide; lia.
  - rewrite length_app. simpl. case_bool_decide; lia.
Qed.

Lemma simulate_run fuel M c b :
  tm_config_ok c → NoDup (key <$> transitions M) →
  simulate fuel M c = Ret b →
  ∃ c', moves M c c'
        ∧ if b then c_state c' = "accept" else rejecting M c'.
Proof.
  intros Hok Hnd. revert c Hok.
  induction fuel as [|fuel IH]; intros c Hok; [discriminate|].
  simpl. pose proof (step_move M c Hok Hnd) as Hs.
  destruct (step M c) as [| |c1|e]; try contradiction.
  - intros [= <-]. exists c. split; [constructor | exact Hs].
  - intros [= <-]. exists c. split; [constructor | exact Hs].
  - destruct Hs as [Hm _]. intros Hsim.
    apply IH in Hsim as (c' & Hms & Hb);
      [|eapply move_config_ok; eassumption].
    exists c'. split; [|exact Hb].
    clear -Hm Hms. induction Hms as [|c2 c3 Hms IH Hm']; [|].
    + econstructor; [constructor | exact Hm].
    + econstructor; [exact IH | exact Hm'].
Qed.

(** A configuration where the machine has stopped, accepting or not. *)
Let stopped (M : TM) (c : config) : Prop :=
  c_state c = "accept" ∨ rejecting M c.

Lemma stopped_no_move M c c' : stopped M c → ¬ move M c c'.
Proof.
  intros [Ha|[_ Hr]] Hm; [|exact (Hr c' Hm)].
  destruct Hm. contradiction.
Qed.

(** Reading a run from its first move. *)
Lemma moves_first M c c' :
  moves M c c' → c' = c ∨ ∃ c1, move M c c1 ∧ moves M c1 c'.
Proof.
  induction 1 as [|c' c'' Hms IH Hm]; [auto|]. right.
  destruct IH as [->|(c1 & Hm1 & Hms1)].
  - exists c''. split; [exact Hm | constructor].
  - exists c1. split; [exact Hm1|]. econstructor; eassumption.
Qed.

Lemma move_deterministic M c c1 c2 :
  NoDup (key <$> transitions M) → move M c c1 → move M c c2 → c1 = c2.
Proof.
  intros Hnd H1 H2.
  destruct H1 as [c t _ Ht Hs Hr]. inversion H2 as [c0 t' _ Ht' Hs' Hr' Hc].
  assert (t' = t) as ->; [|reflexivity].
  apply (NoDup_fmap_inj key (transitions M)); auto.
  unfold key. congruence.
Qed.

Lemma moves_rtc M c c' : moves M c c' ↔ rtc (move M) c c'.
Proof.
  split.
  - induction 1 as [|c' c'' _ IH Hm]; [constructor|].
    eapply rtc_r; eassumption.
  - intros H. apply rtc_nsteps in H as [n H]. revert c' H.
    induction n as [|n IH]; intros c' H.
    + inversion H; subst. constructor.
    + apply nsteps_inv_r in H as (c1 & H1 & Hm).
      econstructor; [apply IH; exact H1 | exact Hm].
Qed.

(** Two runs from one configuration that both end where the machine
    has stopped end in the same configuration. *)
Lemma stopped_unique M c c1 c2 :
  NoDup (key <$> transitions M) →
  moves M c c1 → stopped M c1 → moves M c c2 → stopped M c2 → c1 = c2.
Proof.
  intros Hnd H1 Hs1 H2 Hs2. apply moves_rtc in H1, H2.
  revert c2 H2 Hs2. induction H1 as [c|c y c1 Hm _ IH]; intros c2 H2 Hs2.
  - inversion H2 as [|? y ? Hm _]; subst; [reflexivity|].
    exfalso. exact (stopped_no_move _ _ _ Hs1 Hm).
  - inversion H2 as [|? y' ? Hm' Hrest]; subst.
    + exfalso. exact (stopped_no_move _ _ _ Hs2 Hm).
    + rewrite (move_deterministic M c y' y Hnd Hm' Hm) in Hrest.
      exact (IH Hs1 c2 Hrest Hs2).
Qed.

(** A run that ends where the machine has stopped is found by the
    simulation, given fuel for its moves. *)
Lemma run_simulate M c c' :
  tm_config_ok c → NoDup (key <$> transitions M) →
  moves M c c' → stopped M c' →
  ∃ fuel, simulate fuel M c = Ret (bool_decide (c_state c' = "accept")).
Proof.
  intros Hok Hnd Hrun Hstop. apply moves_rtc in Hrun.
  induction Hrun as [c|c y c' Hm _ IH].
  - exists 1. simpl. pose proof (step_move M c Hok Hnd) as Hs.
    destruct (step M c) as [| |c1|e]; try contradiction.
    + rewrite bool_decide_eq_true_2 by exact Hs. reflexivity.
    + rewrite bool_decide_eq_false_2 by exact (proj1 Hs). reflexivity.
    + exfalso. exact (stopped_no_move _ _ _ Hstop (proj1 Hs)).
  - destruct (IH (move_config_ok _ _ _ Hok Hm) Hstop) as [fuel Hsim].
    exists (S fuel). simpl. pose proof (step_move M c Hok Hnd) as Hs.
    destruct (step M c) as [| |c1|e]; try contradiction.
    + exfalso. destruct Hm. contradiction.
    + exfalso. exact (proj2 Hs _ Hm).
    + rewrite <- (proj2 Hs _ Hm). exact Hsim.
Qed.

Lemma initial_config_ok M s :
  tm_config_ok (mkConfig (cells s) (start_state M) 0).
Proof. unfold tm_config_ok. simpl. lia. Qed.

(** X17.  For a machine the constructor accepted, [accepts] computes
    the run of the machine on the input: it returns True exactly when
    the run from the start state, with the head on the first cell of
    the input, reaches the state "accept", and False exactly when the
    run reaches, outside "accept", a configuration with no transition
    for its state and the symbol under its head.  No input has both
    runs. *)
Theorem tm_accepts_computes_the_run
    (states alphabet : gset string) (ts : list transition)
    (start : string) (M : TM) (s : string) :
  init states alphabet ts start = inr M →
  let c0 := mkConfig (cells s) (start_state M) 0 in
  ((∃ fuel, accepts fuel M s = Ret true)
   ↔ ∃ c, moves M c0 c ∧ c_state c = "accept")
  ∧ ((∃ fuel, accepts fuel M s = Ret false)
     ↔ ∃ c, moves M c0 c ∧ rejecting M c)
  ∧ ¬ ((∃ c, moves M c0 c ∧ c_state c = "accept")
       ∧ ∃ c, moves M c0 c ∧ rejecting M c).
Proof.
  intros Hinit c0.
  pose proof (proj1 (init_accepts_iff states alphabet ts start)
                (ex_intro _ M Hinit)) as (_ & _ & Hnd & _ & _).
  pose proof (init_inr_record _ _ _ _ _ Hinit) as HM.
  assert (NoDup (key <$> transitions M)) as Hnd'
    by (rewrite HM; exact Hnd).
  clear Hnd HM Hinit.
  pose proof (initial_config_ok M s) as Hok. fold c0 in Hok.
  split; [|split].
  - split.
    + intros [fuel Hacc].
      exact (simulate_run fuel M c0 true Hok Hnd' Hacc).
    + intros (c & Hrun & Hstate).
      destruct (run_simulate M c0 c Hok Hnd' Hrun (or_introl Hstate))
        as [fuel Hsim].
      exists fuel. rewrite bool_decide_eq_true_2 in Hsim by exact Hstate.
      exact Hsim.
  - split.
    + intros [fuel Hacc].
      exact (simulate_run fuel M c0 false Hok Hnd' Hacc).
    + intros (c & Hrun & Hrej).
      destruct (run_simulate M c0 c Hok Hnd' Hrun (or_intror Hrej))
        as [fuel Hsim].
      exists fuel.
      rewrite bool_decide_eq_false_2 in Hsim by exact (proj1 Hrej).
      exact Hsim.
  - intros [(c1 & Hrun1 & Hacc) (c2 & Hrun2 & Hrej)].
    pose proof (stopped_unique M c0 c1 c2 Hnd' Hrun1 (or_introl Hacc)
                  Hrun2 (or_intror Hrej)) as ->.
    exact (proj1 Hrej Hacc).
Qed.

End TmRuns.

(* ================================================================== *)
(** * What read_automaton of npda.py returns *)
(* ================================================================== *)

Section NpdaReader.
Import Npda.

Lemma foldl_set_add {A} `{EqDecision A} (l acc : list A) :
  (NoDup acc → NoDup (foldl (λ acc s, set_add s acc) acc l))
  ∧ ∀ x, x ∈ foldl (λ acc s, set_add s acc) acc l ↔ x ∈ acc ∨ x ∈ l.
Proof.
  revert acc. induction l as [|a l IH]; intros acc; simpl.
  - split; [auto|]. intros x. split; [auto|].
    intros [H|H]; [exact H | inversion H].
  - destruct (IH (set_add a acc)) as [Hnd Hin]. split.
    + intros H. apply Hnd, NoDup_set_add, H.
    + intros x. rewrite Hin, elem_of_set_add, elem_of_cons. tauto.
Qed.

(** The loop over the transition lines: every line gives one transition,
    whose source and destination are what stands before the first and
    after the second colon. *)
Lemma read_transitions_spec lines start_state transitions result :
  read_transitions lines start_state transitions = inr result →
  (∀ t, t ∈ result.2 ↔
        t ∈ transitions
        ∨ ∃ line a b c, line ∈ lines
            ∧ split_on ":" line = [t.1.1.1.1; [a; ","%char; b; ">"%char; c];
                                   t.2]
            ∧ t = (t.1.1.1.1, a, b, c, t.2))
  ∧ (NoDup transitions → NoDup result.2)
  ∧ (∀ line, line ∈ lines →
       ∃ t, t ∈ result.2 ∧ head (split_on ":" line) = Some t.1.1.1.1).
Proof.
  revert start_state transitions.
  induction lines as [|line lines IH]; intros start_state transitions; simpl.
  - intros [= <-]. simpl. split; [|split; [auto|]].
    + intros t. split; [auto|]. intros [H|(l & a & b & c & H & _)];
        [exact H | inversion H].
    + intros l H. inversion H.
  - destruct (negb (bool_decide (count_char ":" line = 2))); [discriminate|].
    destruct (negb (bool_decide (count_char ">" line = 1))); [discriminate|].
    destruct (index_of ":"%char line); [|discriminate].
    destruct (index_of ">"%char line); [|discriminate].
    destruct (rindex_of ":" line); [|discriminate].
    destruct (negb (bool_decide _)); [discriminate|].
    destruct (split_on ":" line) as [|source [|label [|destination [|]]]]
      eqn:Hsplit; try discriminate.
    destruct label as [|a [|b [|c [|d [|e [|]]]]]]; try discriminate.
    destruct (decide (b = ","%char)) as [->|Hb];
      [|rewrite (bool_decide_eq_false_2 _ Hb); discriminate].
    destruct (decide (d = ">"%char)) as [->|Hd];
      [|rewrite (bool_decide_eq_false_2 _ Hd); discriminate].
    rewrite !bool_decide_eq_true_2 by reflexivity. simpl.
    intros H. apply IH in H as (Hin & Hnd & Hline).
    split; [|split].
    + intros t. rewrite Hin, elem_of_set_add. split.
      * intros [[->|H]|(l & a' & b' & c' & Hl & Hs & Ht)].
        -- right. exists line, a, c, e. split; [left|]. simpl. auto.
        -- left. exact H.
        -- right. exists l, a', b', c'. split; [right; exact Hl | auto].
      * intros [H|(l & a' & b' & c' & Hl & Hs & Ht)]; [auto|].
        apply elem_of_cons in Hl as [->|Hl].
        -- left. left. rewrite Ht. rewrite Hsplit in Hs.
           injection Hs as <- <- <- <- <-. reflexivity.
        -- right. exists l, a', b', c'. auto.
    + intros H. apply Hnd, NoDup_set_add, H.
    + intros l Hl. apply elem_of_cons in Hl as [->|Hl]; [|auto].
      exists (source, a, c, e, destination). split.
      * apply Hin. left. apply elem_of_set_add. left. reflexivity.
      * rewrite Hsplit. reflexivity.
Qed.

Lemma drop_last_nil {A} (l : list A) : drop_last l = [] ↔ length l ≤ 1.
Proof.
  unfold drop_last. destruct l as [|a [|b l]]; simpl.
  - split; [lia|reflexivity].
  - split; [lia|reflexivity].
  - split; [discriminate|lia].
Qed.

Lemma npda_from_transitions_iff
    (start : str) (ts : list transition) (accept : gset str) :
  (∃ M, from_transitions_and_accept_states start ts accept = inr M)
  ↔ (∃ t, t ∈ ts ∧ (t.1.1.1.1 = start ∨ t.2 = start))
    ∧ ∀ q, q ∈ accept → ∃ t, t ∈ ts ∧ (t.1.1.1.1 = q ∨ t.2 = q).
Proof.
  unfold from_transitions_and_accept_states. rewrite npda_init_iff.
  change (foldr _ ∅ ts) with (npda_endpoints ts).
  rewrite elem_of_npda_endpoints. split; intros [Hs Ha]; split;
    try exact Hs; intros q Hq; apply elem_of_npda_endpoints; auto.
Qed.

(** X18.  What [read_automaton] returns when it succeeds: transitions
    and accept states without repetition; as accept states the
    comma-separated parts of the last line that is neither blank nor a
    comment, so at least one; no start state exactly when that line is
    the only one, and there is then no transition; otherwise a start
    state that is the source of a transition.  So
    [from_transitions_and_accept_states] accepts what was read exactly
    when every accept state occurs in a transition. *)
Theorem read_automaton_output (file_lines : list str)
    (start_state : option str) (ts : list transition) (accept : list str) :
  read_automaton file_lines = inr (start_state, ts, accept) →
  NoDup ts ∧ NoDup accept
  ∧ (∀ q, q ∈ accept
          ↔ q ∈ split_on "," (default [] (last (clean_lines file_lines))))
  ∧ (∃ q, q ∈ accept)
  ∧ (start_state = None ↔ ts = [])
  ∧ (start_state = None ↔ length (clean_lines file_lines) = 1)
  ∧ (∀ start, start_state = Some start →
       (∃ t, t ∈ ts ∧ t.1.1.1.1 = start)
       ∧ ((∃ M, from_transitions_and_accept_states start ts
                  (list_to_set accept) = inr M)
          ↔ ∀ q, q ∈ accept → ∃ t, t ∈ ts ∧ (t.1.1.1.1 = q ∨ t.2 = q))).
Proof.
  unfold read_automaton. intros H.
  destruct (decide (1 ≤ length (clean_lines file_lines))) as [Hlen|Hlen];
    [rewrite (bool_decide_eq_true_2 _ Hlen) in H
    |rewrite (bool_decide_eq_false_2 _ Hlen) in H; discriminate].
  simpl in H.
  destruct (read_transitions (drop_last (clean_lines file_lines)) None [])
    as [e|[start' ts']] eqn:Hread; [discriminate|].
  injection H as -> -> <-.
  pose proof (read_transitions_start _ _ _ _ Hread) as Hstart.
  apply read_transitions_spec in Hread as (Hin & Hnd & Hline).
  simpl in *.
  set (parts := split_on "," (default [] (last (clean_lines file_lines)))).
  destruct (foldl_set_add parts []) as [Hnda Hina].
  assert (∀ start, start_state = Some start → ∃ t, t ∈ ts ∧ t.1.1.1.1 = start)
    as Hhas.
  { intros start Hs. rewrite Hs in Hstart.
    destruct (drop_last (clean_lines file_lines)) as [|line lines];
      [discriminate|].
    destruct (Hline line) as (t & Ht & Hhead); [left|].
    simpl in Hstart. rewrite Hhead in Hstart. injection Hstart as ->.
    eauto. }
  assert (start_state = None ↔ drop_last (clean_lines file_lines) = [])
    as Hnone.
  { rewrite Hstart.
    destruct (drop_last (clean_lines file_lines)) as [|line lines];
      [tauto|].
    split; [|discriminate]. simpl.
    destruct (Hline line) as (t & _ & Hhead); [left|].
    rewrite Hhead. discriminate. }
  split; [apply Hnd; constructor|].
  split; [apply Hnda; constructor|].
  split; [intros q; rewrite Hina; split; [intros [H|H]; [inversion H|exact H]
                                         |auto]|].
  split.
  { destruct parts as [|q parts'] eqn:Hp;
      [apply split_on_not_nil in Hp; contradiction|].
    exists q. apply Hina. right. left. }
  split; [|split].
  - rewrite Hnone. split.
    + intros Hd. destruct ts as [|t ts]; [reflexivity|].
      destruct (proj1 (Hin t)) as [H|(l & _ & _ & _ & Hl & _)]; [left| |].
      * inversion H.
      * rewrite Hd in Hl. inversion Hl.
    + intros ->.
      destruct (drop_last (clean_lines file_lines)) as [|line lines];
        [reflexivity|].
      destruct (Hline line) as (t & Ht & _); [left|]. inversion Ht.
  - rewrite Hnone. split.
    + intros Hd. apply drop_last_nil in Hd. lia.
    + intros H1. apply drop_last_nil. lia.
  - intros start Hs. split; [apply Hhas, Hs|].
    rewrite npda_from_transitions_iff. split.
    + intros [_ Hall] q Hq. apply Hall. apply elem_of_list_to_set. exact Hq.
    + intros Hall. split.
      * destruct (Hhas start Hs) as (t & Ht & Hsrc). eauto.
      * intros q Hq. apply Hall. apply elem_of_list_to_set in Hq. exact Hq.
Qed.

End NpdaReader.

(* ================================================================== *)
(** * Terminals along the derivations that derive returns *)
(* ================================================================== *)

Section CfgTerminals.
Import Cfg.

Lemma chain_sorted G d :
  chain (leftmost_step G) d →
  StronglySorted (λ x y, count_terminals x ≤ count_terminals y) d.
Proof.
  induction d as [|x d IH]; intros Hc; [constructor|].
  assert (chain (leftmost_step G) d) as Hc'
    by (destruct d; [exact I | exact (proj2 Hc)]).
  specialize (IH Hc'). constructor; [exact IH|].
  destruct d as [|y d]; [constructor|].
  destruct Hc as [Hstep _]. apply leftmost_step_terminals in Hstep.
  apply StronglySorted_inv in IH as [_ Hall].
  constructor; [exact Hstep|].
  eapply Forall_impl; [exact Hall|]. simpl. intros z Hz. lia.
Qed.

Lemma sorted_below_last {A} (f : A → nat) (d : list A) t :
  StronglySorted (λ x y, f x ≤ f y) d → last d = Some t →
  Forall (λ x, f x ≤ f t) d.
Proof.
  induction d as [|x d IH]; intros Hs Hl; [constructor|].
  apply StronglySorted_inv in Hs as [Hs Hall].
  destruct d as [|y d].
  - simpl in Hl. injection Hl as ->. constructor; [lia|constructor].
  - specialize (IH Hs Hl). constructor; [|exact IH].
    rewrite Forall_forall in Hall.
    apply Hall. apply last_Some_elem_of. exact Hl.
Qed.

(** X19.  Along a derivation that [derive] returns the number of
    terminals never decreases from one string to a later one, so no
    string of it has more terminals than the target has characters; and
    no string of it has more variable occurrences than the bound.  This
    is what the search relies on when it abandons a string with more
    terminals than the target. *)
Theorem derivation_terminals_never_decrease
    (fuel : nat) (G : CFG) (current_string string : str) (bound : Z)
    (derivation : list str) :
  derive fuel G current_string string bound = Ret derivation →
  StronglySorted (λ x y, count_terminals x ≤ count_terminals y) derivation
  ∧ Forall (λ x, count_terminals x ≤ length string
                 ∧ (Z.of_nat (count_variables x) ≤ bound)%Z) derivation.
Proof.
  intros Hd. destruct derivation as [|x d]; [split; constructor|].
  pose proof (derive_ret_checks _ _ _ _ _ _ Hd) as [Hok _].
  destruct (derive_sound _ _ _ _ _ _ Hd) as (_ & Hlast & Hchain & Hvars);
    [discriminate|].
  pose proof (chain_sorted _ _ Hchain) as Hsorted.
  split; [exact Hsorted|].
  pose proof (sorted_below_last count_terminals _ _ Hsorted Hlast) as Hbelow.
  destruct (target_ok_counts _ Hok) as [Hlen _]. rewrite Hlen in Hbelow.
  rewrite Forall_forall in Hbelow, Hvars. apply Forall_forall.
  intros y Hy. split; [apply Hbelow, Hy | apply Hvars, Hy].
Qed.

End CfgTerminals.

(* ================================================================== *)
(** * The self-test of tm.py and npda.py *)
(* ================================================================== *)

Section SelfTestSpec.
Context {A : Type} `{Countable A}.
Variable accepts : A → outcome bool.

(** What [accepts] is correct for. *)
Variable member : A → Prop.






End SelfTestSpec.

Section TmSelfTest.
Import Tm.



End TmSelfTest.

Section NpdaSelfTest.
Import Npda.


End NpdaSelfTest.

(* ================================================================== *)
(** * The further properties on concrete inputs *)
(* ================================================================== *)

Section MoreInstances.

Lemma tm_iteration_order_irrelevant_witness :
  ∃ M', Tm.init {[ "q"; "p"; "accept" ]} {[ "."; "1" ]}
          [("p", "1", ".", "r", "accept"); ("q", "1", "1", "l", "p")] "q"
        = inr M'
        ∧ ∀ fuel s, Tm.accepts fuel M' s = Tm.accepts fuel left_then_accept s.
Proof.
  apply (tm_iteration_order_irrelevant {[ "q"; "p"; "accept" ]} {[ "."; "1" ]}
           [("q", "1", "1", "l", "p"); ("p", "1", ".", "r", "accept")]
           [("p", "1", ".", "r", "accept"); ("q", "1", "1", "l", "p")]
           "q" left_then_accept).
  - vm_compute. reflexivity.
  - apply perm_swap.
Defined.


Lemma read_machine_output_witness :
  Some "q"
  = Tm.name <$> (head (clean_lines machine_file)
                   ≫= (λ line, head (split_on ":" line)))
  ∧ ∃ t, t ∈ [("q", "1", "1", "l", "p"); ("p", "1", ".", "r", "accept")]
         ∧ Tm.t_src t = "q".
Proof.
  destruct (read_machine_output machine_file "q"
              [("q", "1", "1", "l", "p"); ("p", "1", ".", "r", "accept")])
    as (Hstart & Hsrc & _).
  - vm_compute. reflexivity.
  - exact (conj Hstart Hsrc).
Defined.

Lemma npda_answer_independent_of_order_witness :
  Npda.accepts 10 nested_automaton (list_ascii_of_string "0011") = Ret true
  ∧ Npda.accepts 10 nested_automaton_reordered (list_ascii_of_string "0011")
    = Ret true
  ∧ true = true.
Proof.
  split; [vm_compute; reflexivity|]. split; [vm_compute; reflexivity|].
  apply (npda_answer_independent_of_order nested_automaton
           nested_automaton_reordered (list_ascii_of_string "0011") 10 10).
  - intros t. simpl. rewrite elem_of_reverse. reflexivity.
  - reflexivity.
  - reflexivity.
  - vm_compute. reflexivity.
  - vm_compute. reflexivity.
Defined.

Lemma npda_terminates_without_epsilon_input_witness :
  ∃ b, Npda.accepts 3 parity_automaton (list_ascii_of_string "11") = Ret b
       ∧ (b = true
          ↔ Npda.language parity_automaton (list_ascii_of_string "11")).
Proof.
  apply (npda_terminates_without_epsilon_input parity_automaton
           (list_ascii_of_string "11")).
  - intros t Ht. simpl in Ht.
    apply elem_of_cons in Ht as [->|Ht]; [discriminate|].
    apply elem_of_cons in Ht as [->|Ht]; [discriminate|].
    inversion Ht.
  - simpl. lia.
Defined.

Lemma npda_epsilon_loop_never_rejects_witness :
  (∀ fuel input stack,
     Npda.simulate fuel looping_automaton
       (Npda.mkConfig (list_ascii_of_string "q0") input stack) ≠ Ret false)
  ∧ (∀ s, Npda.start_state looping_automaton = list_ascii_of_string "q0" →
          ¬ Npda.language looping_automaton s →
          ∀ fuel, Npda.accepts fuel looping_automaton s = Out_of_fuel).
Proof.
  apply (npda_epsilon_loop_never_rejects looping_automaton
           (list_ascii_of_string "q0") "x"%char).
  simpl. left.
Defined.

Lemma search_edge_cases_witness :
  Cfg.generate 1 loop_grammar ["a"%char] 0 = Ret []
  ∧ Cfg.derive 1 loop_grammar ["a"%char] ["a"%char] 0 = Ret [["a"%char]].
Proof.
  destruct (search_edge_cases 0 loop_grammar ["a"%char] 0) as (H1 & H2 & _).
  - repeat constructor.
  - split; [apply H1; [reflexivity|lia] | apply H2; lia].
Defined.

Lemma read_grammar_output_witness :
  NoDup [("S"%char, list_ascii_of_string "0S1");
         ("S"%char, list_ascii_of_string "e")]
  ∧ ∃ G, Cfg.from_rules "S"%char
           [("S"%char, list_ascii_of_string "0S1");
            ("S"%char, list_ascii_of_string "e")] = inr G.
Proof.
  destruct (read_grammar_output grammar_file (Some "S"%char)
              [("S"%char, list_ascii_of_string "0S1");
               ("S"%char, list_ascii_of_string "e")])
    as (Hnd & _ & _ & Hstart).
  - vm_compute. reflexivity.
  - split; [exact Hnd|].
    destruct (Hstart "S"%char eq_refl) as [_ Hbuild].
    apply Hbuild. intros lhs rhs s Hr Hs Hu.
    exists (list_ascii_of_string "0S1").
    apply elem_of_cons in Hr as [Hr|Hr].
    + injection Hr as -> ->. simpl in Hs.
      apply elem_of_cons in Hs as [->|Hs]; [discriminate|].
      apply elem_of_cons in Hs as [->|Hs]; [left|].
      apply elem_of_cons in Hs as [->|Hs]; [discriminate|]. inversion Hs.
    + apply elem_of_cons in Hr as [Hr|Hr]; [|inversion Hr].
      injection Hr as -> ->. simpl in Hs.
      apply elem_of_cons in Hs as [->|Hs]; [discriminate|]. inversion Hs.
Defined.


Lemma tm_accepts_computes_the_run_witness :
  ∃ c, Tm.moves left_then_accept
         (Tm.mkConfig (Tm.cells "1") "q" 0) c
       ∧ Tm.c_state c = "accept".
Proof.
  destruct (tm_accepts_computes_the_run
              {[ "q"; "p"; "accept" ]} {[ "."; "1" ]}
              [("q", "1", "1", "l", "p"); ("p", "1", ".", "r", "accept")]
              "q" left_then_accept "1")
    as [Hacc _].
  - vm_compute. reflexivity.
  - apply Hacc. exists 5. vm_compute. reflexivity.
Defined.

Lemma read_automaton_output_witness :
  NoDup (Npda.transitions nested_automaton)
  ∧ ∃ M, Npda.from_transitions_and_accept_states (list_ascii_of_string "q0")
           (Npda.transitions nested_automaton)
           (list_to_set [list_ascii_of_string "q2"]) = inr M.
Proof.
  destruct (read_automaton_output automaton_file
              (Some (list_ascii_of_string "q0"))
              (Npda.transitions nested_automaton)
              [list_ascii_of_string "q2"])
    as (Hnd & _ & _ & _ & _ & _ & Hstart).
  - vm_compute. reflexivity.
  - split; [exact Hnd|].
    destruct (Hstart (list_ascii_of_string "q0") eq_refl) as [_ Hbuild].
    apply Hbuild. intros q Hq.
    apply list_elem_of_singleton in Hq as ->.
    exists (list_ascii_of_string "q1", "e", "$", "e",
            list_ascii_of_string "q2")%char.
    split; [|right; reflexivity].
    simpl. right. right. right. left.
Defined.

Lemma derivation_terminals_never_decrease_witness :
  StronglySorted
    (λ x y, Cfg.count_terminals x ≤ Cfg.count_terminals y)
    [["A"%char]; ["A"%char]; ["a"%char]]
  ∧ Forall (λ x, Cfg.count_terminals x ≤ length ["a"%char]
                 ∧ (Z.of_nat (Cfg.count_variables x) ≤ 64)%Z)
      [["A"%char]; ["A"%char]; ["a"%char]].
Proof.
  apply (derivation_terminals_never_decrease 10 loop_grammar
           ["A"%char] ["a"%char] 64).
  vm_compute. reflexivity.
Defined.


End MoreInstances.
